(** * quantumsim: Kraus/PTM algebra and the dense density-matrix backend

    A shallow embedding of

    - [qs2/operations/algebra.py]      ([bases_kron], [single_kraus_to_ptm],
                                        [kraus_to_ptm], [ptm_convert_basis]),
    - [quantumsim/operations/qubits.py] (the gates and channels of the
                                        library),
    - [quantumsim/dm10.py]              (class [Density]),

    together with the properties of these functions.

    Conventions.  Python integers are [Z].  A Python call that may raise
    returns a [result].  numpy arrays of numbers are a shape and an item
    function, indexed in row-major (C) order; their scalars are exact
    complex numbers over [R] (float64 round-off is not modelled, so
    "equal within tolerance" is stated as a bound on [Rabs] of an exact
    difference).  Device buffers of the backend are lists of binary64
    values which the Python code only copies, zeroes and hands to
    kernels. *)

From Stdlib Require Import Ascii String.
From Stdlib Require Import ZArith List Lia Reals Lra Bool Arith PeanoNat.
From Stdlib Require Import FunctionalExtensionality Permutation.
From Stdlib Require Import RNsatz.
From Stdlib Require PrimFloat.
From Stdlib Require Strings.Byte.
From stdpp Require gmap.
Import ListNotations.

(** ** Python exceptions and results *)

Module Py.

Inductive exn : Type :=
| ValueError
| IndexError
| TypeError
| NotImplementedError
| CudaError.

Inductive result (A : Type) : Type :=
| Ok (a : A)
| Raise (e : exn).

Arguments Ok {A} a.
Arguments Raise {A} e.

Definition bind {A B : Type} (m : result A) (k : A -> result B) : result B :=
  match m with
  | Ok a => k a
  | Raise e => Raise e
  end.

Definition raises {A : Type} (m : result A) : bool :=
  match m with
  | Ok _ => false
  | Raise _ => true
  end.

Definition exn_eqb (a b : exn) : bool :=
  match a, b with
  | ValueError, ValueError => true
  | IndexError, IndexError => true
  | TypeError, TypeError => true
  | NotImplementedError, NotImplementedError => true
  | CudaError, CudaError => true
  | _, _ => false
  end.

End Py.

Export Py.

Declare Scope py_scope.
Delimit Scope py_scope with py.
Notation "x <- m ;; k" := (Py.bind m (fun x => k))
  (at level 90, m at next level, right associativity) : py_scope.
Notation "'check' c 'else_raise' e ;; k" :=
  (if c then k else Py.Raise e)
  (at level 90, c at next level, e at next level, right associativity) : py_scope.

(** ** Exact complex numbers *)

Module Cx.

Local Open Scope R_scope.

Record C : Type := mkC { re : R; im : R }.

Definition C0 : C := mkC 0 0.
Definition C1 : C := mkC 1 0.
Definition Ci : C := mkC 0 1.
Definition RtoC (x : R) : C := mkC x 0.

Definition Cadd (a b : C) : C := mkC (re a + re b) (im a + im b).
Definition Copp (a : C) : C := mkC (- re a) (- im a).
Definition Csub (a b : C) : C := mkC (re a - re b) (im a - im b).
Definition Cmul (a b : C) : C :=
  mkC (re a * re b - im a * im b) (re a * im b + im a * re b).
Definition Cconj (a : C) : C := mkC (re a) (- im a).

(** [sum_n n f] is [f 0 + ... + f (n-1)]. *)
Fixpoint sum_n (n : nat) (f : nat -> C) : C :=
  match n with
  | O => C0
  | S k => Cadd (sum_n k f) (f k)
  end.

Definition Cprod (l : list C) : C := fold_right Cmul C1 l.

End Cx.

Export Cx.

Declare Scope C_scope.
Delimit Scope C_scope with C.
Bind Scope C_scope with C.
Infix "+" := Cadd : C_scope.
Infix "*" := Cmul : C_scope.
Infix "-" := Csub : C_scope.
Notation "- x" := (Copp x) : C_scope.

(** ** numpy arrays and [einsum] *)

Module Np.

(** An array is its shape and its items, addressed by multi-index.
    numpy's limit on the number of axes of an array (64; 32 before
    numpy 2) is not modelled. *)
Record ndarray : Type := {
  shape : list nat;
  item : list nat -> C
}.

Definition prod (l : list nat) : nat := fold_right Nat.mul 1 l.

Definition ndim (a : ndarray) : nat := length (shape a).
Definition size (a : ndarray) : nat := prod (shape a).

(** Row-major (C order) flat index of a multi-index, and back. *)
Fixpoint ravel (sh idx : list nat) : nat :=
  match sh, idx with
  | _ :: sh', i :: idx' => i * prod sh' + ravel sh' idx'
  | _, _ => 0
  end.

Fixpoint unravel (sh : list nat) (k : nat) : list nat :=
  match sh with
  | [] => []
  | _ :: sh' => k / prod sh' :: unravel sh' (k mod prod sh')
  end.

(** [a.reshape(newshape)]: same items in the same flat order; numpy
    raises ValueError when the sizes differ. *)
Definition reshape (a : ndarray) (newshape : list nat) : result ndarray :=
  if prod newshape =? size a then
    Ok {| shape := newshape;
          item := fun idx => item a (unravel (shape a) (ravel newshape idx)) |}
  else Raise ValueError.

(** [a.real] and [a.conj()]. *)
Definition real (a : ndarray) : ndarray :=
  {| shape := shape a; item := fun idx => RtoC (re (item a idx)) |}.

Definition conj (a : ndarray) : ndarray :=
  {| shape := shape a; item := fun idx => Cconj (item a idx) |}.

Fixpoint map2 {A B D : Type} (f : A -> B -> D) (l : list A) (m : list B) : list D :=
  match l, m with
  | x :: l', y :: m' => f x y :: map2 f l' m'
  | _, _ => []
  end.

(** [np.kron] of two arrays of the same rank. *)
Definition kron (a b : ndarray) : ndarray :=
  {| shape := map2 Nat.mul (shape a) (shape b);
     item := fun idx =>
       (item a (map2 Nat.div idx (shape b))
        * item b (map2 Nat.modulo idx (shape b)))%C |}.

(** *** [np.einsum]

    [einsum [(a1, s1); ...; (ak, sk)] out] is the contraction numpy
    computes once the subscripts are read: the item of the result at
    an assignment of the output labels is the sum, over all
    assignments of the other labels, of the product of the operands'
    items.  The axes carrying one label have one length, except that
    an axis of length 1 stands for any length (it is broadcast: read
    at index 0); numpy raises ValueError otherwise, as it does for an
    operand whose rank is not the number of its subscripts and for an
    output label that is repeated or is no input label. *)

Definition operand : Type := (ndarray * list nat)%type.

Definition mem (l : nat) (ls : list nat) : bool := existsb (Nat.eqb l) ls.

(** numpy's [dimension_dict]: the length of a label is that of the
    first axis carrying it, replaced by the next one as long as it
    is 1. *)
Fixpoint dimension (l : nat) (labels dims : list nat) : option nat :=
  match labels, dims with
  | l' :: ls, d :: ds =>
      if l =? l' then
        if d =? 1 then
          Some (match dimension l ls ds with Some d' => d' | None => 1 end)
        else Some d
      else dimension l ls ds
  | _, _ => None
  end.

Definition in_labels (ops : list operand) : list nat := concat (map snd ops).
Definition in_dims (ops : list operand) : list nat :=
  concat (map (fun o => shape (fst o)) ops).

Definition label_dim (ops : list operand) (l : nat) : nat :=
  match dimension l (in_labels ops) (in_dims ops) with
  | Some d => d
  | None => 0
  end.

Definition rank_ok (o : operand) : bool := length (snd o) =? ndim (fst o).

(** Every axis has length 1 or the length of its label. *)
Definition dims_ok (dim : nat -> nat) (o : operand) : bool :=
  forallb (fun p => (fst p =? 1) || (fst p =? dim (snd p)))
          (combine (shape (fst o)) (snd o)).

Fixpoint nodupb (ls : list nat) : bool :=
  match ls with
  | [] => true
  | l :: ls' => negb (mem l ls') && nodupb ls'
  end.

(** The summed labels, in increasing order. *)
Definition sum_labels (ops : list operand) (out : list nat) : list nat :=
  filter (fun l => mem l (in_labels ops) && negb (mem l out))
         (seq 0 (S (list_max (in_labels ops)))).

Definition upd (env : nat -> nat) (l v : nat) : nat -> nat :=
  fun l' => if l' =? l then v else env l'.

Fixpoint bind (ls vs : list nat) (env : nat -> nat) : nat -> nat :=
  match ls, vs with
  | l :: ls', v :: vs' => bind ls' vs' (upd env l v)
  | _, _ => env
  end.

Fixpoint sum_over (ls : list nat) (dim : nat -> nat) (env : nat -> nat)
    (F : (nat -> nat) -> C) : C :=
  match ls with
  | [] => F env
  | l :: ls' => sum_n (dim l) (fun v => sum_over ls' dim (upd env l v) F)
  end.

(** The index at which an operand is read: the values of its labels,
    and 0 on an axis that is broadcast (shorter than its label). *)
Definition read (dim env : nat -> nat) (o : operand) : list nat :=
  map (fun p => if fst p =? dim (snd p) then env (snd p) else 0)
      (combine (shape (fst o)) (snd o)).

Definition product (dim : nat -> nat) (ops : list operand) (env : nat -> nat) : C :=
  Cprod (map (fun o => item (fst o) (read dim env o)) ops).

Definition einsum (ops : list operand) (out : list nat) : result ndarray :=
  let dim := label_dim ops in
  if forallb rank_ok ops
     && forallb (dims_ok dim) ops
     && forallb (fun l => mem l (in_labels ops)) out
     && nodupb out
  then
    Ok {| shape := map dim out;
          item := fun oidx =>
            sum_over (sum_labels ops out) dim (bind out oidx (fun _ => 0))
                     (product dim ops) |}
  else Raise ValueError.

(** *** [np.einsum] with lists of integer subscripts and [optimize=True]

    [np.einsum(a1, s1, ..., ak, sk, out, optimize=True)] first writes
    the integer subscripts as letters, [einsum_symbols[s]] for each
    subscript [s], where [einsum_symbols] is the string of the 52
    letters [a-zA-Z]: indexing it at 52 or beyond raises IndexError,
    before any shape is looked at. *)

Definition einsum_symbols : nat := 52.

Definition einsum_list (ops : list operand) (out : list nat) : result ndarray :=
  if forallb (fun s => s <? einsum_symbols) (in_labels ops ++ out)
  then einsum ops out
  else Raise IndexError.

(** *** [np.einsum] with a subscripts string

    ["xab, zbc -> xy"]: blanks are skipped, the operands' subscripts are
    separated by commas, the output follows the arrow; a label is its
    character code. *)

Local Open Scope string_scope.

Fixpoint split_commas (s : string) (cur : list nat) : list (list nat) :=
  match s with
  | EmptyString => [rev cur]
  | String c s' =>
      if Ascii.eqb c "," then rev cur :: split_commas s' []
      else if Ascii.eqb c " " then split_commas s' cur
      else split_commas s' (nat_of_ascii c :: cur)
  end.

Fixpoint before_arrow (s : string) : string :=
  match s with
  | EmptyString => EmptyString
  | String c s' =>
      match s' with
      | String c' _ =>
          if Ascii.eqb c "-" && Ascii.eqb c' ">" then EmptyString
          else String c (before_arrow s')
      | EmptyString => String c EmptyString
      end
  end.

Fixpoint after_arrow (s : string) : string :=
  match s with
  | EmptyString => EmptyString
  | String c s' =>
      match s' with
      | String c' r =>
          if Ascii.eqb c "-" && Ascii.eqb c' ">" then r else after_arrow s'
      | EmptyString => EmptyString
      end
  end.

Definition subscripts (s : string) : list (list nat) * list nat :=
  (split_commas (before_arrow s) [], concat (split_commas (after_arrow s) [])).

Definition einsum_str (s : string) (arrays : list ndarray) : result ndarray :=
  let subs := subscripts s in
  if (length (fst subs) =? length arrays)%nat
  then einsum (combine arrays (fst subs)) (snd subs)
  else Raise ValueError.

(** *** Vocabulary of the statements about [einsum] *)

(** The sum of [G] over all multi-indices below the bounds [ds], the
    last position running fastest. *)
Fixpoint sum_tuples (ds : list nat) (G : list nat -> C) : C :=
  match ds with
  | [] => G []
  | d :: ds' => sum_n d (fun v => sum_tuples ds' (fun vs => G (v :: vs)))
  end.

(** [idx] is a valid multi-index of an array of shape [sh]. *)
Definition below (idx sh : list nat) : Prop := Forall2 lt idx sh.

(** The entries at even and at odd positions. *)
Fixpoint evens (l : list nat) : list nat :=
  match l with
  | a :: _ :: r => a :: evens r
  | _ => []
  end.

Fixpoint odds (l : list nat) : list nat :=
  match l with
  | _ :: b :: r => b :: odds r
  | _ => []
  end.

(** Every axis of every operand has the length [D] gives its label. *)
Definition typed (D : nat -> nat) (ops : list operand) : Prop :=
  Forall (fun o => shape (fst o) = map D (snd o)) ops.

(** The product of the operands' items when no axis is broadcast. *)
Definition term (ops : list operand) (env : nat -> nat) : C :=
  Cprod (map (fun o => item (fst o) (map env (snd o))) ops).

(** *** Arrays written down in the sources *)

(** [np.array] of rows of scalars, [np.diag] of scalars, [np.eye] and
    [np.zeros]. *)
Definition array2 (rows : list (list C)) : ndarray :=
  {| shape := [length rows; length (hd [] rows)];
     item := fun idx =>
       match idx with
       | [i; j] => nth j (nth i rows []) C0
       | _ => C0
       end |}.

Definition diag (v : list C) : ndarray :=
  {| shape := [length v; length v];
     item := fun idx =>
       match idx with
       | [i; j] => if (i =? j)%nat then nth i v C0 else C0
       | _ => C0
       end |}.

Definition eye (n : nat) : ndarray :=
  {| shape := [n; n];
     item := fun idx =>
       match idx with
       | [i; j] => if (i =? j)%nat then C1 else C0
       | _ => C0
       end |}.

Definition zeros (sh : list nat) : ndarray :=
  {| shape := sh; item := fun _ => C0 |}.

(** A scalar times an array. *)
Definition scale (c : C) (a : ndarray) : ndarray :=
  {| shape := shape a; item := fun idx => (c * item a idx)%C |}.

(** The items of an array along its first axis (what iterating over it
    yields), and [np.array] of a list of arrays of one shape. *)
Definition subarrays (a : ndarray) : list ndarray :=
  map (fun x => {| shape := tl (shape a); item := fun idx => item a (x :: idx) |})
      (seq 0 (hd 0 (shape a))).

Definition stack (l : list ndarray) : ndarray :=
  {| shape := length l :: shape (hd (zeros []) l);
     item := fun idx =>
       match idx with
       | z :: rest => item (nth z l (zeros [])) rest
       | [] => C0
       end |}.

Fixpoint same_shape (s t : list nat) : bool :=
  match s, t with
  | [], [] => true
  | a :: s', b :: t' => (a =? b)%nat && same_shape s' t'
  | _, _ => false
  end.

End Np.
(** ** Kraus operators and Pauli transfer matrices
       ([qs2/operations/algebra.py]) *)

Module Algebra.

Import Np.
Local Open Scope py_scope.

(** Modelled from the spec: the class [Basis] of the [bases] module,
    which the algebra reads through three attributes.  [vectors] has
    shape [(dim_pauli, dim_hilbert, dim_hilbert)]: the basis operators,
    in order. *)
Record Basis : Type := {
  dim_hilbert : nat;
  dim_pauli : nat;
  vectors : ndarray
}.

(** [functools.reduce] without initial value. *)
Definition reduce {A : Type} (f : A -> A -> A) (l : list A) : result A :=
  match l with
  | [] => Raise TypeError
  | x :: rest => Ok (fold_left f rest x)
  end.

(** Python's [enumerate]. *)
Definition enumerate {A : Type} (l : list A) : list (nat * A) :=
  combine (seq 0 (length l)) l.

Definition bases_kron (bases : list Basis) : result ndarray :=
  reduce kron (map vectors bases).

Definition single_kraus_to_ptm (kraus : ndarray) (basis_in basis_out : Basis)
    : result ndarray :=
  r <- einsum_str "xab, zbc, ycd, zad -> xy"
         [vectors basis_out; kraus; vectors basis_in; conj kraus] ;;
  Ok (real r).

(** The list [einsum_args] that [kraus_to_ptm] builds: operands with
    their subscripts (the output subscripts are [einsum_out]). *)
Definition out_args (nq : nat) (bases_out : list Basis) : list operand :=
  map (fun ib => (vectors (snd ib),
                  [4 * nq + fst ib; 2 * fst ib; 2 * fst ib + 1]))
      (enumerate bases_out).

Definition in_args (nq : nat) (bases_in : list Basis) : list operand :=
  map (fun ib => (vectors (snd ib),
                  [5 * nq + fst ib; 2 * (fst ib + nq) + 1; 2 * (fst ib + nq)]))
      (enumerate bases_in).

Definition einsum_args (nq : nat) (kraus : ndarray)
    (bases_in bases_out : list Basis) : list operand :=
  out_args nq bases_out
  ++ [(kraus, 6 * nq :: map (fun i => 2 * i + 1) (seq 0 (2 * nq)))]
  ++ in_args nq bases_in
  ++ [(conj kraus, 6 * nq :: map (fun i => 2 * i) (seq 0 (2 * nq)))].

Definition einsum_out (nq : nat) : list nat :=
  map (fun i => 4 * nq + i) (seq 0 (2 * nq)).

Definition kraus_to_ptm (kraus : ndarray) (bases_in bases_out : list Basis)
    : result ndarray :=
  b0 <- match bases_in with
        | b :: _ => Ok b
        | [] => Raise IndexError
        end ;;
  let dim := dim_hilbert b0 in
  let nq := length bases_in in
  check (nq =? length bases_out) else_raise ValueError ;;
  z <- match shape kraus with
       | z :: _ => Ok z
       | [] => Raise IndexError
       end ;;
  kraus <- reshape kraus (z :: repeat dim (2 * nq)) ;;
  r <- einsum_list (einsum_args nq kraus bases_in bases_out) (einsum_out nq) ;;
  Ok (real r).

(** [np.prod] of a list of integers: an integer, except that the
    product of the empty list is the float [1.0] ([None] here). *)
Definition np_prod (l : list nat) : option nat :=
  match l with
  | [] => None
  | _ => Some (prod l)
  end.

(** [a.reshape((d0, d1))]: a float in the shape is TypeError. *)
Definition reshape2 (a : ndarray) (d0 d1 : option nat) : result ndarray :=
  match d0, d1 with
  | Some n0, Some n1 => reshape a [n0; n1]
  | _, _ => Raise TypeError
  end.

Definition ptm_convert_basis (ptm : ndarray)
    (bi_old bo_old bi_new bo_new : list Basis) : result ndarray :=
  let shape := map dim_pauli (rev bo_new ++ rev bi_new) in
  let d_in := np_prod (map dim_pauli bi_old) in
  let d_out := np_prod (map dim_pauli bo_old) in
  k_bo_new <- bases_kron bo_new ;;
  k_bo_old <- bases_kron bo_old ;;
  ptm2 <- reshape2 ptm d_out d_in ;;
  k_bi_old <- bases_kron bi_old ;;
  k_bi_new <- bases_kron bi_new ;;
  r <- einsum_str "xij, yji, yz, zkl, wlk -> xw"
         [k_bo_new; k_bo_old; ptm2; k_bi_old; k_bi_new] ;;
  reshape (real r) shape.

End Algebra.

(** ** Operators as matrices: the vocabulary of the statements *)

Module Linalg.

Import Np Algebra.

(** A square matrix of side [d] is read through its entries below [d]. *)
Definition Matrix : Type := nat -> nat -> C.

Definition Mmult (d : nat) (A B : Matrix) : Matrix :=
  fun i j => sum_n d (fun k => A i k * B k j)%C.

Definition Mtrace (d : nat) (A : Matrix) : C := sum_n d (fun i => A i i).

Definition adjoint (A : Matrix) : Matrix := fun i j => Cconj (A j i).

Definition Mid : Matrix := fun i j => if i =? j then C1 else C0.

Definition Mscale (c : C) (A : Matrix) : Matrix := fun i j => (c * A i j)%C.

(** Kronecker product with a right factor of side [m]. *)
Definition kronm (m : nat) (A B : Matrix) : Matrix :=
  fun i j => (A (i / m) (j / m) * B (i mod m) (j mod m))%C.

(** The [x]-th operator of a basis; the [z]-th operator of a Kraus
    stack of shape [(Z, D, D)]. *)
Definition element (b : Basis) (x : nat) : Matrix :=
  fun i j => item (vectors b) [x; i; j].

Definition kraus_op (kraus : ndarray) (z : nat) : Matrix :=
  fun i j => item kraus [z; i; j].

Definition hilbert_dim (bases : list Basis) : nat :=
  prod (map dim_hilbert bases).

(** The operator of the product basis at a multi-index:
    [B_1[x_1] (x) ... (x) B_n[x_n]], the first subsystem most
    significant. *)
Fixpoint element_n (bases : list Basis) (xs : list nat) : Matrix :=
  match bases, xs with
  | b :: bases', x :: xs' =>
      kronm (hilbert_dim bases') (element b x) (element_n bases' xs')
  | _, _ => fun _ _ => C1
  end.

(** [sum_z Tr (B_out[x] K_z B_in[y] K_z^dagger)]. *)
Definition ptm_entry (kraus : ndarray) (bases_in bases_out : list Basis)
    (x y : list nat) : C :=
  let D := hilbert_dim bases_in in
  sum_n (hd 0 (shape kraus))
    (fun z =>
       Mtrace D
         (Mmult D
            (Mmult D (Mmult D (element_n bases_out x) (kraus_op kraus z))
                     (element_n bases_in y))
            (adjoint (kraus_op kraus z)))).

(** The shape of [vectors]. *)
Definition wf_basis (b : Basis) : Prop :=
  shape (vectors b) = [dim_pauli b; dim_hilbert b; dim_hilbert b].

(** The invariants of a basis: Hermitian operators, orthonormal under
    the Hilbert-Schmidt inner product. *)
Definition hermitian (b : Basis) : Prop :=
  forall x i j,
    x < dim_pauli b -> i < dim_hilbert b -> j < dim_hilbert b ->
    element b x j i = Cconj (element b x i j).

Definition orthonormal (b : Basis) : Prop :=
  forall x y,
    x < dim_pauli b -> y < dim_pauli b ->
    Mtrace (dim_hilbert b) (Mmult (dim_hilbert b) (element b x) (element b y))
    = if x =? y then C1 else C0.

(** The first operator is the identity over the square root of the
    dimension. *)
Definition identity_first (b : Basis) : Prop :=
  0 < dim_pauli b
  /\ forall i j,
       i < dim_hilbert b -> j < dim_hilbert b ->
       element b 0 i j
       = if i =? j then RtoC (/ sqrt (INR (dim_hilbert b))) else C0.

(** [sum_z K_z^dagger K_z = 1]. *)
Definition trace_preserving (kraus : ndarray) (D : nat) : Prop :=
  forall i j,
    i < D -> j < D ->
    sum_n (hd 0 (shape kraus))
      (fun z => Mmult D (adjoint (kraus_op kraus z)) (kraus_op kraus z) i j)
    = Mid i j.

(** All bases of a list are well-formed and of Hilbert dimension [d]. *)
Definition uniform (d : nat) (bases : list Basis) : Prop :=
  Forall (fun b => wf_basis b /\ dim_hilbert b = d) bases.

(** *** Vocabulary of the proofs about the contractions *)

Definition nobasis : Basis :=
  {| dim_hilbert := 0; dim_pauli := 0;
     vectors := {| shape := []; item := fun _ => C0 |} |}.

(** The length of each label: [d] for the [4 n] Hilbert-space labels,
    the Pauli dimensions for the output labels, the number of Kraus
    operators for the last one. *)
Definition kp_dim (n d Z : nat) (bases_in bases_out : list Basis) (l : nat) : nat :=
  if l <? 4 * n then d
  else if l <? 5 * n then dim_pauli (nth (l - 4 * n) bases_out nobasis)
  else if l <? 6 * n then dim_pauli (nth (l - 5 * n) bases_in nobasis)
  else Z.

(** [prod_i B_i[x_i][a_i, b_i]] over the bases of a list. *)
Definition prod_elements (bases : list Basis) (xs a b : list nat) : C :=
  Cprod (map (fun ib => element (snd ib) (nth (fst ib) xs 0)
                          (nth (fst ib) a 0) (nth (fst ib) b 0))
             (enumerate bases)).

Definition summand (kraus : ndarray) (bases_in bases_out : list Basis)
    (x y a b c e : list nat) (z : nat) : C :=
  (prod_elements bases_out x a b
   * (item kraus (z :: b ++ c)
      * (prod_elements bases_in y c e
         * Cconj (item kraus (z :: a ++ e)))))%C.

(** The normalization of the identity, once per subsystem. *)
Definition norm_id (d n : nat) : C := Cprod (repeat (RtoC (/ sqrt (INR d))) n).

(** The lengths of the labels of the conversion: [i j k l] run over the
    Hilbert space, [w x y z] over the basis. *)
Definition convert_dim (d dp : nat) (l : nat) : nat :=
  if l <? 119 then d else dp.

(** [sum_z Tr (B_out[x] K_z B_in[y] K_z^dagger)] on one subsystem. *)
Definition ptm_entry1 (kraus : ndarray) (basis_in basis_out : Basis)
    (x y : nat) : C :=
  let d := dim_hilbert basis_in in
  sum_n (hd 0 (shape kraus))
    (fun z =>
       Mtrace d
         (Mmult d
            (Mmult d (Mmult d (element basis_out x) (kraus_op kraus z))
                     (element basis_in y))
            (adjoint (kraus_op kraus z)))).

Definition single_dim (d dpi dpo Z : nat) (l : nat) : nat :=
  if l <? 120 then d else if l =? 120 then dpo else if l =? 121 then dpi else Z.

(** *** Vocabulary of the statements about the library *)

(** A two-dimensional array as a matrix. *)
Definition mat (a : ndarray) : Matrix := fun i j => item a [i; j].

(** [U^dagger U = 1] for a [d x d] array. *)
Definition unitary (d : nat) (U : ndarray) : Prop :=
  shape U = [d; d]
  /\ forall i j, i < d -> j < d ->
       Mmult d (adjoint (mat U)) (mat U) i j = Mid i j.

(** [sum_z K_z^dagger K_z] of a Kraus stack. *)
Definition kraus_sum (kraus : ndarray) (D : nat) : Matrix :=
  fun i j =>
    sum_n (hd 0 (shape kraus))
      (fun z => Mmult D (adjoint (kraus_op kraus z)) (kraus_op kraus z) i j).

(** [sum_z K_z K_z^dagger = 1]. *)
Definition unital (kraus : ndarray) (D : nat) : Prop :=
  forall i j,
    i < D -> j < D ->
    sum_n (hd 0 (shape kraus))
      (fun z => Mmult D (kraus_op kraus z) (adjoint (kraus_op kraus z)) i j)
    = Mid i j.

(** [sum_z Tr (A K_z B K_z^dagger)], and its summand at the indices
    [(a, e, b, c, z)] when the traces and products are written out. *)
Definition channel (Z D : nat) (K : nat -> Matrix) (A B : Matrix) : C :=
  sum_n Z (fun z =>
    Mtrace D (Mmult D (Mmult D (Mmult D A (K z)) B) (adjoint (K z)))).

Definition channel_term (K : nat -> Matrix) (A B : Matrix) (vs : list nat) : C :=
  match vs with
  | [a; e; b; c; z] => (A a b * (K z b c * (B c e * Cconj (K z a e))))%C
  | _ => C0
  end.

(** The lengths of the labels of the conversion between different
    bases: [i j k l] run over the Hilbert space, [w x y z] over the
    four bases. *)
Definition change_dim (d pw px py pz : nat) (l : nat) : nat :=
  if l <? 119 then d
  else if l =? 119 then pw
  else if l =? 120 then px
  else if l =? 121 then py
  else pz.

(** Every new operator is the combination of the old ones that its
    Hilbert-Schmidt products with them give. *)
Definition expands (old new : Basis) : Prop :=
  forall w i j,
    w < dim_pauli new -> i < dim_hilbert old -> j < dim_hilbert old ->
    element new w i j
    = sum_n (dim_pauli old)
        (fun z =>
           Mtrace (dim_hilbert old)
             (Mmult (dim_hilbert old) (element old z) (element new w))
           * element old z i j)%C.

End Linalg.

(** ** The qubit operation library ([quantumsim/operations/qubits.py]) *)

Module Qubits.

Import Np Algebra.
Local Open Scope R_scope.

(** A stack of [2 x 2] matrices given by rows. *)
Definition stack2 (ms : list (list (list C))) : ndarray :=
  {| shape := [length ms; 2; 2]%nat;
     item := fun idx =>
       match idx with
       | [z; i; j] => nth j (nth i (nth z ms []) []) C0
       | _ => C0
       end |}.

(** Modelled from the spec: [bases.gell_mann(2)], the Gell-Mann basis of
    a qubit: the identity and the Pauli matrices X, Y, Z (the order of
    [_PAULI]), each normalized to unit Hilbert-Schmidt norm, so that the
    first element is the normalized identity. *)
Definition gell_mann_2 : Basis :=
  let c := RtoC (/ sqrt 2) in
  let ci := mkC 0 (/ sqrt 2) in
  {| dim_hilbert := 2; dim_pauli := 4;
     vectors := stack2 [ [[c; C0]; [C0; c]];
                         [[C0; c]; [c; C0]];
                         [[C0; Copp ci]; [ci; C0]];
                         [[c; C0]; [C0; Copp c]] ] |}.

(** The Kraus stack that [amp_damping(total_rate)] hands to
    [Operation.from_kraus]. *)
Definition amp_damping_kraus (total_rate : R) : ndarray :=
  stack2 [ [[C1; C0]; [C0; RtoC (sqrt (1 - total_rate))]];
           [[C0; RtoC (sqrt total_rate)]; [C0; C0]] ].

(** The matrix that [amp_damping(exc_rate=..., damp_rate=...)] hands to
    [Operation.from_ptm], in the Gell-Mann basis. *)
Definition amp_damping_ptm (exc_rate damp_rate : R) : list (list R) :=
  let comb_rate := exc_rate + damp_rate in
  [ [1; 0; 0; 0];
    [0; sqrt (1 - comb_rate); 0; 0];
    [0; 0; sqrt (1 - comb_rate); 0];
    [2 * damp_rate - comb_rate; 0; 0; 1 - comb_rate] ].

(** *** Inputs and values of the statements *)

(** The matrix of the claim. *)
Definition damping_half : list (list R) :=
  [ [1; 0; 0; 0];
    [0; sqrt (1 / 2); 0; 0];
    [0; 0; sqrt (1 / 2); 0];
    [1 / 2; 0; 0; 1 / 2] ].

Definition entry (m : list (list R)) (x y : nat) : R := nth y (nth x m []) 0.

(** The computational subbasis of a [d]-level system: the projectors
    [|x><x|]. *)
Definition computational (d : nat) : Basis :=
  {| dim_hilbert := d; dim_pauli := d;
     vectors :=
       {| shape := [d; d; d];
          item := fun idx =>
            match idx with
            | [x; i; j] => if ((x =? i) && (i =? j))%nat then C1 else C0
            | _ => C0
            end |} |}.


(** The identity on a [D]-dimensional space, as a stack of one Kraus
    operator. *)
Definition identity_kraus (D : nat) : ndarray :=
  {| shape := [1; D; D]%nat;
     item := fun idx =>
       match idx with
       | [_; i; j] => if (i =? j)%nat then C1 else C0
       | _ => C0
       end |}.

(** *** The library of gates and channels

    The classes of the modules [bases] and [operation] are outside
    these sources.  A basis is recorded as the call that makes it, an
    [Operation] as the constructor call that the function returns, with
    the arrays it is given. *)

Inductive basis_ref : Type :=
| general (dim : nat)
| gell_mann (dim : nat).

#[warnings="-register-all"]
Inductive Operation : Type :=
| from_kraus (kraus : ndarray) (bases : list basis_ref)
| from_ptm (ptm : ndarray) (bases : list basis_ref)
| at_ (op : Operation) (index : nat)
| from_sequence (ops : list Operation).

Definition bases1_default : list basis_ref := [general 2].
Definition bases2_default : list basis_ref := bases1_default ++ bases1_default.

(** [np.exp(1j * t)] for a real [t]. *)
Definition exp_i (t : R) : C := mkC (cos t) (sin t).

Definition rotate_euler_matrix (phi theta lamda : R) : ndarray :=
  let exp_phi := exp_i phi in
  let exp_lambda := exp_i lamda in
  let sin_theta := RtoC (sin (theta / 2)) in
  let cos_theta := RtoC (cos (theta / 2)) in
  array2 [ [cos_theta; (- Ci * exp_lambda * sin_theta)%C];
           [(- Ci * exp_phi * sin_theta)%C; (exp_phi * exp_lambda * cos_theta)%C] ].

Definition rotate_euler (phi theta lamda : R) : Operation :=
  from_kraus (rotate_euler_matrix phi theta lamda) bases1_default.

Definition rotate_x_matrix (angle : R) : ndarray :=
  let sin := RtoC (sin (angle / 2)) in
  let cos := RtoC (cos (angle / 2)) in
  array2 [ [cos; (- Ci * sin)%C]; [(- Ci * sin)%C; cos] ].

Definition rotate_x (angle : R) : Operation :=
  from_kraus (rotate_x_matrix angle) bases1_default.

Definition rotate_y_matrix (angle : R) : ndarray :=
  let sin := RtoC (sin (angle / 2)) in
  let cos := RtoC (cos (angle / 2)) in
  array2 [ [cos; (- sin)%C]; [sin; cos] ].

Definition rotate_y (angle : R) : Operation :=
  from_kraus (rotate_y_matrix angle) bases1_default.

(** [exp = np.exp(-1j * angle / 2)]. *)
Definition rotate_z_matrix (angle : R) : ndarray :=
  let exp := exp_i (- angle / 2) in
  diag [exp; Cconj exp].

Definition rotate_z (angle : R) : Operation :=
  from_kraus (rotate_z_matrix angle) bases1_default.

Definition phase_shift_matrix (angle : R) : ndarray :=
  diag [C1; exp_i angle].

Definition phase_shift (angle : R) : Operation :=
  from_kraus (phase_shift_matrix angle) bases1_default.

Definition hadamard_matrix : ndarray :=
  scale (RtoC (sqrt (1 / 2))) (array2 [ [C1; C1]; [C1; (- C1)%C] ]).

Definition hadamard : Operation := from_kraus hadamard_matrix bases1_default.

Definition cphase_matrix (angle : R) : ndarray :=
  diag [C1; C1; C1; exp_i angle].

Definition cphase (angle : R) : Operation :=
  from_kraus (cphase_matrix angle) bases2_default.

Definition iswap_matrix (angle : R) : ndarray :=
  let sin := RtoC (sin angle) in
  let cos := RtoC (cos angle) in
  array2 [ [C1; C0; C0; C0];
           [C0; cos; (Ci * sin)%C; C0];
           [C0; (Ci * sin)%C; cos; C0];
           [C0; C0; C0; C1] ].

Definition iswap (angle : R) : Operation :=
  from_kraus (iswap_matrix angle) bases2_default.

Definition cnot_matrix : ndarray :=
  array2 [ [C1; C0; C0; C0];
           [C0; C1; C0; C0];
           [C0; C0; C0; C1];
           [C0; C0; C1; C0] ].

Definition cnot : Operation := from_kraus cnot_matrix bases2_default.

Section Blocks.

(** What [np.array] makes of nested arrays of different shapes (it
    depends on the version of numpy). *)
Variable array_ragged : list (list ndarray) -> result ndarray.

(** [np.array([[a, b], [c, d]])] of four arrays: arrays of one shape
    are stacked along two new leading axes. *)
Definition array_blocks (a b c d : ndarray) : result ndarray :=
  if same_shape (shape a) (shape b) && same_shape (shape a) (shape c)
     && same_shape (shape a) (shape d)
  then Ok {| shape := 2 :: 2 :: shape a;
             item := fun idx =>
               match idx with
               | 0 :: 0 :: rest => item a rest
               | 0 :: 1 :: rest => item b rest
               | 1 :: 0 :: rest => item c rest
               | 1 :: 1 :: rest => item d rest
               | _ => C0
               end |}%nat
  else array_ragged [[a; b]; [c; d]].

Definition controlled_unitary (unitary : ndarray) : result Operation :=
  (dim_hilbert <- match shape unitary with
                  | d :: _ => Ok d
                  | [] => Raise IndexError
                  end ;;
   check (same_shape (shape unitary) [dim_hilbert; dim_hilbert])
     else_raise ValueError ;;
   let control_block := eye 2 in
   let off_diag_block_0 := zeros [2; dim_hilbert]%nat in
   let off_diag_block_1 := zeros [dim_hilbert; 2]%nat in
   matrix <- array_blocks control_block off_diag_block_0
               off_diag_block_1 unitary ;;
   Ok (from_kraus matrix bases2_default))%py.

Definition controlled_rotation (angle : R) (axis : string) : result Operation :=
  (matrix <-
     (if (axis =? "x")%string then
        let sin := RtoC (sin (angle / 2)) in
        let cos := RtoC (cos (angle / 2)) in
        Ok (array2 [ [cos; (- Ci * sin)%C]; [(- Ci * sin)%C; cos] ])
      else if (axis =? "y")%string then
        let sin := RtoC (sin (angle / 2)) in
        let cos := RtoC (cos (angle / 2)) in
        Ok (array2 [ [cos; (- sin)%C]; [sin; cos] ])
      else if (axis =? "z")%string then
        let exp := exp_i (- angle / 2) in
        Ok (array2 [ [exp; C0]; [C0; Cconj exp] ])
      else Raise ValueError) ;;
   controlled_unitary matrix)%py.

End Blocks.

(** [amp_damping(total_rate=None, *, exc_rate=None, damp_rate=None)]:
    an argument left out, or given as [None], is [None]. *)
Definition amp_damping (total_rate exc_rate damp_rate : option R)
    : result Operation :=
  match total_rate with
  | Some p => Ok (from_kraus (amp_damping_kraus p) bases1_default)
  | None =>
      match exc_rate, damp_rate with
      | Some e, Some d =>
          Ok (from_ptm (array2 (map (map RtoC) (amp_damping_ptm e d)))
                [gell_mann 2])
      | _, _ => Raise ValueError
      end
  end.

Definition phase_damping_kraus (total_rate : R) : ndarray :=
  stack2 [ [[C1; C0]; [C0; RtoC (sqrt (1 - total_rate))]];
           [[C0; C0]; [C0; RtoC (sqrt total_rate)]] ].

Definition phase_damping (total_rate x_deph_rate y_deph_rate z_deph_rate : option R)
    : result Operation :=
  match total_rate with
  | Some p => Ok (from_kraus (phase_damping_kraus p) bases1_default)
  | None =>
      match x_deph_rate, y_deph_rate, z_deph_rate with
      | Some x, Some y, Some z =>
          Ok (from_ptm (diag [C1; RtoC (1 - x); RtoC (1 - y); RtoC (1 - z)])
                [gell_mann 2])
      | _, _, _ => Raise ValueError
      end
  end.

Definition amp_phase_damping (damp_rate deph_rate : option R) : result Operation :=
  (amp_damp <- amp_damping damp_rate None None ;;
   phase_damp <- phase_damping deph_rate None None None ;;
   Ok (from_sequence [at_ amp_damp 0; at_ phase_damp 0]))%py.

Section Pauli.

(** The value of [bases.gell_mann(2)] when the module is loaded; its
    [vectors] have at least one axis. *)
Variable gm : Basis.

(** [dict(zip(['I', 'X', 'Y', 'Z'], bases.gell_mann(2).vectors))]. *)
Definition _PAULI : list (string * ndarray) :=
  combine ["I"; "X"; "Y"; "Z"]%string (subarrays (vectors gm)).

(** [d[key]]; [None] stands for the KeyError of a missing key. *)
Fixpoint getitem (d : list (string * ndarray)) (key : string) : option ndarray :=
  match d with
  | [] => None
  | (k, v) :: rest => if (k =? key)%string then Some v else getitem rest key
  end.

(** [np.array([sqrt(flip_rate) * _PAULI["I"],
               sqrt(1 - flip_rate) * _PAULI[name]])]. *)
Definition flipping (name : string) (flip_rate : R) : option Operation :=
  match getitem _PAULI "I", getitem _PAULI name with
  | Some pi, Some px =>
      Some (from_kraus
              (stack [scale (RtoC (sqrt flip_rate)) pi;
                      scale (RtoC (sqrt (1 - flip_rate))) px])
              bases1_default)
  | _, _ => None
  end.

Definition bit_flipping (flip_rate : R) : option Operation := flipping "X" flip_rate.
Definition phase_flipping (flip_rate : R) : option Operation := flipping "Z" flip_rate.
Definition bit_phase_flipping (flip_rate : R) : option Operation := flipping "Y" flip_rate.

Definition depolarization (rate : R) : option Operation :=
  let rate := rate / 2 in
  let sqrt_ := sqrt rate in
  match getitem _PAULI "I", getitem _PAULI "X",
        getitem _PAULI "Y", getitem _PAULI "Z" with
  | Some pi, Some px, Some py, Some pz =>
      Some (from_kraus
              (stack [scale (RtoC (sqrt (2 - 3 * rate))) pi;
                      scale (RtoC sqrt_) px;
                      scale (RtoC sqrt_) py;
                      scale (RtoC sqrt_) pz])
              bases1_default)
  | _, _, _, _ => None
  end.

End Pauli.

(** The Kraus stack of an operation made by [from_kraus]. *)
Definition kraus_of (op : Operation) : ndarray :=
  match op with
  | from_kraus k _ => k
  | _ => zeros []
  end.

End Qubits.
(** ** The dense density-matrix backend ([quantumsim/dm10.py]) *)

Module Dm10.

Import stdpp.base stdpp.gmap.
Local Open Scope Z_scope.
Local Open Scope py_scope.

(** Device memory holds binary64 values. *)
Definition float64 : Type := PrimFloat.float.
Definition f0 : float64 := PrimFloat.zero.
Definition f1 : float64 := PrimFloat.one.

Inductive dtype : Type := Float64 | Float32 | Complex128 | Int64.

Definition dtype_eqb (a b : dtype) : bool :=
  match a, b with
  | Float64, Float64 | Float32, Float32
  | Complex128, Complex128 | Int64, Int64 => true
  | _, _ => false
  end.

(** A host [numpy.ndarray] as this module uses it: its shape, its dtype
    and the bytes [tobytes()] returns. *)
Record ndarray : Type := {
  shape : list Z;
  dtype_of : dtype;
  tobytes : list Byte.byte
}.

(** A [pycuda.gpuarray.GPUArray]: a dtype and a device buffer. *)
Record GPUArray : Type := {
  ga_dtype : dtype;
  gpudata : list float64
}.

Definition size (a : GPUArray) : Z := Z.of_nat (length (gpudata a)).

(** CUDA launch geometry. *)
Definition dim3 : Type := (Z * Z * Z)%type.

(** A complex128 value: real and imaginary part. *)
Definition complex128 : Type := (float64 * float64)%type.

(** What the module takes from outside the Python source: the contents
    of freshly allocated device memory, Python's [hash] of a bytes
    object, the items of a host array converted to complex128 (in C
    order), and the kernels of [primitives.cu].  A kernel rewrites a
    buffer in place: it gives the new value at every index of the
    buffer from the old contents and its arguments.  [_pauli_reshuffle]
    gets a complex and a real buffer and a direction: 0 fills the real
    buffer from the complex one, 1 the complex buffer from the real
    one. *)
Record device : Type := {
  uninit : nat -> float64;
  hash : list Byte.byte -> Z;
  astype_complex128 : ndarray -> nat -> complex128;
  _two_qubit_ptm : dim3 -> dim3 -> list float64 -> ndarray -> Z -> Z -> Z -> nat -> float64;
  _single_qubit_ptm : dim3 -> dim3 -> list float64 -> ndarray -> Z -> Z -> nat -> float64;
  _get_diag : dim3 -> dim3 -> list float64 -> list float64 -> Z -> nat -> float64;
  _trace : dim3 -> dim3 -> list float64 -> Z -> nat -> float64;
  _swap : dim3 -> dim3 -> list float64 -> Z -> Z -> Z -> nat -> float64;
  _bit_to_pauli_basis : dim3 -> dim3 -> list complex128 -> Z -> Z -> nat -> complex128;
  _pauli_reshuffle : dim3 -> dim3 -> list complex128 -> list float64 -> Z -> Z ->
                     (nat -> complex128) * (nat -> float64)
}.

(** [prepared_call] on a buffer of fixed size. *)
Definition launch {A : Type} (k : nat -> A) (buf : list A) : list A :=
  map k (seq 0 (length buf)).

(** [for i in range(no_qubits): _bit_to_pauli_basis(grid, block,
    complex_dm, 1 << i, no_qubits)]. *)
Definition bit_to_pauli_basis_loop (dev : device) (grid block : dim3)
    (complex_dm : list complex128) (no_qubits : Z) : list complex128 :=
  fold_left
    (fun dm i =>
       launch (_bit_to_pauli_basis dev grid block dm (Z.shiftl 1 (Z.of_nat i)) no_qubits)
              dm)
    (seq 0 (Z.to_nat no_qubits)) complex_dm.

(** [ga.empty], [ga.zeros]. *)
Definition ga_empty (dev : device) (n : Z) : GPUArray :=
  {| ga_dtype := Float64; gpudata := map (uninit dev) (seq 0 (Z.to_nat n)) |}.

Definition ga_zeros (n : Z) : GPUArray :=
  {| ga_dtype := Float64; gpudata := repeat f0 (Z.to_nat n) |}.

(** Byte-addressed device copies.  Offsets and sizes are in bytes as in
    the source; an access outside the allocation (or one that splits an
    8-byte value) is a CUDA error. *)
Definition in_bounds (len : nat) (off nbytes : Z) : bool :=
  (0 <=? off) && (0 <=? nbytes) && (off + nbytes <=? 8 * Z.of_nat len)
  && (off mod 8 =? 0) && (nbytes mod 8 =? 0).

Definition elems (nbytes : Z) : nat := Z.to_nat (nbytes / 8).

Definition memcpy_dtod (dst : list float64) (dst_off : Z)
    (src : list float64) (src_off : Z) (nbytes : Z) : result (list float64) :=
  if in_bounds (length dst) dst_off nbytes && in_bounds (length src) src_off nbytes
  then Ok (firstn (elems dst_off) dst
           ++ firstn (elems nbytes) (skipn (elems src_off) src)
           ++ skipn (elems dst_off + elems nbytes) dst)
  else Raise CudaError.

(** [memset_d8(ptr, 0, nbytes)]: the only value this module writes is 0. *)
Definition memset_d8 (dst : list float64) (dst_off : Z) (nbytes : Z)
    : result (list float64) :=
  if in_bounds (length dst) dst_off nbytes
  then Ok (firstn (elems dst_off) dst
           ++ repeat f0 (elems nbytes)
           ++ skipn (elems dst_off + elems nbytes) dst)
  else Raise CudaError.

(** *** class Density *)

Record Density : Type := {
  allocated_qubits : Z;
  allocated_diag : Z;
  no_qubits : Z;
  _size : Z;
  _blocksize : Z;
  _gridsize : Z;
  data : GPUArray;
  diag_work : option GPUArray
}.

(** The class attribute [_ptm_cache], shared by all instances. *)
Abbreviation ptm_cache := (gmap Z ndarray).

(** The [data] argument of the constructor, by the [isinstance] tests. *)
Inductive data_arg : Type :=
| DataNone
| DataNdarray (a : ndarray)
| DataGPUArray (a : GPUArray)
| DataOther.

(** [1 << k]: Python raises ValueError on a negative shift count. *)
Definition shl1 (k : Z) : result Z :=
  if k <? 0 then Raise ValueError else Ok (Z.shiftl 1 k).

Definition _set_no_qubits (self : Density) (n : Z) : result Density :=
  let alloc := Z.max (allocated_qubits self) n in
  sz <- shl1 (2 * n) ;;
  Ok {| allocated_qubits := alloc;
        allocated_diag := allocated_diag self;
        no_qubits := n;
        _size := sz;
        _blocksize := 2 ^ 8;
        _gridsize := 2 ^ Z.max 0 (2 * n - 8);
        data := data self;
        diag_work := diag_work self |}.

Definition set_data (self : Density) (d : GPUArray) : Density :=
  {| allocated_qubits := allocated_qubits self;
     allocated_diag := allocated_diag self;
     no_qubits := no_qubits self;
     _size := _size self;
     _blocksize := _blocksize self;
     _gridsize := _gridsize self;
     data := d;
     diag_work := diag_work self |}.

Definition set_buf (self : Density) (b : list float64) : Density :=
  set_data self {| ga_dtype := ga_dtype (data self); gpudata := b |}.

(** The first lines of [trace], [get_diag] and [partial_trace]:
    [if self.allocated_diag < self.no_qubits:] allocate [diag_work] and
    assign [self.allocated_qubits = self.no_qubits]. *)
Definition alloc_diag (dev : device) (self : Density) : Density :=
  if allocated_diag self <? no_qubits self then
    {| allocated_qubits := no_qubits self;
       allocated_diag := allocated_diag self;
       no_qubits := no_qubits self;
       _size := _size self;
       _blocksize := _blocksize self;
       _gridsize := _gridsize self;
       data := data self;
       diag_work := Some (ga_empty dev (Z.shiftl 1 (no_qubits self))) |}
  else self.

Definition set_diag (self : Density) (b : list float64) : Density :=
  {| allocated_qubits := allocated_qubits self;
     allocated_diag := allocated_diag self;
     no_qubits := no_qubits self;
     _size := _size self;
     _blocksize := _blocksize self;
     _gridsize := _gridsize self;
     data := data self;
     diag_work := Some {| ga_dtype := Float64; gpudata := b |} |}.

Definition diag_buf (self : Density) : list float64 :=
  match diag_work self with
  | Some g => gpudata g
  | None => []
  end.

Fixpoint shape_eqb (a b : list Z) : bool :=
  match a, b with
  | [], [] => true
  | x :: a', y :: b' => (x =? y) && shape_eqb a' b'
  | _, _ => false
  end.

Definition __init__ (dev : device) (n : Z) (arg : data_arg) : result Density :=
  let self0 := {| allocated_qubits := 0; allocated_diag := -1; no_qubits := 0;
                  _size := 0; _blocksize := 0; _gridsize := 0;
                  data := ga_zeros 0; diag_work := None |} in
  self <- _set_no_qubits self0 n ;;
  check (negb (15 <? n)) else_raise ValueError ;;
  match arg with
  | DataNdarray a =>
      check (shape_eqb (shape a) [Z.shiftl 1 n; Z.shiftl 1 n]) else_raise ValueError ;;
      let block_size := 2 ^ 4 in
      let grid_size := 2 ^ Z.max (n - 4) 0 in
      let grid := (grid_size, grid_size, 1) in
      let block := (block_size, block_size, 1) in
      (* data.astype(np.complex128), copied to the device *)
      let complex_dm :=
        map (astype_complex128 dev a)
            (seq 0 (Z.to_nat (Z.shiftl 1 n * Z.shiftl 1 n))) in
      let complex_dm :=
        bit_to_pauli_basis_loop dev grid block complex_dm (no_qubits self) in
      let d := ga_empty dev (_size self) in
      Ok (set_data self
            {| ga_dtype := Float64;
               gpudata :=
                 launch (snd (_pauli_reshuffle dev grid block complex_dm (gpudata d)
                                (no_qubits self) 0))
                        (gpudata d) |})
  | DataGPUArray g =>
      check (size g =? _size self) else_raise ValueError ;;
      check (dtype_eqb (ga_dtype g) Float64) else_raise ValueError ;;
      Ok (set_data self g)
  | DataNone =>
      (* d = np.zeros(size); d[0] = 1 *)
      Ok (set_data self
            {| ga_dtype := Float64;
               gpudata := f1 :: repeat f0 (Z.to_nat (_size self) - 1) |})
  | DataOther => Raise ValueError
  end.

Definition _validate_bit (self : Density) (number : Z) : result unit :=
  if (number <? 0) || (no_qubits self <=? number) then Raise ValueError else Ok tt.

Definition _validate_ptm (ptm : ndarray) (target_shape : list Z) : result unit :=
  check (shape_eqb (shape ptm) target_shape) else_raise ValueError ;;
  check (dtype_eqb (dtype_of ptm) Float64) else_raise ValueError ;;
  Ok tt.

(** [try: ptm_gpu = cache[key]  except KeyError: validate; upload]. *)
Definition cached_ptm (dev : device) (cache : ptm_cache) (ptm : ndarray)
    (target_shape : list Z) : result (ptm_cache * ndarray) :=
  let key := hash dev (tobytes ptm) in
  match cache !! key with
  | Some ptm_gpu => Ok (cache, ptm_gpu)
  | None =>
      _ <- _validate_ptm ptm target_shape ;;
      Ok (<[key := ptm]> cache, ptm)
  end.

Definition apply_two_ptm (dev : device) (cache : ptm_cache) (self : Density)
    (bit0 bit1 : Z) (ptm : ndarray) : result (ptm_cache * Density) :=
  _ <- _validate_bit self bit0 ;;
  _ <- _validate_bit self bit1 ;;
  cp <- cached_ptm dev cache ptm [16; 16] ;;
  let block := (_blocksize self, 1, 1) in
  let grid := (_gridsize self, 1, 1) in
  Ok (fst cp,
      set_buf self
        (launch (_two_qubit_ptm dev grid block (gpudata (data self)) (snd cp)
                   bit0 bit1 (no_qubits self))
                (gpudata (data self)))).

Definition apply_ptm (dev : device) (cache : ptm_cache) (self : Density)
    (bit : Z) (ptm : ndarray) : result (ptm_cache * Density) :=
  _ <- _validate_bit self bit ;;
  cp <- cached_ptm dev cache ptm [4; 4] ;;
  let block := (_blocksize self, 1, 1) in
  let grid := (_gridsize self, 1, 1) in
  Ok (fst cp,
      set_buf self
        (launch (_single_qubit_ptm dev grid block (gpudata (data self)) (snd cp)
                   bit (no_qubits self))
                (gpudata (data self)))).

Definition trace (dev : device) (self : Density) : result (Density * float64) :=
  check (negb (10 <? no_qubits self)) else_raise NotImplementedError ;;
  let self := alloc_diag dev self in
  let block := (2 ^ no_qubits self, 1, 1) in
  let grid := (1, 1, 1) in
  let dw := launch (_get_diag dev grid block (gpudata (data self)) (diag_buf self)
                      (no_qubits self)) (diag_buf self) in
  let dw := launch (_trace dev grid block dw (-1)) dw in
  Ok (set_diag self dw, nth 0 dw f0).

(** [self.data *= np.float(1 / tr)], in binary64. *)
Definition renormalize (dev : device) (self : Density) : result Density :=
  r <- trace dev self ;;
  let tr := snd r in
  Ok (set_buf (fst r)
        (map (fun x => PrimFloat.mul x (PrimFloat.div f1 tr))
             (gpudata (data (fst r))))).

Definition get_diag (dev : device) (self : Density) : Density * list float64 :=
  let self := alloc_diag dev self in
  let block := (2 ^ 8, 1, 1) in
  let grid := (2 ^ Z.max 0 (no_qubits self - 8), 1, 1) in
  let dw := launch (_get_diag dev grid block (gpudata (data self)) (diag_buf self)
                      (no_qubits self)) (diag_buf self) in
  (set_diag self dw, dw).

Definition partial_trace (dev : device) (self : Density) (bit : Z)
    : result (Density * (float64 * float64)) :=
  _ <- _validate_bit self bit ;;
  check (negb (10 <? no_qubits self)) else_raise NotImplementedError ;;
  let self := alloc_diag dev self in
  let block := (2 ^ no_qubits self, 1, 1) in
  let grid := (1, 1, 1) in
  let dw := launch (_get_diag dev grid block (gpudata (data self)) (diag_buf self)
                      (no_qubits self)) (diag_buf self) in
  let dw := launch (_trace dev grid block dw bit) dw in
  (* tr1, tr0 = self.diag_work[:2].get(); return tr0, tr1 *)
  Ok (set_diag self dw, (nth 1 dw f0, nth 0 dw f0)).

Definition copy (dev : device) (self : Density) : result Density :=
  let data_cp := {| ga_dtype := ga_dtype (data self); gpudata := gpudata (data self) |} in
  __init__ dev (no_qubits self) (DataGPUArray data_cp).

(** [to_array] returns the dense matrix as a flat list of complex128. *)
Definition to_array (dev : device) (self : Density) : list complex128 :=
  let side := Z.shiftl 1 (no_qubits self) in
  let complex_dm := repeat (f0, f0) (Z.to_nat (side * side)) in
  let block_size := 2 ^ 4 in
  let grid_size := 2 ^ Z.max (no_qubits self - 4) 0 in
  let grid := (grid_size, grid_size, 1) in
  let block := (block_size, block_size, 1) in
  let complex_dm :=
    launch (fst (_pauli_reshuffle dev grid block complex_dm (gpudata (data self))
                   (no_qubits self) 1))
           complex_dm in
  bit_to_pauli_basis_loop dev grid block complex_dm (no_qubits self).

Definition add_ancilla (self : Density) (anc_st : Z) : result Density :=
  let byte_size_of_smaller_dm := 2 ^ (2 * no_qubits self) * 8 in
  self' <-
    (if allocated_qubits self =? no_qubits self then
       (* allocate larger memory *)
       let new_dm := ga_zeros (_size self * 4) in
       let offset := anc_st * 3 * byte_size_of_smaller_dm in
       b <- memcpy_dtod (gpudata new_dm) offset (gpudata (data self)) 0
              byte_size_of_smaller_dm ;;
       Ok (set_data self {| ga_dtype := Float64; gpudata := b |})
     else
       (* reuse previously allocated memory *)
       s1 <- (if anc_st =? 0 then
                b <- memset_d8 (gpudata (data self)) byte_size_of_smaller_dm
                       (3 * byte_size_of_smaller_dm) ;;
                Ok (set_buf self b)
              else Ok self) ;;
       (if anc_st =? 1 then
          b <- memcpy_dtod (gpudata (data s1)) (3 * byte_size_of_smaller_dm)
                 (gpudata (data s1)) 0 byte_size_of_smaller_dm ;;
          b' <- memset_d8 b 0 (3 * byte_size_of_smaller_dm) ;;
          Ok (set_buf s1 b')
        else Ok s1)) ;;
  _set_no_qubits self' (no_qubits self' + 1).

Definition project_measurement (dev : device) (self : Density) (bit state : Z)
    : result Density :=
  _ <- _validate_bit self bit ;;
  let block := (_blocksize self, 1, 1) in
  let grid := (_gridsize self, 1, 1) in
  let s1 :=
    if negb (bit =? no_qubits self - 1) then
      set_buf self
        (launch (_swap dev grid block (gpudata (data self)) bit
                   (no_qubits self - 1) (no_qubits self))
                (gpudata (data self)))
    else self in
  s2 <- (if state =? 1 then
           let byte_size_of_smaller_dm := 2 ^ (2 * no_qubits s1 - 2) * 8 in
           b <- memcpy_dtod (gpudata (data s1)) 0 (gpudata (data s1))
                  (3 * byte_size_of_smaller_dm) byte_size_of_smaller_dm ;;
           Ok (set_buf s1 b)
         else Ok s1) ;;
  _set_no_qubits s2 (no_qubits s2 - 1).

(** *** Sequences of method calls on one object

    The caller owns the object and the class-level cache.  A call that
    raises leaves both as they were: on the states an object can be
    in, every [raise] of the methods precedes their first assignment. *)

Inductive op : Type :=
| ApplyPtm (bit : Z) (ptm : ndarray)
| ApplyTwoPtm (bit0 bit1 : Z) (ptm : ndarray)
| AddAncilla (anc_st : Z)
| ProjectMeasurement (bit state : Z)
| Trace
| Renormalize
| PartialTrace (bit : Z)
| GetDiag.

Definition world : Type := (ptm_cache * Density)%type.

Definition call (dev : device) (w : world) (o : op) : result world :=
  match o with
  | ApplyPtm bit ptm => apply_ptm dev (fst w) (snd w) bit ptm
  | ApplyTwoPtm bit0 bit1 ptm => apply_two_ptm dev (fst w) (snd w) bit0 bit1 ptm
  | AddAncilla anc_st => s <- add_ancilla (snd w) anc_st ;; Ok (fst w, s)
  | ProjectMeasurement bit state =>
      s <- project_measurement dev (snd w) bit state ;; Ok (fst w, s)
  | Trace => r <- trace dev (snd w) ;; Ok (fst w, fst r)
  | Renormalize => s <- renormalize dev (snd w) ;; Ok (fst w, s)
  | PartialTrace bit => r <- partial_trace dev (snd w) bit ;; Ok (fst w, fst r)
  | GetDiag => Ok (fst w, fst (get_diag dev (snd w)))
  end.

Definition step (dev : device) (w : world) (o : op) : world :=
  match call dev w o with
  | Ok w' => w'
  | Raise _ => w
  end.

(** The states an object goes through, oldest first. *)
Fixpoint history (dev : device) (w : world) (ops : list op) : list world :=
  w :: match ops with
       | [] => []
       | o :: rest => history dev (step dev w o) rest
       end.

Definition final (dev : device) (w : world) (ops : list op) : world :=
  fold_left (step dev) ops w.

(** The largest [no_qubits] an object has had. *)
Definition high_water (h : list world) : Z :=
  fold_right Z.max 0 (map (fun w => no_qubits (snd w)) h).

(** *** Vocabulary and inputs of the statements *)

Definition wf (s : Density) : Prop :=
  0 <= no_qubits s <= allocated_qubits s
  /\ _size s = 4 ^ no_qubits s
  /\ 4 ^ allocated_qubits s <= size (data s).

(** The states of a [Density]: what the constructor returns, and what a
    method call makes of a state, whatever the shared cache holds at
    that moment. *)
Inductive reachable (dev : device) : Density -> Prop :=
| reach_init (n : Z) (arg : data_arg) (s : Density) :
    __init__ dev n arg = Ok s -> reachable dev s
| reach_call (cache cache' : ptm_cache) (s s' : Density) (o : op) :
    reachable dev s -> call dev (cache, s) o = Ok (cache', s') ->
    reachable dev s'.

(** The methods that do not allocate [diag_work] keep
    [allocated_qubits] at the largest [no_qubits] the object has had. *)
Definition no_diag (o : op) : bool :=
  match o with
  | Trace | Renormalize | PartialTrace _ | GetDiag => false
  | _ => true
  end.

(** A device whose kernels leave every buffer as it is. *)
Definition idle_device : device :=
  {| uninit := fun _ => f0;
     hash := fun b => Z.of_nat (length b);
     astype_complex128 := fun _ _ => (f0, f0);
     _two_qubit_ptm := fun _ _ old _ _ _ _ i => nth i old f0;
     _single_qubit_ptm := fun _ _ old _ _ _ i => nth i old f0;
     _get_diag := fun _ _ _ old _ i => nth i old f0;
     _trace := fun _ _ old _ i => nth i old f0;
     _swap := fun _ _ old _ _ _ i => nth i old f0;
     _bit_to_pauli_basis := fun _ _ old _ _ i => nth i old (f0, f0);
     _pauli_reshuffle := fun _ _ c r _ _ =>
                           (fun i => nth i c (f0, f0), fun i => nth i r f0) |}.

(** [Density(1)]: one qubit in the ground state. *)
Definition ground1 : Density :=
  {| allocated_qubits := 1; allocated_diag := -1; no_qubits := 1;
     _size := 4; _blocksize := 256; _gridsize := 1;
     data := {| ga_dtype := Float64; gpudata := [f1; f0; f0; f0] |};
     diag_work := None |}.

(** [Density(2)]: two qubits in the ground state. *)
Definition ground2 : Density :=
  {| allocated_qubits := 2; allocated_diag := -1; no_qubits := 2;
     _size := 16; _blocksize := 256; _gridsize := 1;
     data := {| ga_dtype := Float64; gpudata := f1 :: repeat f0 15 |};
     diag_work := None |}.

(** An eleven-qubit state (its data do not matter to the limits). *)
Definition eleven : Density :=
  {| allocated_qubits := 11; allocated_diag := -1; no_qubits := 11;
     _size := 4 ^ 11; _blocksize := 256; _gridsize := 2 ^ 14;
     data := ga_zeros 0; diag_work := None |}.

(** A float64 array of shape (16, 16) holding zeros. *)
Definition zeros_16_16 : ndarray :=
  {| shape := [16; 16]; dtype_of := Float64;
     tobytes := repeat Byte.x00 2048 |}.

(** *** Vocabulary of the laws of the class *)

(** What every method keeps of an object, beside [wf]: [allocated_diag]
    is never assigned after the constructor, the data stay float64, and
    the launch geometry is the one [_set_no_qubits] computes. *)
Definition invariant (s : Density) : Prop :=
  wf s
  /\ allocated_diag s = -1
  /\ ga_dtype (data s) = Float64
  /\ _blocksize s = 2 ^ 8
  /\ _gridsize s = 2 ^ Z.max 0 (2 * no_qubits s - 8).

(** What [trace], [get_diag] and [partial_trace] do to the object [s]
    beside filling [diag_work]. *)
Definition diag_effect (s s1 : Density) : Prop :=
  no_qubits s1 = no_qubits s
  /\ data s1 = data s
  /\ allocated_qubits s1 = no_qubits s
  /\ length (diag_buf s1) = Z.to_nat (2 ^ no_qubits s).

(** The arguments the constructor accepts. *)
Definition accepted (n : Z) (arg : data_arg) : Prop :=
  0 <= n <= 15
  /\ match arg with
     | DataNone => True
     | DataNdarray a => shape a = [2 ^ n; 2 ^ n]
     | DataGPUArray g => size g = 4 ^ n /\ ga_dtype g = Float64
     | DataOther => False
     end.

(** A ptm passes [_validate_ptm] for the given shape. *)
Definition valid_ptm (ptm : ndarray) (target_shape : list Z) : Prop :=
  shape ptm = target_shape /\ dtype_of ptm = Float64.

(** Every entry of the cache sits under the hash of its own bytes and
    has passed [_validate_ptm] in one of the two methods. *)
Definition cache_ok (dev : device) (cache : ptm_cache) : Prop :=
  forall key p,
    cache !! key = Some p ->
    key = hash dev (tobytes p)
    /\ (valid_ptm p [4; 4] \/ valid_ptm p [16; 16]).

(** The ptm is taken: its bytes are cached, or it passes
    [_validate_ptm]. *)
Definition ptm_accepted (dev : device) (cache : ptm_cache) (ptm : ndarray)
    (target_shape : list Z) : Prop :=
  is_Some (cache !! hash dev (tobytes ptm)) \/ valid_ptm ptm target_shape.

(** The cache after a call that took [ptm]. *)
Definition cache_after (dev : device) (cache : ptm_cache) (ptm : ndarray)
    : ptm_cache :=
  match cache !! hash dev (tobytes ptm) with
  | Some _ => cache
  | None => <[hash dev (tobytes ptm) := ptm]> cache
  end.

(** The first [4 ^ no_qubits] entries of the data: the state. *)
Definition state_of (s : Density) : list float64 :=
  firstn (Z.to_nat (4 ^ no_qubits s)) (gpudata (data s)).

(** A state with one more subsystem in state [anc_st]: the old entries
    in the first quarter (0) or in the last quarter (1), zeros in the
    other three. *)
Definition with_ancilla (anc_st : Z) (st : list float64) : list float64 :=
  if anc_st =? 0 then st ++ repeat f0 (3 * length st)
  else repeat f0 (3 * length st) ++ st.

(** The quarter of a state that projecting its highest subsystem on
    [state] keeps: the last one for 1, the first one otherwise. *)
Definition quarter (state : Z) (st : list float64) : list float64 :=
  let q := (length st / 4)%nat in
  if state =? 1 then firstn q (skipn (3 * q) st) else firstn q st.

(** A float64 array of shape (4, 4) holding zeros. *)
Definition zeros_4_4 : ndarray :=
  {| shape := [4; 4]; dtype_of := Float64;
     tobytes := repeat Byte.x00 128 |}.

(** A sequence of calls without [trace], [get_diag] and the like; its
    last call raises (there is no subsystem 7). *)
Definition some_calls : list op :=
  [AddAncilla 0; AddAncilla 1; ProjectMeasurement 2 1;
   ApplyPtm 0 zeros_4_4; ProjectMeasurement 7 0].

End Dm10.

(** * Properties of the algebra *)

(** ** Complex arithmetic and finite sums *)

Module CxFacts.

Local Open Scope R_scope.

Lemma C_eq (a b : C) : re a = re b -> im a = im b -> a = b.
Proof. destruct a, b; simpl; intros -> ->; reflexivity. Qed.

Ltac cring := intros; apply C_eq; simpl; ring.

Lemma Cadd_comm (a b : C) : (a + b = b + a)%C.            Proof. cring. Qed.
Lemma Cadd_assoc (a b c : C) : (a + (b + c) = a + b + c)%C. Proof. cring. Qed.
Lemma Cadd_0_l (a : C) : (C0 + a = a)%C.                  Proof. cring. Qed.
Lemma Cadd_0_r (a : C) : (a + C0 = a)%C.                  Proof. cring. Qed.
Lemma Cmul_comm (a b : C) : (a * b = b * a)%C.            Proof. cring. Qed.
Lemma Cmul_assoc (a b c : C) : (a * (b * c) = a * b * c)%C. Proof. cring. Qed.
Lemma Cmul_1_l (a : C) : (C1 * a = a)%C.                  Proof. cring. Qed.
Lemma Cmul_1_r (a : C) : (a * C1 = a)%C.                  Proof. cring. Qed.
Lemma Cmul_0_l (a : C) : (C0 * a = C0)%C.                 Proof. cring. Qed.
Lemma Cmul_0_r (a : C) : (a * C0 = C0)%C.                 Proof. cring. Qed.
Lemma Cmul_add_distr_r (a b c : C) : ((a + b) * c = a * c + b * c)%C.
Proof. cring. Qed.
Lemma Cmul_add_distr_l (a b c : C) : (a * (b + c) = a * b + a * c)%C.
Proof. cring. Qed.
Lemma Csub_def (a b : C) : (a - b = a + - b)%C.           Proof. cring. Qed.
Lemma Cadd_opp_r (a : C) : (a + - a = C0)%C.              Proof. cring. Qed.

Lemma C_ring_theory : ring_theory C0 C1 Cadd Cmul Csub Copp eq.
Proof.
  constructor.
  - exact Cadd_0_l.
  - exact Cadd_comm.
  - exact Cadd_assoc.
  - exact Cmul_1_l.
  - exact Cmul_comm.
  - exact Cmul_assoc.
  - exact Cmul_add_distr_r.
  - exact Csub_def.
  - exact Cadd_opp_r.
Qed.

Add Ring C_ring : C_ring_theory.

Lemma Cconj_add (a b : C) : Cconj (a + b) = (Cconj a + Cconj b)%C.
Proof. cring. Qed.
Lemma Cconj_mul (a b : C) : Cconj (a * b) = (Cconj a * Cconj b)%C.
Proof. cring. Qed.
Lemma Cconj_invol (a : C) : Cconj (Cconj a) = a.
Proof. cring. Qed.
Lemma Cconj_0 : Cconj C0 = C0.
Proof. cring. Qed.
Lemma Cconj_RtoC (x : R) : Cconj (RtoC x) = RtoC x.
Proof. cring. Qed.

(** A number equal to its conjugate is its real part. *)
Lemma Cconj_fixed_real (a : C) : Cconj a = a -> a = RtoC (re a).
Proof.
  intros H. apply C_eq; simpl; [reflexivity |].
  apply (f_equal im) in H. simpl in H. lra.
Qed.

(** *** [sum_n] *)

Lemma sum_n_ext (n : nat) (f g : nat -> C) :
  (forall i, (i < n)%nat -> f i = g i) -> sum_n n f = sum_n n g.
Proof.
  induction n as [| n IH]; intros H; simpl; [reflexivity |].
  rewrite IH, H by auto with arith. reflexivity.
Qed.

Lemma sum_n_zero (n : nat) : sum_n n (fun _ => C0) = C0.
Proof. induction n as [| n IH]; simpl; [| rewrite IH]; cring. Qed.

Lemma sum_n_add (n : nat) (f g : nat -> C) :
  sum_n n (fun i => f i + g i)%C = (sum_n n f + sum_n n g)%C.
Proof. induction n as [| n IH]; simpl; [| rewrite IH]; ring. Qed.

Lemma sum_n_mul_l (n : nat) (c : C) (f : nat -> C) :
  sum_n n (fun i => c * f i)%C = (c * sum_n n f)%C.
Proof. induction n as [| n IH]; simpl; [| rewrite IH]; ring. Qed.

Lemma sum_n_mul_r (n : nat) (c : C) (f : nat -> C) :
  sum_n n (fun i => f i * c)%C = (sum_n n f * c)%C.
Proof. induction n as [| n IH]; simpl; [| rewrite IH]; ring. Qed.

Lemma sum_n_swap (m n : nat) (f : nat -> nat -> C) :
  sum_n m (fun i => sum_n n (fun j => f i j))
  = sum_n n (fun j => sum_n m (fun i => f i j)).
Proof.
  induction m as [| m IH]; simpl.
  - now rewrite sum_n_zero.
  - now rewrite IH, sum_n_add.
Qed.

Lemma Cconj_sum_n (n : nat) (f : nat -> C) :
  Cconj (sum_n n f) = sum_n n (fun i => Cconj (f i)).
Proof.
  induction n as [| n IH]; simpl; [apply Cconj_0 |].
  now rewrite Cconj_add, IH.
Qed.

(** A sum whose only non-zero term is the one at [k]. *)
Lemma sum_n_single (n k : nat) (f : nat -> C) :
  (k < n)%nat -> (forall i, (i < n)%nat -> i <> k -> f i = C0) ->
  sum_n n f = f k.
Proof.
  induction n as [| n IH]; intros Hk Hz; [lia |]. simpl.
  destruct (Nat.eq_dec k n) as [-> | Hne].
  - rewrite (sum_n_ext n f (fun _ => C0)) by (intros; apply Hz; lia).
    rewrite sum_n_zero. ring.
  - rewrite IH by (try lia; intros; apply Hz; lia).
    rewrite (Hz n) by lia. ring.
Qed.

(** Summing over [i * n + j] is summing over [i] and over [j]. *)
Lemma sum_n_mul_index (m n : nat) (f : nat -> C) :
  sum_n (m * n) f = sum_n m (fun i => sum_n n (fun j => f (i * n + j)%nat)).
Proof.
  assert (Hshift : forall k b, sum_n (b + k) f
            = (sum_n b f + sum_n k (fun j => f (b + j)%nat))%C).
  { induction k as [| k IHk]; intros b.
    - rewrite Nat.add_0_r. simpl. ring.
    - rewrite Nat.add_succ_r. simpl. rewrite IHk. ring. }
  induction m as [| m IH]; simpl; [reflexivity |].
  rewrite <- IH, Nat.add_comm, Hshift. reflexivity.
Qed.

End CxFacts.

(** ** Index arithmetic and sums over multi-indices *)

Module NpFacts.

Import Np CxFacts.

Lemma below_length (idx sh : list nat) : below idx sh -> length idx = length sh.
Proof. induction 1; simpl; congruence. Qed.

Lemma below_app (i1 i2 s1 s2 : list nat) :
  below i1 s1 -> below i2 s2 -> below (i1 ++ i2) (s1 ++ s2).
Proof. apply Forall2_app. Qed.

Lemma prod_app (l m : list nat) : prod (l ++ m) = prod l * prod m.
Proof.
  induction l as [| x l IH]; simpl; [lia |]. rewrite IH. lia.
Qed.

Lemma prod_repeat (d n : nat) : prod (repeat d n) = d ^ n.
Proof. induction n as [| n IH]; simpl; [| rewrite IH]; reflexivity. Qed.

Lemma sum_tuples_ext (ds : list nat) :
  forall G G' : list nat -> C,
    (forall vs, below vs ds -> G vs = G' vs) ->
    sum_tuples ds G = sum_tuples ds G'.
Proof.
  induction ds as [| d ds IH]; intros G G' H; simpl.
  - apply H. constructor.
  - apply sum_n_ext. intros v Hv. apply IH.
    intros vs Hvs. apply H. now constructor.
Qed.

Lemma sum_tuples_app (ds1 ds2 : list nat) :
  forall G : list nat -> C,
    sum_tuples (ds1 ++ ds2) G
    = sum_tuples ds1 (fun v1 => sum_tuples ds2 (fun v2 => G (v1 ++ v2))).
Proof.
  induction ds1 as [| d ds1 IH]; intros G; simpl; [reflexivity |].
  apply sum_n_ext. intros v _. now rewrite IH.
Qed.

Lemma sum_n_tuples_swap (d : nat) (ds : list nat) :
  forall G : nat -> list nat -> C,
    sum_n d (fun v => sum_tuples ds (G v))
    = sum_tuples ds (fun vs => sum_n d (fun v => G v vs)).
Proof.
  induction ds as [| e ds IH]; intros G; simpl; [reflexivity |].
  rewrite sum_n_swap. apply sum_n_ext. intros w _.
  apply (IH (fun v vs => G v (w :: vs))).
Qed.

Lemma sum_tuples_swap (ds1 ds2 : list nat) :
  forall G : list nat -> list nat -> C,
    sum_tuples ds1 (fun a => sum_tuples ds2 (G a))
    = sum_tuples ds2 (fun b => sum_tuples ds1 (fun a => G a b)).
Proof.
  induction ds1 as [| d ds1 IH]; intros G; simpl; [reflexivity |].
  rewrite <- sum_n_tuples_swap. apply sum_n_ext. intros v _.
  apply (IH (fun a b => G (v :: a) b)).
Qed.

Lemma sum_tuples_mul_l (ds : list nat) (c : C) :
  forall G : list nat -> C,
    sum_tuples ds (fun vs => c * G vs)%C = (c * sum_tuples ds G)%C.
Proof.
  induction ds as [| d ds IH]; intros G; simpl; [reflexivity |].
  rewrite <- sum_n_mul_l. apply sum_n_ext. intros v _. apply IH.
Qed.

(** A sum over interleaved pairs of indices is a double sum. *)
Lemma sum_tuples_deinterleave (d n : nat) :
  forall H : list nat -> list nat -> C,
    sum_tuples (repeat d (2 * n)) (fun vs => H (evens vs) (odds vs))
    = sum_tuples (repeat d n)
        (fun a => sum_tuples (repeat d n) (fun b => H a b)).
Proof.
  induction n as [| n IH]; intros H; [reflexivity |].
  replace (2 * S n) with (S (S (2 * n))) by lia. simpl repeat.
  cbn [sum_tuples]. apply sum_n_ext. intros a0 _.
  rewrite <- sum_n_tuples_swap. apply sum_n_ext. intros b0 _.
  apply (IH (fun a b => H (a0 :: a) (b0 :: b))).
Qed.

(** *** Flat and multi-indices *)

Lemma prod_pos (sh idx : list nat) : below idx sh -> 0 < prod sh.
Proof. induction 1; simpl; [lia | nia]. Qed.

Lemma ravel_lt (sh idx : list nat) : below idx sh -> ravel sh idx < prod sh.
Proof.
  induction 1 as [| i d idx sh Hi _ IH]; simpl; [lia | nia].
Qed.

Lemma unravel_ravel (sh idx : list nat) :
  below idx sh -> unravel sh (ravel sh idx) = idx.
Proof.
  induction 1 as [| i d idx sh Hi Hrest IH]; simpl; [reflexivity |].
  pose proof (ravel_lt _ _ Hrest) as Hlt.
  rewrite Nat.div_add_l by lia. rewrite Nat.div_small by lia.
  rewrite Nat.add_0_r. f_equal.
  rewrite Nat.add_comm, Nat.Div0.mod_add, Nat.mod_small by lia.
  exact IH.
Qed.

Lemma unravel_below (sh : list nat) :
  forall k, k < prod sh -> below (unravel sh k) sh.
Proof.
  induction sh as [| d sh IH]; intros k Hk; simpl in *; [constructor |].
  assert (Hp : 0 < prod sh) by nia.
  constructor.
  - apply Nat.Div0.div_lt_upper_bound. lia.
  - apply IH. apply Nat.mod_upper_bound. lia.
Qed.

Lemma ravel_unravel (sh : list nat) :
  forall k, k < prod sh -> ravel sh (unravel sh k) = k.
Proof.
  induction sh as [| d sh IH]; intros k Hk; simpl in *; [lia |].
  assert (Hp : 0 < prod sh) by nia.
  rewrite IH by (apply Nat.mod_upper_bound; lia).
  pose proof (Nat.div_mod_eq k (prod sh)). lia.
Qed.

Lemma ravel_app (s1 s2 i1 i2 : list nat) :
  length i1 = length s1 ->
  ravel (s1 ++ s2) (i1 ++ i2) = ravel s1 i1 * prod s2 + ravel s2 i2.
Proof.
  revert i1. induction s1 as [| d s1 IH]; intros [| i i1] Hlen;
    simpl in *; try discriminate; [lia |].
  rewrite IH, prod_app by lia. lia.
Qed.

(** A sum over multi-indices is a sum over flat indices. *)
Lemma sum_tuples_flat (sh : list nat) :
  forall G : list nat -> C,
    sum_tuples sh G = sum_n (prod sh) (fun k => G (unravel sh k)).
Proof.
  induction sh as [| d sh IH]; intros G; simpl.
  - change (G [] = (C0 + G [])%C). ring.
  - rewrite sum_n_mul_index. apply sum_n_ext. intros i _.
    rewrite IH. apply sum_n_ext. intros j Hj.
    rewrite Nat.div_add_l by lia. rewrite Nat.div_small by lia.
    rewrite Nat.add_0_r.
    rewrite (Nat.add_comm (i * prod sh)), Nat.Div0.mod_add, Nat.mod_small by lia.
    reflexivity.
Qed.

(** *** [einsum] *)

Lemma sum_over_tuples (ls : list nat) (dim : nat -> nat) (F : (nat -> nat) -> C) :
  forall env,
    sum_over ls dim env F
    = sum_tuples (map dim ls) (fun vs => F (bind ls vs env)).
Proof.
  induction ls as [| l ls IH]; intros env; simpl; [reflexivity |].
  apply sum_n_ext. intros v _. apply IH.
Qed.

Lemma bind_notin (ls : list nat) (l : nat) :
  forall vs env, ~ In l ls -> bind ls vs env l = env l.
Proof.
  induction ls as [| l' ls IH]; intros vs env Hni; [reflexivity |].
  destruct vs as [| v vs]; [reflexivity |]. simpl.
  rewrite IH by (intros H; apply Hni; now right).
  unfold upd. destruct (Nat.eqb_spec l l'); [| reflexivity].
  exfalso. apply Hni. now left.
Qed.

Lemma bind_nth (ls : list nat) :
  forall vs env i,
    NoDup ls -> length vs = length ls -> i < length ls ->
    bind ls vs env (nth i ls 0) = nth i vs 0.
Proof.
  induction ls as [| l ls IH]; intros vs env i Hnd Hlen Hi; simpl in Hi; [lia |].
  destruct vs as [| v vs]; [discriminate |].
  inversion Hnd as [| ? ? Hni Hnd']; subst.
  destruct i as [| i]; simpl.
  - rewrite bind_notin by assumption. unfold upd. now rewrite Nat.eqb_refl.
  - apply IH; simpl in *; [assumption | lia | lia].
Qed.

Lemma mem_In (l : nat) (ls : list nat) : mem l ls = true <-> In l ls.
Proof.
  unfold mem. rewrite existsb_exists. split.
  - intros (x & Hin & Heq). apply Nat.eqb_eq in Heq. now subst.
  - intros Hin. exists l. split; [assumption | apply Nat.eqb_refl].
Qed.

Lemma mem_false (l : nat) (ls : list nat) : mem l ls = false <-> ~ In l ls.
Proof.
  rewrite <- mem_In. destruct (mem l ls); split; intros; congruence.
Qed.

Lemma nodupb_NoDup (ls : list nat) : NoDup ls -> nodupb ls = true.
Proof.
  induction 1 as [| l ls Hni _ IH]; simpl; [reflexivity |].
  rewrite IH, andb_true_r. apply negb_true_iff. now apply mem_false.
Qed.

Lemma dimension_map (D : nat -> nat) (l : nat) (ls : list nat) :
  dimension l ls (map D ls) = if mem l ls then Some (D l) else None.
Proof.
  induction ls as [| l' ls IH]; [reflexivity |].
  cbn [map dimension]. unfold mem in *. cbn [existsb].
  destruct (Nat.eqb_spec l l') as [-> | Hne]; cbn [orb]; [| exact IH].
  rewrite IH. destruct (Nat.eqb_spec (D l') 1) as [E | _]; [| reflexivity].
  destruct (existsb (Nat.eqb l') ls); now rewrite E.
Qed.

Lemma typed_in_dims (D : nat -> nat) (ops : list operand) :
  typed D ops -> in_dims ops = map D (in_labels ops).
Proof.
  unfold in_dims, in_labels. induction 1 as [| o ops Ho _ IH]; simpl; [reflexivity |].
  now rewrite map_app, Ho, IH.
Qed.

Lemma typed_label_dim (D : nat -> nat) (ops : list operand) (l : nat) :
  typed D ops -> In l (in_labels ops) -> label_dim ops l = D l.
Proof.
  intros Ht Hin. unfold label_dim.
  rewrite (typed_in_dims D ops Ht), dimension_map.
  apply mem_In in Hin. now rewrite Hin.
Qed.

Lemma in_labels_In (ops : list operand) (o : operand) (l : nat) :
  In o ops -> In l (snd o) -> In l (in_labels ops).
Proof.
  intros Ho Hl. unfold in_labels. apply in_concat.
  exists (snd o). split; [now apply in_map | assumption].
Qed.

Lemma sum_labels_in (ops : list operand) (out : list nat) (l : nat) :
  In l (sum_labels ops out) -> In l (in_labels ops).
Proof.
  unfold sum_labels. rewrite filter_In. intros (_ & H).
  apply andb_prop in H as [H _]. now apply mem_In.
Qed.

Lemma map_ext_In_nat (f g : nat -> nat) (l : list nat) :
  (forall x, In x l -> f x = g x) -> map f l = map g l.
Proof. apply map_ext_in. Qed.

(** No axis is broadcast when the shapes are consistent. *)
Lemma read_typed (D : nat -> nat) (ops : list operand) (o : operand)
    (env : nat -> nat) :
  typed D ops -> In o ops -> read (label_dim ops) env o = map env (snd o).
Proof.
  intros Ht Ho. unfold read.
  pose proof Ht as Ht'. unfold typed in Ht'. rewrite Forall_forall in Ht'.
  rewrite (Ht' o Ho).
  assert (Hl : forall l, In l (snd o) -> label_dim ops l = D l).
  { intros l Hl. apply typed_label_dim; [assumption |].
    eapply in_labels_In; eauto. }
  induction (snd o) as [| l ls IH]; [reflexivity |].
  cbn [map combine fst snd].
  rewrite (Hl l) by now left. rewrite Nat.eqb_refl. f_equal.
  apply IH. intros l' Hl'. apply Hl. now right.
Qed.

Lemma product_typed (D : nat -> nat) (ops : list operand) (env : nat -> nat) :
  typed D ops -> product (label_dim ops) ops env = term ops env.
Proof.
  intros Ht. unfold product, term. f_equal.
  apply map_ext_in. intros o Ho. f_equal. now apply (read_typed D).
Qed.

(** What [einsum] returns on operands of consistent shapes. *)
Lemma einsum_typed (D : nat -> nat) (ops : list operand) (out : list nat) :
  typed D ops -> incl out (in_labels ops) -> NoDup out ->
  exists r,
    einsum ops out = Ok r
    /\ shape r = map D out
    /\ forall oidx,
         item r oidx
         = sum_tuples (map D (sum_labels ops out))
             (fun vs => term ops (bind (sum_labels ops out) vs
                                    (bind out oidx (fun _ => 0)))).
Proof.
  intros Ht Hout Hnd. unfold einsum.
  assert (Hrank : forallb rank_ok ops = true).
  { apply forallb_forall. intros o Ho. unfold rank_ok, ndim.
    pose proof Ht as Ht'. unfold typed in Ht'. rewrite Forall_forall in Ht'.
    rewrite (Ht' o Ho), length_map. apply Nat.eqb_refl. }
  assert (Hdims : forallb (dims_ok (label_dim ops)) ops = true).
  { apply forallb_forall. intros o Ho. unfold dims_ok.
    apply forallb_forall. intros [v l] Hp. simpl.
    pose proof Ht as Ht'. unfold typed in Ht'. rewrite Forall_forall in Ht'.
    rewrite (Ht' o Ho) in Hp.
    assert (Hl : In l (snd o)) by (eapply in_combine_r; eauto).
    assert (Hv : v = D l).
    { clear - Hp. induction (snd o) as [| x xs IH]; simpl in Hp; [destruct Hp |].
      destruct Hp as [Hp | Hp]; [now inversion Hp | auto]. }
    rewrite (typed_label_dim D ops l Ht) by (eapply in_labels_In; eauto).
    subst v. rewrite Nat.eqb_refl. apply orb_true_r. }
  assert (Hmem : forallb (fun l => mem l (in_labels ops)) out = true).
  { apply forallb_forall. intros l Hl. apply mem_In. now apply Hout. }
  rewrite Hrank, Hdims, Hmem, (nodupb_NoDup out Hnd). simpl.
  eexists. split; [reflexivity |]. simpl. split.
  - apply map_ext_in. intros l Hl. apply typed_label_dim; auto.
  - intros oidx. rewrite sum_over_tuples.
    replace (map (label_dim ops) (sum_labels ops out))
      with (map D (sum_labels ops out)).
    2:{ apply map_ext_in. intros l Hl. symmetry.
        apply typed_label_dim; [assumption |]. eapply sum_labels_in; eauto. }
    apply sum_tuples_ext. intros vs _. now apply (product_typed D).
Qed.

(** The subscripts that [einsum_symbols] has a letter for. *)
Lemma einsum_list_small (ops : list operand) (out : list nat) :
  (forall l, In l (in_labels ops) -> l < einsum_symbols) ->
  incl out (in_labels ops) ->
  einsum_list ops out = einsum ops out.
Proof.
  intros Hl Hout. unfold einsum_list.
  replace (forallb _ _) with true; [reflexivity |].
  symmetry. apply forallb_forall. intros l Hin. apply Nat.ltb_lt.
  apply in_app_iff in Hin as [Hin | Hin]; auto.
Qed.

Lemma einsum_list_large (ops : list operand) (out : list nat) (l : nat) :
  In l (in_labels ops) -> einsum_symbols <= l ->
  einsum_list ops out = Raise IndexError.
Proof.
  intros Hin Hl. unfold einsum_list.
  destruct (forallb _ _) eqn:E; [| reflexivity].
  rewrite forallb_forall in E.
  specialize (E l (proj2 (in_app_iff _ _ _) (or_introl Hin))).
  apply Nat.ltb_lt in E. lia.
Qed.

Lemma Cprod_app (l m : list C) : Cprod (l ++ m) = (Cprod l * Cprod m)%C.
Proof.
  unfold Cprod. induction l as [| x l IH]; simpl; [ring |].
  rewrite IH. ring.
Qed.

Lemma term_app (ops1 ops2 : list operand) (env : nat -> nat) :
  term (ops1 ++ ops2) env = (term ops1 env * term ops2 env)%C.
Proof. unfold term. now rewrite map_app, Cprod_app. Qed.

Lemma term_single (a : ndarray) (subs : list nat) (env : nat -> nat) :
  term [(a, subs)] env = item a (map env subs).
Proof. unfold term, Cprod. simpl. ring. Qed.

Lemma filter_all (P : nat -> bool) (l : list nat) :
  (forall x, In x l -> P x = true) -> filter P l = l.
Proof.
  induction l as [| x l IH]; intros H; simpl; [reflexivity |].
  rewrite (H x) by now left. f_equal. apply IH. intros; apply H; now right.
Qed.

Lemma filter_none (P : nat -> bool) (l : list nat) :
  (forall x, In x l -> P x = false) -> filter P l = [].
Proof.
  induction l as [| x l IH]; intros H; simpl; [reflexivity |].
  rewrite (H x) by now left. apply IH. intros; apply H; now right.
Qed.

(** [filter] over an initial segment with a gap. *)
Lemma filter_seq_gap (P : nat -> bool) (a b : nat) :
  (forall l, l < a -> P l = true) ->
  (forall l, a <= l < a + b -> P l = false) ->
  P (a + b) = true ->
  filter P (seq 0 (S (a + b))) = seq 0 a ++ [a + b].
Proof.
  intros Hlow Hmid Htop.
  rewrite seq_S, filter_app. simpl. rewrite Htop.
  f_equal. rewrite seq_app, filter_app.
  rewrite filter_all by (intros l Hl; apply in_seq in Hl; apply Hlow; lia).
  rewrite filter_none by (intros l Hl; apply in_seq in Hl; apply Hmid; lia).
  apply app_nil_r.
Qed.

End NpFacts.

(** ** [kraus_to_ptm] *)

Module AlgebraFacts.

Import Np Algebra Linalg CxFacts NpFacts.

(** *** [enumerate] *)

Lemma combine_seq_In {A : Type} (l : list A) :
  forall s i (b : A),
    In (i, b) (combine (seq s (length l)) l)
    <-> s <= i /\ nth_error l (i - s) = Some b.
Proof.
  induction l as [| a l IH]; intros s i b; simpl.
  - split; [tauto |]. intros [_ H]. destruct (i - s); discriminate.
  - rewrite IH. split.
    + intros [H | [Hle Hnth]].
      * inversion H; subst. rewrite Nat.sub_diag. auto.
      * split; [lia |]. replace (i - s) with (S (i - S s)) by lia. exact Hnth.
    + intros [Hle Hnth]. destruct (Nat.eq_dec i s) as [-> | Hne].
      * rewrite Nat.sub_diag in Hnth. simpl in Hnth. left. congruence.
      * right. split; [lia |].
        replace (i - s) with (S (i - S s)) in Hnth by lia. exact Hnth.
Qed.

Lemma enumerate_In {A : Type} (l : list A) (i : nat) (b : A) :
  In (i, b) (enumerate l) <-> nth_error l i = Some b.
Proof.
  unfold enumerate. rewrite combine_seq_In, Nat.sub_0_r.
  split; [tauto | auto with arith].
Qed.

Lemma enumerate_nth {A : Type} (l : list A) (i : nat) (dflt : A) :
  i < length l -> In (i, nth i l dflt) (enumerate l).
Proof. intros Hi. apply enumerate_In. now apply nth_error_nth'. Qed.

Lemma enumerate_inv {A : Type} (l : list A) (ib : nat * A) (dflt : A) :
  In ib (enumerate l) ->
  fst ib < length l /\ snd ib = nth (fst ib) l dflt /\ In (snd ib) l.
Proof.
  destruct ib as [i b]. rewrite enumerate_In. simpl. intros H.
  split; [apply nth_error_Some; congruence |].
  split; [symmetry; now apply nth_error_nth | eapply nth_error_In; eauto].
Qed.

Lemma enumerate_cons {A : Type} (a : A) (l : list A) :
  enumerate (a :: l)
  = (0, a) :: map (fun ib => (S (fst ib), snd ib)) (enumerate l).
Proof.
  unfold enumerate. simpl. f_equal.
  rewrite <- seq_shift.
  generalize (seq 0 (length l)) as s. clear a.
  induction l as [| b l IH]; intros [| i s]; simpl; try reflexivity.
  now rewrite IH.
Qed.

Lemma map_add_seq (a k : nat) : map (fun i => a + i) (seq 0 k) = seq a k.
Proof.
  assert (H : forall s, map (fun i => a + i) (seq s k) = seq (a + s) k).
  { induction k as [| k IH]; intros s; simpl; [reflexivity |].
    rewrite IH. now rewrite Nat.add_succ_r. }
  rewrite H. now rewrite Nat.add_0_r.
Qed.

Lemma map_const_repeat {A : Type} (f : A -> nat) (d : nat) (l : list A) :
  (forall x, In x l -> f x = d) -> map f l = repeat d (length l).
Proof.
  induction l as [| x l IH]; intros H; simpl; [reflexivity |].
  rewrite (H x) by now left. f_equal. apply IH. intros; apply H; now right.
Qed.

Lemma list_max_In (l : list nat) (x : nat) : In x l -> x <= list_max l.
Proof.
  induction l as [| y l IH]; intros Hin; [destruct Hin |].
  simpl. destruct Hin as [-> | Hin]; [lia |]. specialize (IH Hin). lia.
Qed.

(** *** The labels of [einsum_args] and their lengths *)

Section Labels.

Variables (n d Z : nat) (kraus : ndarray) (bases_in bases_out : list Basis).
Hypothesis Hin : uniform d bases_in.
Hypothesis Hout : uniform d bases_out.
Hypothesis Hlen_in : length bases_in = n.
Hypothesis Hlen_out : length bases_out = n.
Hypothesis Hkraus : shape kraus = Z :: repeat d (2 * n).

Let D := kp_dim n d Z bases_in bases_out.
Let ops := einsum_args n kraus bases_in bases_out.

Lemma kp_dim_low (l : nat) : l < 4 * n -> D l = d.
Proof using Type.
  clear Hin Hout Hlen_in Hlen_out Hkraus.
  intros H. unfold D, kp_dim.
  destruct (Nat.ltb_spec l (4 * n)); [reflexivity | lia].
Qed.

Lemma kp_dim_out (i : nat) :
  i < n -> D (4 * n + i) = dim_pauli (nth i bases_out nobasis).
Proof using Type.
  clear Hin Hout Hlen_in Hlen_out Hkraus.
  intros H. unfold D, kp_dim.
  destruct (Nat.ltb_spec (4 * n + i) (4 * n)); [lia |].
  destruct (Nat.ltb_spec (4 * n + i) (5 * n)); [| lia].
  now replace (4 * n + i - 4 * n) with i by lia.
Qed.

Lemma kp_dim_in (i : nat) :
  i < n -> D (5 * n + i) = dim_pauli (nth i bases_in nobasis).
Proof using Type.
  clear Hin Hout Hlen_in Hlen_out Hkraus.
  intros H. unfold D, kp_dim.
  destruct (Nat.ltb_spec (5 * n + i) (4 * n)); [lia |].
  destruct (Nat.ltb_spec (5 * n + i) (5 * n)); [lia |].
  destruct (Nat.ltb_spec (5 * n + i) (6 * n)); [| lia].
  now replace (5 * n + i - 5 * n) with i by lia.
Qed.

Lemma kp_dim_z : D (6 * n) = Z.
Proof using Type.
  clear Hin Hout Hlen_in Hlen_out Hkraus.
  unfold D, kp_dim.
  destruct (Nat.ltb_spec (6 * n) (4 * n)); [lia |].
  destruct (Nat.ltb_spec (6 * n) (5 * n)); [lia |].
  destruct (Nat.ltb_spec (6 * n) (6 * n)); [lia | reflexivity].
Qed.

Lemma kp_typed : typed D ops.
Proof using Hin Hout Hlen_in Hlen_out Hkraus.
  unfold typed, ops, einsum_args.
  assert (Hk : Z :: repeat d (2 * n)
               = map D (6 * n :: map (fun i => 2 * i + 1) (seq 0 (2 * n)))).
  { cbn [map]. rewrite kp_dim_z. f_equal. rewrite map_map.
    rewrite (map_const_repeat _ d), length_seq; [reflexivity |].
    intros i Hi. apply in_seq in Hi. apply kp_dim_low. lia. }
  assert (Hkc : Z :: repeat d (2 * n)
                = map D (6 * n :: map (fun i => 2 * i) (seq 0 (2 * n)))).
  { cbn [map]. rewrite kp_dim_z. f_equal. rewrite map_map.
    rewrite (map_const_repeat _ d), length_seq; [reflexivity |].
    intros i Hi. apply in_seq in Hi. apply kp_dim_low. lia. }
  apply Forall_app; split; [| apply Forall_app; split; [| apply Forall_app; split]].
  - unfold out_args. apply Forall_forall. intros o Ho.
    apply in_map_iff in Ho as (ib & <- & Hib).
    destruct (enumerate_inv _ ib nobasis Hib) as (Hi & Hnth & Hb).
    unfold uniform in Hout. rewrite Forall_forall in Hout.
    destruct (Hout _ Hb) as (Hwf & Hd). cbn [fst snd map].
    rewrite Hwf, Hd, kp_dim_out, !kp_dim_low by lia.
    now rewrite <- Hnth.
  - constructor; [| constructor]. cbn [fst snd conj shape].
    now rewrite Hkraus.
  - unfold in_args. apply Forall_forall. intros o Ho.
    apply in_map_iff in Ho as (ib & <- & Hib).
    destruct (enumerate_inv _ ib nobasis Hib) as (Hi & Hnth & Hb).
    unfold uniform in Hin. rewrite Forall_forall in Hin.
    destruct (Hin _ Hb) as (Hwf & Hd). cbn [fst snd map].
    rewrite Hwf, Hd, kp_dim_in, !kp_dim_low by lia.
    now rewrite <- Hnth.
  - constructor; [| constructor]. cbn [fst snd conj shape].
    now rewrite Hkraus.
Qed.

Lemma in_labels_app (o1 o2 : list operand) :
  in_labels (o1 ++ o2) = in_labels o1 ++ in_labels o2.
Proof using Type.
  clear Hin Hout Hlen_in Hlen_out Hkraus. unfold in_labels. now rewrite map_app, concat_app. Qed.

Lemma in_labels_enumerate (f : nat * Basis -> operand) (bs : list Basis) (l : nat) :
  In l (in_labels (map f (enumerate bs)))
  <-> exists i, i < length bs /\ In l (snd (f (i, nth i bs nobasis))).
Proof using Type.
  clear Hin Hout Hlen_in Hlen_out Hkraus.
  unfold in_labels. rewrite in_concat. split.
  - intros (subs & Hsubs & Hl).
    apply in_map_iff in Hsubs as (o & <- & Ho).
    apply in_map_iff in Ho as (ib & <- & Hib).
    destruct (enumerate_inv _ ib nobasis Hib) as (Hi & Hnth & _).
    exists (fst ib). split; [assumption |].
    rewrite <- Hnth. now destruct ib.
  - intros (i & Hi & Hl). eexists. split; [| exact Hl].
    apply in_map, in_map. now apply enumerate_nth.
Qed.

Lemma kp_in_labels (l : nat) : In l (in_labels ops) <-> l <= 6 * n.
Proof using Hlen_in Hlen_out.
  unfold ops, einsum_args. rewrite !in_labels_app, !in_app_iff.
  unfold out_args, in_args. rewrite !in_labels_enumerate.
  rewrite Hlen_in, Hlen_out.
  unfold in_labels. cbn [map concat snd In]. rewrite !app_nil_r.
  cbn [In]. rewrite !in_map_iff.
  split.
  - intros [(i & Hi & H) | [[H | (i & H & Hi)] | [(i & Hi & H) | [H | (i & H & Hi)]]]];
      try apply in_seq in Hi; cbn beta iota delta [In fst snd] in H; lia.
  - intros Hl.
    destruct (Nat.eq_dec l (6 * n)) as [-> | Hne]; [right; left; now left |].
    destruct (Nat.lt_ge_cases l (4 * n)) as [Hlow | Hhigh].
    + destruct (Nat.Even_or_Odd l) as [[k Hk] | [k Hk]].
      * right; right; right; right. exists k. split; [lia |].
        apply in_seq. lia.
      * right; left; right. exists k. split; [lia |].
        apply in_seq. lia.
    + destruct (Nat.lt_ge_cases l (5 * n)) as [H5 | H5].
      * left. exists (l - 4 * n). split; [lia |]. cbn beta iota delta [In fst snd]. lia.
      * right; right; left. exists (l - 5 * n). split; [lia |].
        cbn beta iota delta [In fst snd]. lia.
Qed.

Lemma einsum_out_seq : einsum_out n = seq (4 * n) (2 * n).
Proof using Type.
  clear Hin Hout Hlen_in Hlen_out Hkraus. unfold einsum_out. apply map_add_seq. Qed.

Lemma kp_out_incl : incl (einsum_out n) (in_labels ops).
Proof using Hlen_in Hlen_out.
  intros l Hl. rewrite einsum_out_seq in Hl. apply in_seq in Hl.
  apply kp_in_labels. lia.
Qed.

Lemma kp_out_NoDup : NoDup (einsum_out n).
Proof using Type.
  clear Hin Hout Hlen_in Hlen_out Hkraus. rewrite einsum_out_seq. apply seq_NoDup. Qed.

Lemma kp_sum_labels :
  sum_labels ops (einsum_out n) = seq 0 (4 * n) ++ [6 * n].
Proof using Hlen_in Hlen_out.
  unfold sum_labels.
  assert (Hmax : list_max (in_labels ops) = 4 * n + 2 * n).
  { apply Nat.le_antisymm.
    - apply list_max_le. apply Forall_forall. intros l Hl.
      apply kp_in_labels in Hl. lia.
    - apply list_max_In. apply kp_in_labels. lia. }
  rewrite Hmax.
  replace (6 * n) with (4 * n + 2 * n) by lia.
  apply filter_seq_gap.
  - intros l Hl. apply andb_true_intro. split.
    + apply mem_In, kp_in_labels. lia.
    + apply negb_true_iff, mem_false. rewrite einsum_out_seq, in_seq. lia.
  - intros l Hl. apply andb_false_intro2.
    apply negb_false_iff, mem_In. rewrite einsum_out_seq, in_seq. lia.
  - apply andb_true_intro. split.
    + apply mem_In, kp_in_labels. lia.
    + apply negb_true_iff, mem_false. rewrite einsum_out_seq, in_seq. lia.
Qed.

End Labels.

(** *** Even and odd positions *)

Lemma length_evens_odds (m : nat) :
  forall w, length w = 2 * m -> length (evens w) = m /\ length (odds w) = m.
Proof.
  induction m as [| m IH]; intros w Hw.
  - destruct w; [auto | discriminate].
  - destruct w as [| a [| b r]]; try (simpl in Hw; lia).
    simpl in Hw. destruct (IH r) as [He Ho]; [lia |].
    simpl. auto.
Qed.

Lemma nth_evens (i : nat) :
  forall w, 2 * i + 1 < length w -> nth i (evens w) 0 = nth (2 * i) w 0.
Proof.
  induction i as [| i IH]; intros w Hw.
  - destruct w as [| a [| b r]]; simpl in *; try lia; reflexivity.
  - destruct w as [| a [| b r]]; simpl in Hw; try lia.
    replace (2 * S i) with (S (S (2 * i))) by lia.
    cbn [evens nth]. apply IH. lia.
Qed.

Lemma nth_odds (i : nat) :
  forall w, 2 * i + 1 < length w -> nth i (odds w) 0 = nth (2 * i + 1) w 0.
Proof.
  induction i as [| i IH]; intros w Hw.
  - destruct w as [| a [| b r]]; simpl in *; try lia; reflexivity.
  - destruct w as [| a [| b r]]; simpl in Hw; try lia.
    replace (2 * S i + 1) with (S (S (2 * i + 1))) by lia.
    cbn [odds nth]. apply IH. lia.
Qed.

Lemma map_nth_seq (l : list nat) (m : nat) (f : nat -> nat) :
  length l = m -> (forall i, i < m -> f i = nth i l 0) ->
  map f (seq 0 m) = l.
Proof.
  intros Hlen Hf. apply (nth_ext _ _ 0 0).
  - now rewrite length_map, length_seq.
  - intros i Hi. rewrite length_map, length_seq in Hi.
    rewrite (nth_indep _ 0 (f 0)) by now rewrite length_map, length_seq.
    rewrite map_nth, seq_nth by assumption. now apply Hf.
Qed.

Lemma nth_firstn_lt (i k : nat) (l : list nat) :
  i < k -> nth i (firstn k l) 0 = nth i l 0.
Proof.
  revert i l. induction k as [| k IH]; intros i l Hi; [lia |].
  destruct l as [| a l]; [now destruct i |].
  destruct i as [| i]; simpl; [reflexivity | apply IH; lia].
Qed.

Lemma nth_skipn_add (i k : nat) (l : list nat) :
  nth i (skipn k l) 0 = nth (k + i) l 0.
Proof.
  revert l. induction k as [| k IH]; intros l; [reflexivity |].
  destruct l as [| a l]; simpl; [now destruct i | apply IH].
Qed.

Lemma NoDup_snoc (l : list nat) (a : nat) :
  NoDup l -> ~ In a l -> NoDup (l ++ [a]).
Proof.
  induction 1 as [| x l Hx _ IH]; intros Ha; simpl.
  - constructor; [intros [] | constructor].
  - constructor.
    + rewrite in_app_iff. intros [H | [H | []]]; [auto | subst; apply Ha; now left].
    + apply IH. intros H; apply Ha; now right.
Qed.

(** *** The summand of the contraction *)

Section Summand.

Variables (n : nat) (kraus : ndarray) (bases_in bases_out : list Basis).
Variables (x y w : list nat) (z : nat).
Hypothesis Hlen_in : length bases_in = n.
Hypothesis Hlen_out : length bases_out = n.
Hypothesis Hx : length x = n.
Hypothesis Hy : length y = n.
Hypothesis Hw : length w = 4 * n.

Let env : nat -> nat :=
  bind (seq 0 (4 * n) ++ [6 * n]) (w ++ [z])
       (bind (einsum_out n) (x ++ y) (fun _ => 0)).

Lemma env_low (l : nat) : l < 4 * n -> env l = nth l w 0.
Proof.
  intros Hl. unfold env.
  replace l with (nth l (seq 0 (4 * n) ++ [6 * n]) 0) at 1
    by (rewrite app_nth1, seq_nth by (rewrite ?length_seq; lia); lia).
  rewrite bind_nth.
  - apply app_nth1. lia.
  - apply NoDup_snoc; [apply seq_NoDup | rewrite in_seq; lia].
  - rewrite !length_app, length_seq. simpl. lia.
  - rewrite length_app, length_seq. simpl. lia.
Qed.

Lemma env_z : env (6 * n) = z.
Proof.
  unfold env.
  replace (6 * n) with (nth (4 * n) (seq 0 (4 * n) ++ [6 * n]) 0) at 2
    by (rewrite app_nth2, length_seq, Nat.sub_diag by (rewrite length_seq; lia);
        reflexivity).
  rewrite bind_nth.
  - rewrite app_nth2, Hw, Nat.sub_diag by lia. reflexivity.
  - apply NoDup_snoc; [apply seq_NoDup | rewrite in_seq; lia].
  - rewrite !length_app, length_seq. simpl. lia.
  - rewrite length_app, length_seq. simpl. lia.
Qed.

Lemma env_out (i : nat) : i < 2 * n -> env (4 * n + i) = nth i (x ++ y) 0.
Proof.
  intros Hi. unfold env.
  rewrite bind_notin by (rewrite in_app_iff, in_seq; simpl; lia).
  rewrite einsum_out_seq.
  replace (4 * n + i) with (nth i (seq (4 * n) (2 * n)) 0)
    by (rewrite seq_nth by lia; lia).
  apply bind_nth.
  - apply seq_NoDup.
  - rewrite length_app, length_seq. lia.
  - rewrite length_seq. lia.
Qed.

Lemma term_einsum_args :
  term (einsum_args n kraus bases_in bases_out) env
  = summand kraus bases_in bases_out x y
      (firstn n (evens w)) (firstn n (odds w))
      (skipn n (odds w)) (skipn n (evens w)) z.
Proof.
  destruct (length_evens_odds (2 * n) w) as [Hle Hlo]; [lia |].
  unfold einsum_args, summand.
  rewrite !term_app, !term_single. cbn [map item conj].
  rewrite env_z, !firstn_skipn, !map_map.
  rewrite (map_nth_seq (odds w) (2 * n)); [| assumption |
    intros i Hi; rewrite env_low, nth_odds by lia; reflexivity].
  rewrite (map_nth_seq (evens w) (2 * n)); [| assumption |
    intros i Hi; rewrite env_low, nth_evens by lia; reflexivity].
  f_equal; [| f_equal; f_equal].
  - unfold term, out_args, prod_elements. rewrite map_map. f_equal.
    apply map_ext_in. intros ib Hib.
    destruct (enumerate_inv _ ib nobasis Hib) as (Hi & _ & _).
    cbn [fst snd map]. unfold element.
    rewrite env_out, !env_low by lia.
    rewrite app_nth1 by lia.
    rewrite !nth_firstn_lt, nth_evens, nth_odds by lia.
    reflexivity.
  - unfold term, in_args, prod_elements. rewrite map_map. f_equal.
    apply map_ext_in. intros ib Hib.
    destruct (enumerate_inv _ ib nobasis Hib) as (Hi & _ & _).
    cbn [fst snd map]. unfold element.
    replace (5 * n + fst ib) with (4 * n + (n + fst ib)) by lia.
    rewrite env_out, !env_low by lia.
    rewrite app_nth2, Hx by lia.
    replace (n + fst ib - n) with (fst ib) by lia.
    rewrite !nth_skipn_add, nth_evens, nth_odds by lia.
    now rewrite (Nat.add_comm (fst ib) n).
Qed.

End Summand.

(** *** The reshaped Kraus stack *)

Lemma pow_double (d n : nat) : d ^ (2 * n) = d ^ n * d ^ n.
Proof. replace (2 * n) with (n + n) by lia. apply Nat.pow_add_r. Qed.

Lemma repeat_double (d n : nat) : repeat d (2 * n) = repeat d n ++ repeat d n.
Proof. replace (2 * n) with (n + n) by lia. apply repeat_app. Qed.

Lemma reshape_kraus (kraus : ndarray) (Z d n : nat) :
  shape kraus = [Z; d ^ n; d ^ n] ->
  reshape kraus (Z :: repeat d (2 * n))
  = Ok {| shape := Z :: repeat d (2 * n);
          item := fun idx =>
            item kraus (unravel [Z; d ^ n; d ^ n]
                          (ravel (Z :: repeat d (2 * n)) idx)) |}.
Proof.
  intros Hsh. unfold reshape, size. rewrite Hsh.
  cbn [prod fold_right]. fold (prod (repeat d (2 * n))).
  rewrite prod_repeat, pow_double.
  destruct (Nat.eqb_spec (Z * (d ^ n * d ^ n)) (Z * (d ^ n * (d ^ n * 1))))
    as [_ | Hne]; [reflexivity | exfalso; apply Hne; ring].
Qed.

Lemma reshaped_item (kraus : ndarray) (Z d n z : nat) (b c : list nat) :
  z < Z -> below b (repeat d n) -> below c (repeat d n) ->
  item kraus (unravel [Z; d ^ n; d ^ n]
                (ravel (Z :: repeat d (2 * n)) (z :: b ++ c)))
  = kraus_op kraus z (ravel (repeat d n) b) (ravel (repeat d n) c).
Proof.
  intros Hz Hb Hc. unfold kraus_op.
  pose proof (ravel_lt _ _ Hb) as Hrb. pose proof (ravel_lt _ _ Hc) as Hrc.
  rewrite prod_repeat in Hrb, Hrc.
  replace (ravel (Z :: repeat d (2 * n)) (z :: b ++ c))
    with (ravel [Z; d ^ n; d ^ n]
            [z; ravel (repeat d n) b; ravel (repeat d n) c]).
  - rewrite unravel_ravel; [reflexivity |].
    repeat constructor; assumption.
  - cbn [ravel]. rewrite repeat_double.
    rewrite ravel_app by (apply below_length in Hb; exact Hb).
    rewrite prod_app, !prod_repeat. cbn [prod fold_right]. ring.
Qed.

(** *** Products of basis elements are Kronecker products *)

Lemma prod_elements_cons (b : Basis) (bases : list Basis)
    (x a0 b0 : nat) (xs a1 b1 : list nat) :
  prod_elements (b :: bases) (x :: xs) (a0 :: a1) (b0 :: b1)
  = (element b x a0 b0 * prod_elements bases xs a1 b1)%C.
Proof.
  unfold prod_elements. rewrite enumerate_cons. cbn [map Cprod fold_right fst snd nth].
  f_equal. unfold Cprod. f_equal. rewrite map_map. apply map_ext.
  intros ib. reflexivity.
Qed.

Lemma hilbert_dim_uniform (d : nat) (bases : list Basis) :
  uniform d bases -> hilbert_dim bases = d ^ length bases.
Proof.
  unfold hilbert_dim. induction 1 as [| b bases [_ Hd] _ IH]; [reflexivity |].
  cbn [map prod fold_right length Nat.pow]. fold (prod (map dim_hilbert bases)).
  now rewrite IH, Hd.
Qed.

Lemma prod_elements_kron (d : nat) (bases : list Basis) :
  uniform d bases ->
  forall xs ka kb,
    length xs = length bases ->
    prod_elements bases xs
      (unravel (repeat d (length bases)) ka)
      (unravel (repeat d (length bases)) kb)
    = element_n bases xs ka kb.
Proof.
  induction 1 as [| b bases Hb Hrest IH]; intros xs ka kb Hlen.
  - destruct xs; [| discriminate]. unfold prod_elements, Cprod. reflexivity.
  - destruct xs as [| x xs]; [discriminate |].
    cbn [length repeat unravel].
    rewrite prod_elements_cons, IH by (simpl in Hlen; lia).
    cbn [element_n]. unfold kronm.
    now rewrite (hilbert_dim_uniform d bases Hrest), prod_repeat.
Qed.

(** *** The contraction is a trace *)

Lemma trace_form (D Z : nat) (Bx By : Matrix) (K : nat -> Matrix) :
  sum_n D (fun a => sum_n D (fun e => sum_n D (fun b => sum_n D (fun c =>
    sum_n Z (fun z =>
      Bx a b * (K z b c * (By c e * Cconj (K z a e))))))))%C
  = sum_n Z (fun z =>
      Mtrace D (Mmult D (Mmult D (Mmult D Bx (K z)) By) (adjoint (K z)))).
Proof.
  transitivity
    (sum_n Z (fun z => sum_n D (fun a => sum_n D (fun e => sum_n D (fun c =>
       sum_n D (fun b =>
         Bx a b * (K z b c * (By c e * Cconj (K z a e)))))))))%C.
  - transitivity
      (sum_n D (fun a => sum_n D (fun e => sum_n Z (fun z => sum_n D (fun c =>
         sum_n D (fun b =>
           Bx a b * (K z b c * (By c e * Cconj (K z a e)))))))))%C.
    + apply sum_n_ext; intros a _. apply sum_n_ext; intros e _.
      etransitivity; [apply sum_n_ext; intros b _; apply sum_n_swap |].
      cbv beta. etransitivity; [apply sum_n_swap |]. cbv beta.
      apply sum_n_ext; intros z _. apply sum_n_swap.
    + etransitivity; [apply sum_n_ext; intros a _; apply sum_n_swap |].
      cbv beta. apply sum_n_swap.
  - apply sum_n_ext; intros z _. unfold Mtrace, Mmult, adjoint.
    apply sum_n_ext; intros a _.
    apply sum_n_ext; intros e _.
    rewrite <- sum_n_mul_r. apply sum_n_ext; intros c _.
    rewrite <- sum_n_mul_r, <- sum_n_mul_r. apply sum_n_ext; intros b _.
    ring.
Qed.

Lemma sum_tuples_1 (Z : nat) (G : list nat -> C) :
  sum_tuples [Z] G = sum_n Z (fun z => G [z]).
Proof. reflexivity. Qed.

Lemma firstn_app_exact (n : nat) (a e : list nat) :
  length a = n -> firstn n (a ++ e) = a /\ skipn n (a ++ e) = e.
Proof.
  intros <-. split.
  - rewrite firstn_app, Nat.sub_diag, firstn_all. simpl. apply app_nil_r.
  - rewrite skipn_app, Nat.sub_diag, skipn_all. reflexivity.
Qed.

Lemma below_repeat_length (v : list nat) (d n : nat) :
  below v (repeat d n) -> length v = n.
Proof. intros H. apply below_length in H. now rewrite repeat_length in H. Qed.

Lemma map_seq_nth {A B : Type} (f : A -> B) (l : list A) (dflt : A) :
  map (fun i => f (nth i l dflt)) (seq 0 (length l)) = map f l.
Proof.
  induction l as [| a l IH]; [reflexivity |].
  cbn [length seq map nth]. f_equal.
  rewrite <- seq_shift, map_map. exact IH.
Qed.

Section Contraction.

Variables (d Z : nat) (kraus : ndarray) (bases_in bases_out : list Basis).
Let n := length bases_in.
Hypothesis Hin : uniform d bases_in.
Hypothesis Hout : uniform d bases_out.
Hypothesis Hlen_out : length bases_out = n.
Hypothesis Hkraus : shape kraus = [Z; d ^ n; d ^ n].

(** The Kraus stack after [reshape]. *)
Let kraus' : ndarray :=
  {| shape := Z :: repeat d (2 * n);
     item := fun idx =>
       item kraus (unravel [Z; d ^ n; d ^ n]
                     (ravel (Z :: repeat d (2 * n)) idx)) |}.

Lemma kp_contraction (x y : list nat) :
  length x = n -> length y = n ->
  sum_tuples (repeat d (4 * n) ++ [Z])
    (fun vs =>
       term (einsum_args n kraus' bases_in bases_out)
         (bind (seq 0 (4 * n) ++ [6 * n]) vs
            (bind (einsum_out n) (x ++ y) (fun _ => 0))))
  = ptm_entry kraus bases_in bases_out x y.
Proof.
  intros Hx Hy.
  set (H := fun A B : list nat =>
              sum_n Z (fun z =>
                summand kraus' bases_in bases_out x y
                  (firstn n A) (firstn n B) (skipn n B) (skipn n A) z)).
  transitivity
    (sum_tuples (repeat d (2 * (2 * n))) (fun w => H (evens w) (odds w))).
  { replace (2 * (2 * n)) with (4 * n) by lia.
    rewrite sum_tuples_app. apply sum_tuples_ext. intros w Hw.
    rewrite sum_tuples_1. unfold H. apply sum_n_ext. intros z _.
    apply below_repeat_length in Hw.
    apply term_einsum_args; auto. }
  rewrite sum_tuples_deinterleave, repeat_double.
  transitivity
    (sum_tuples (repeat d n) (fun a => sum_tuples (repeat d n) (fun e =>
       sum_tuples (repeat d n) (fun b => sum_tuples (repeat d n) (fun c =>
         sum_n Z (fun z => summand kraus' bases_in bases_out x y a b c e z)))))).
  { rewrite sum_tuples_app. apply sum_tuples_ext. intros a Ha.
    apply sum_tuples_ext. intros e He.
    rewrite sum_tuples_app. apply sum_tuples_ext. intros b Hb.
    apply sum_tuples_ext. intros c Hc. unfold H.
    apply below_repeat_length in Ha, Hb.
    destruct (firstn_app_exact n a e Ha) as [-> ->].
    destruct (firstn_app_exact n b c Hb) as [-> ->].
    reflexivity. }
  rewrite sum_tuples_flat.
  transitivity
    (sum_n (d ^ n) (fun ka => sum_n (d ^ n) (fun ke =>
       sum_n (d ^ n) (fun kb => sum_n (d ^ n) (fun kc =>
         sum_n Z (fun z =>
           element_n bases_out x ka kb
           * (kraus_op kraus z kb kc
              * (element_n bases_in y kc ke
                 * Cconj (kraus_op kraus z ka ke))))))))%C).
  { rewrite prod_repeat. apply sum_n_ext. intros ka Hka.
    rewrite sum_tuples_flat, prod_repeat. apply sum_n_ext. intros ke Hke.
    rewrite sum_tuples_flat, prod_repeat. apply sum_n_ext. intros kb Hkb.
    rewrite sum_tuples_flat, prod_repeat. apply sum_n_ext. intros kc Hkc.
    apply sum_n_ext. intros z Hz.
    unfold summand, kraus'. cbn [item].
    assert (Hb : forall k, k < d ^ n -> below (unravel (repeat d n) k) (repeat d n))
      by (intros k Hk; apply unravel_below; now rewrite prod_repeat).
    rewrite !reshaped_item by auto.
    rewrite !ravel_unravel by now rewrite prod_repeat.
    rewrite <- Hlen_out at 1 2.
    rewrite (prod_elements_kron d bases_out Hout) by congruence.
    fold n.
    change (repeat d n) with (repeat d (length bases_in)).
    rewrite (prod_elements_kron d bases_in Hin) by assumption.
    reflexivity. }
  rewrite trace_form. unfold ptm_entry.
  rewrite (hilbert_dim_uniform d bases_in Hin), Hkraus. reflexivity.
Qed.

End Contraction.

(** *** Hermitian bases give real entries *)

Lemma element_n_hermitian (d : nat) (bases : list Basis) :
  uniform d bases -> Forall hermitian bases ->
  forall xs ka kb,
    below xs (map dim_pauli bases) ->
    ka < d ^ length bases -> kb < d ^ length bases ->
    element_n bases xs kb ka = Cconj (element_n bases xs ka kb).
Proof.
  induction 1 as [| b bases [_ Hd] Hrest IH]; intros Hherm xs ka kb Hxs Hka Hkb.
  - inversion Hxs; subst. cbn [element_n]. apply C_eq; simpl; ring.
  - inversion Hherm as [| ? ? Hb Hherm']; subst.
    inversion Hxs as [| x dp xs' dps Hx Hxs']; subst.
    cbn [element_n]. unfold kronm.
    rewrite (hilbert_dim_uniform (dim_hilbert b) bases Hrest).
    cbn [length Nat.pow] in Hka, Hkb.
    set (m := dim_hilbert b ^ length bases) in *.
    assert (Hm : 0 < m) by nia.
    rewrite Cconj_mul.
    rewrite (Hb x (ka / m) (kb / m)) by
      (try assumption; apply Nat.Div0.div_lt_upper_bound; lia).
    rewrite (IH Hherm' xs' (ka mod m) (kb mod m)) by
      (try assumption; apply Nat.mod_upper_bound; lia).
    reflexivity.
Qed.

Lemma sum_n_swap_pairs (D : nat) (h : nat -> nat -> nat -> nat -> C) :
  sum_n D (fun a => sum_n D (fun e => sum_n D (fun b => sum_n D (fun c =>
    h a e b c))))
  = sum_n D (fun b => sum_n D (fun c => sum_n D (fun a => sum_n D (fun e =>
      h a e b c)))).
Proof.
  transitivity
    (sum_n D (fun a => sum_n D (fun b => sum_n D (fun c => sum_n D (fun e =>
       h a e b c))))).
  - apply sum_n_ext; intros a _.
    etransitivity; [apply sum_n_swap |]. cbv beta.
    apply sum_n_ext; intros b _. apply sum_n_swap.
  - etransitivity; [apply sum_n_swap |]. cbv beta.
    apply sum_n_ext; intros b _. apply sum_n_swap.
Qed.

Lemma ptm_entry_real (d : nat) (kraus : ndarray)
    (bases_in bases_out : list Basis) (x y : list nat) :
  uniform d bases_in -> uniform d bases_out ->
  length bases_out = length bases_in ->
  Forall hermitian bases_in -> Forall hermitian bases_out ->
  below x (map dim_pauli bases_out) -> below y (map dim_pauli bases_in) ->
  im (ptm_entry kraus bases_in bases_out x y) = 0%R.
Proof.
  intros Hin Hout Hlen Hhin Hhout Hx Hy.
  assert (Hconj : Cconj (ptm_entry kraus bases_in bases_out x y)
                  = ptm_entry kraus bases_in bases_out x y).
  { unfold ptm_entry. rewrite (hilbert_dim_uniform d bases_in Hin).
    set (D := d ^ length bases_in). set (Z := hd 0 (shape kraus)).
    rewrite <- !trace_form.
    rewrite !Cconj_sum_n.
    rewrite sum_n_swap_pairs.
    apply sum_n_ext; intros a Ha. rewrite Cconj_sum_n.
    apply sum_n_ext; intros e He. rewrite Cconj_sum_n.
    apply sum_n_ext; intros b Hb. rewrite Cconj_sum_n.
    apply sum_n_ext; intros c Hc. rewrite Cconj_sum_n.
    apply sum_n_ext; intros z _.
    rewrite !Cconj_mul, Cconj_invol.
    rewrite <- (element_n_hermitian d bases_out Hout Hhout x a b)
      by (try assumption; rewrite Hlen; assumption).
    rewrite <- (element_n_hermitian d bases_in Hin Hhin y c e) by assumption.
    ring. }
  apply (f_equal im) in Hconj. simpl in Hconj. lra.
Qed.

(** *** C1: what [kraus_to_ptm] returns *)

Lemma real_fixed (c : C) : im c = 0%R -> RtoC (re c) = c.
Proof. intros H. apply C_eq; simpl; [reflexivity | now rewrite H]. Qed.

Lemma real_is_real (a : ndarray) (idx : list nat) : im (item (real a) idx) = 0%R.
Proof. reflexivity. Qed.

(** [kraus_to_ptm] returns, and its entries are the real parts of the
    traces. *)
Lemma kraus_to_ptm_contraction (d Z : nat) (kraus : ndarray)
    (bases_in bases_out : list Basis) :
  bases_in <> [] -> length bases_in <= 8 ->
  uniform d bases_in -> uniform d bases_out ->
  length bases_out = length bases_in ->
  shape kraus = [Z; d ^ length bases_in; d ^ length bases_in] ->
  exists ptm,
    kraus_to_ptm kraus bases_in bases_out = Ok ptm
    /\ shape ptm = map dim_pauli bases_out ++ map dim_pauli bases_in
    /\ (forall idx, im (item ptm idx) = 0%R)
    /\ forall x y,
         length x = length bases_in -> length y = length bases_in ->
         item ptm (x ++ y)
         = RtoC (re (ptm_entry kraus bases_in bases_out x y)).
Proof.
  intros Hne Hn8 Hin Hout Hlen Hkraus.
  set (n := length bases_in) in *.
  assert (Hhead : exists b0, (match bases_in with
                              | b :: _ => Ok b
                              | [] => Raise IndexError
                              end) = Ok b0 /\ dim_hilbert b0 = d).
  { destruct bases_in as [| b0 rest]; [congruence |].
    exists b0. split; [reflexivity |]. now inversion Hin as [| ? ? [_ ?] _]. }
  destruct Hhead as (b0 & Hb0 & Hd).
  unfold kraus_to_ptm. rewrite Hb0. cbn [Py.bind]. fold n.
  rewrite Hlen, Nat.eqb_refl, Hkraus. cbn [Py.bind].
  rewrite Hd, reshape_kraus by exact Hkraus. cbn [Py.bind].
  set (kraus' := {| shape := Z :: repeat d (2 * n); item := _ |}).
  assert (Hk' : shape kraus' = Z :: repeat d (2 * n)) by reflexivity.
  pose proof (kp_typed n d Z kraus' bases_in bases_out Hin Hout eq_refl Hlen Hk')
    as Htyped.
  rewrite einsum_list_small;
    [| intros l Hl;
       apply (kp_in_labels n kraus' bases_in bases_out eq_refl Hlen) in Hl;
       unfold einsum_symbols; lia
     | apply (kp_out_incl n kraus' bases_in bases_out eq_refl Hlen) ].
  destruct (einsum_typed _ _ (einsum_out n) Htyped
              (kp_out_incl n kraus' bases_in bases_out eq_refl Hlen)
              (kp_out_NoDup n))
    as (r & Hr & Hshape & Hitem).
  rewrite Hr. cbn [Py.bind]. eexists. split; [reflexivity |].
  split; [| split].
  - cbn [real shape]. rewrite Hshape, einsum_out_seq.
    replace (2 * n) with (n + n) by lia. rewrite seq_app, map_app.
    f_equal.
    + rewrite <- map_add_seq, map_map.
      rewrite <- (map_seq_nth dim_pauli bases_out nobasis), Hlen.
      apply map_ext_in. intros i Hi. apply in_seq in Hi.
      apply kp_dim_out. lia.
    + replace (4 * n + n) with (5 * n) by lia.
      rewrite <- map_add_seq, map_map.
      rewrite <- (map_seq_nth dim_pauli bases_in nobasis).
      apply map_ext_in. intros i Hi. apply in_seq in Hi.
      apply kp_dim_in. fold n. lia.
  - intros idx. apply real_is_real.
  - intros x y Hx Hy. cbn [real item]. do 2 f_equal.
    rewrite Hitem.
    rewrite (kp_sum_labels n kraus' bases_in bases_out eq_refl Hlen).
    rewrite map_app. cbn [map]. rewrite kp_dim_z.
    rewrite (map_const_repeat _ d), length_seq
      by (intros l Hl; apply in_seq in Hl; apply kp_dim_low; lia).
    apply (kp_contraction d Z kraus bases_in bases_out Hin Hout Hlen Hkraus);
      assumption.
Qed.

(** C1, as the code has it.  For a stack of [Z] Kraus operators on
    [1 <= n <= 8] subsystems of one Hilbert dimension [d] (shape
    [(Z, d^n, d^n)]) and basis tuples of length [n], [kraus_to_ptm]
    returns an array of shape [(out_1, ..., out_n, in_1, ..., in_n)]
    with real entries; its entry at [(x; y)] is the real part of
    [sum_z Tr (B_out[x] K_z B_in[y] K_z^dagger)], and it is that sum
    itself when the operators of the bases are Hermitian (as the
    operators of a basis are). *)
Theorem kraus_to_ptm_entries (d Z : nat) (kraus : ndarray)
    (bases_in bases_out : list Basis) :
  bases_in <> [] -> length bases_in <= 8 ->
  uniform d bases_in -> uniform d bases_out ->
  length bases_out = length bases_in ->
  shape kraus = [Z; d ^ length bases_in; d ^ length bases_in] ->
  exists ptm,
    kraus_to_ptm kraus bases_in bases_out = Ok ptm
    /\ shape ptm = map dim_pauli bases_out ++ map dim_pauli bases_in
    /\ (forall idx, im (item ptm idx) = 0%R)
    /\ forall x y,
         length x = length bases_in -> length y = length bases_in ->
         item ptm (x ++ y)
         = RtoC (re (ptm_entry kraus bases_in bases_out x y))
         /\ (Forall hermitian bases_in -> Forall hermitian bases_out ->
             below x (map dim_pauli bases_out) ->
             below y (map dim_pauli bases_in) ->
             item ptm (x ++ y) = ptm_entry kraus bases_in bases_out x y).
Proof.
  intros Hne Hn8 Hin Hout Hlen Hkraus.
  destruct (kraus_to_ptm_contraction d Z kraus bases_in bases_out
              Hne Hn8 Hin Hout Hlen Hkraus)
    as (ptm & Hptm & Hshape & Hreal & Hitem).
  exists ptm. repeat split; try assumption.
  - now apply Hitem.
  - intros Hhin Hhout Hbx Hby. rewrite Hitem by assumption.
    apply real_fixed.
    exact (ptm_entry_real d kraus bases_in bases_out x y
             Hin Hout Hlen Hhin Hhout Hbx Hby).
Qed.

(** *** C3: the first row of a trace-preserving channel *)

Lemma divmod_eqb (m a b : nat) :
  0 < m -> (a =? b) = ((a / m =? b / m) && (a mod m =? b mod m)).
Proof.
  intros Hm.
  destruct (Nat.eqb_spec a b) as [-> | Hne].
  - now rewrite !Nat.eqb_refl.
  - symmetry. apply andb_false_iff.
    destruct (Nat.eqb_spec (a / m) (b / m)) as [Hq | Hq]; [| now left].
    destruct (Nat.eqb_spec (a mod m) (b mod m)) as [Hr | Hr]; [| now right].
    exfalso. apply Hne.
    rewrite (Nat.div_mod_eq a m), (Nat.div_mod_eq b m). congruence.
Qed.

Lemma element_n_identity (d : nat) (bases : list Basis) :
  uniform d bases -> Forall identity_first bases ->
  forall a b,
    a < d ^ length bases -> b < d ^ length bases ->
    element_n bases (repeat 0 (length bases)) a b
    = if a =? b then norm_id d (length bases) else C0.
Proof.
  unfold norm_id.
  induction 1 as [| b0 bases [_ Hd] Hrest IH]; intros Hid a b Ha Hb.
  - simpl in Ha, Hb. replace a with 0 by lia. replace b with 0 by lia.
    reflexivity.
  - inversion Hid as [| ? ? [_ Hb0] Hid']; subst.
    cbn [length repeat element_n]. unfold kronm.
    rewrite (hilbert_dim_uniform (dim_hilbert b0) bases Hrest).
    cbn [length Nat.pow] in Ha, Hb.
    set (m := dim_hilbert b0 ^ length bases) in *.
    assert (Hm : 0 < m) by nia.
    rewrite Hb0 by (apply Nat.Div0.div_lt_upper_bound; lia).
    rewrite (IH Hid' (a mod m) (b mod m)) by (apply Nat.mod_upper_bound; lia).
    rewrite (divmod_eqb m a b Hm).
    unfold Cprod.
    destruct (a / m =? b / m), (a mod m =? b mod m);
      cbn [andb fold_right]; ring.
Qed.

Lemma trace_kron (d m : nat) (A B : Matrix) :
  Mtrace (d * m) (kronm m A B) = (Mtrace d A * Mtrace m B)%C.
Proof.
  unfold Mtrace, kronm. rewrite sum_n_mul_index.
  rewrite <- sum_n_mul_r. apply sum_n_ext. intros i _.
  rewrite <- sum_n_mul_l. apply sum_n_ext. intros j Hj.
  rewrite Nat.div_add_l, Nat.div_small, Nat.add_0_r by lia.
  rewrite (Nat.add_comm (i * m)), Nat.Div0.mod_add, Nat.mod_small by lia.
  reflexivity.
Qed.

(** In an orthonormal basis whose first operator is the normalized
    identity, the other operators are traceless. *)
Lemma normalized_trace (b : Basis) (y : nat) :
  orthonormal b -> identity_first b -> y < dim_pauli b ->
  (RtoC (/ sqrt (INR (dim_hilbert b))) * Mtrace (dim_hilbert b) (element b y))%C
  = if 0 =? y then C1 else C0.
Proof.
  intros Horth [Hpos Hid] Hy.
  rewrite <- (Horth 0 y Hpos Hy).
  unfold Mtrace, Mmult. rewrite <- sum_n_mul_l.
  apply sum_n_ext. intros i Hi.
  rewrite (sum_n_single (dim_hilbert b) i); [| assumption |].
  - rewrite Hid, Nat.eqb_refl by assumption. reflexivity.
  - intros k Hk Hne. rewrite Hid by assumption.
    destruct (Nat.eqb_spec i k); [congruence | ring].
Qed.

Lemma first_row_product (d : nat) (bases : list Basis) :
  uniform d bases -> Forall orthonormal bases -> Forall identity_first bases ->
  forall y,
    below y (map dim_pauli bases) ->
    (norm_id d (length bases) * Mtrace (d ^ length bases) (element_n bases y))%C
    = if forallb (Nat.eqb 0) y then C1 else C0.
Proof.
  unfold norm_id.
  induction 1 as [| b bases [_ Hd] Hrest IH]; intros Horth Hid y Hy.
  - inversion Hy; subst. cbn. apply C_eq; simpl; ring.
  - inversion Horth as [| ? ? Hob Horth']; subst.
    inversion Hid as [| ? ? Hib Hid']; subst.
    inversion Hy as [| y0 dp y' dps Hy0 Hy']; subst.
    cbn [length repeat Cprod fold_right Nat.pow element_n forallb].
    rewrite (hilbert_dim_uniform (dim_hilbert b) bases Hrest), trace_kron.
    fold (Cprod (repeat (RtoC (/ sqrt (INR (dim_hilbert b)))) (length bases))).
    transitivity
      ((RtoC (/ sqrt (INR (dim_hilbert b)))
        * Mtrace (dim_hilbert b) (element b y0))
       * (Cprod (repeat (RtoC (/ sqrt (INR (dim_hilbert b)))) (length bases))
          * Mtrace (dim_hilbert b ^ length bases) (element_n bases y')))%C;
      [ring |].
    rewrite (normalized_trace b y0 Hob Hib Hy0), (IH Horth' Hid' y' Hy').
    destruct (0 =? y0), (forallb (Nat.eqb 0) y'); cbn [andb]; ring.
Qed.



Lemma ravel_zeros (sh idx : list nat) :
  forallb (Nat.eqb 0) idx = true -> ravel sh idx = 0.
Proof.
  revert idx. induction sh as [| d sh IH]; intros [| i idx] H; try reflexivity.
  cbn [forallb] in H. apply andb_prop in H as [Hi Hrest].
  apply Nat.eqb_eq in Hi. subst i. simpl. now rewrite IH.
Qed.

Lemma unravel_zero (sh : list nat) : forallb (Nat.eqb 0) (unravel sh 0) = true.
Proof.
  induction sh as [| d sh IH]; [reflexivity |].
  cbn [unravel forallb]. rewrite Nat.Div0.div_0_l, Nat.Div0.mod_0_l.
  now rewrite IH.
Qed.

Lemma unravel_all_zero (sh : list nat) (k : nat) :
  k < prod sh -> forallb (Nat.eqb 0) (unravel sh k) = (k =? 0).
Proof.
  intros Hk. destruct (Nat.eqb_spec k 0) as [-> | Hne].
  - apply unravel_zero.
  - destruct (forallb (Nat.eqb 0) (unravel sh k)) eqn:E; [| reflexivity].
    exfalso. apply Hne. rewrite <- (ravel_unravel sh k Hk).
    now apply ravel_zeros.
Qed.


(** *** C2: converting a PTM to the basis it is already in *)

Lemma convert_subscripts :
  subscripts "xij, yji, yz, zkl, wlk -> xw"
  = ([[120; 105; 106]; [121; 106; 105]; [121; 122]; [122; 107; 108];
      [119; 108; 107]], [120; 119]).
Proof. reflexivity. Qed.

Lemma convert_sum_labels (a1 a2 a3 a4 a5 : ndarray) :
  sum_labels
    (combine [a1; a2; a3; a4; a5]
       [[120; 105; 106]; [121; 106; 105]; [121; 122]; [122; 107; 108];
        [119; 108; 107]]) [120; 119]
  = [105; 106; 107; 108; 121; 122].
Proof. vm_compute. reflexivity. Qed.

Lemma convert_contraction (d dp : nat) (V P : ndarray) (x w : nat) :
  sum_tuples [d; d; d; d; dp; dp]
    (fun vs =>
       term (combine [V; V; P; V; V]
               [[120; 105; 106]; [121; 106; 105]; [121; 122]; [122; 107; 108];
                [119; 108; 107]])
         (bind [105; 106; 107; 108; 121; 122] vs
            (bind [120; 119] [x; w] (fun _ => 0))))
  = sum_n dp (fun y => sum_n dp (fun z =>
      (sum_n d (fun i => sum_n d (fun j => item V [x; i; j] * item V [y; j; i]))
       * item P [y; z]
       * sum_n d (fun k => sum_n d (fun l => item V [z; k; l] * item V [w; l; k])))%C)).
Proof.
  cbn [sum_tuples].
  transitivity
    (sum_n d (fun i => sum_n d (fun j => sum_n d (fun k => sum_n d (fun l =>
       sum_n dp (fun y => sum_n dp (fun z =>
         (item V [x; i; j] * item V [y; j; i]) * item P [y; z]
         * (item V [z; k; l] * item V [w; l; k])))))))%C).
  { apply sum_n_ext; intros i _. apply sum_n_ext; intros j _.
    apply sum_n_ext; intros k _. apply sum_n_ext; intros l _.
    apply sum_n_ext; intros y _. apply sum_n_ext; intros z _.
    unfold term, Cprod. cbn. ring. }
  (* bring y and z to the front *)
  transitivity
    (sum_n dp (fun y => sum_n dp (fun z =>
       sum_n d (fun i => sum_n d (fun j => sum_n d (fun k => sum_n d (fun l =>
         (item V [x; i; j] * item V [y; j; i]) * item P [y; z]
         * (item V [z; k; l] * item V [w; l; k])))))))%C).
  { assert (Hpull : forall (m : nat) (f : nat -> nat -> nat -> nat -> nat -> C),
               sum_n d (fun i => sum_n d (fun j => sum_n d (fun k => sum_n d (fun l =>
                 sum_n m (fun y => f i j k l y)))))
               = sum_n m (fun y => sum_n d (fun i => sum_n d (fun j =>
                   sum_n d (fun k => sum_n d (fun l => f i j k l y)))))).
    { intros m f.
      etransitivity;
        [apply sum_n_ext; intros i _; apply sum_n_ext; intros j _;
         apply sum_n_ext; intros k _; apply sum_n_swap |]. cbv beta.
      etransitivity;
        [apply sum_n_ext; intros i _; apply sum_n_ext; intros j _;
         apply sum_n_swap |]. cbv beta.
      etransitivity; [apply sum_n_ext; intros i _; apply sum_n_swap |]. cbv beta.
      apply sum_n_swap. }
    rewrite (Hpull dp (fun i j k l y => sum_n dp (fun z =>
               (item V [x; i; j] * item V [y; j; i]) * item P [y; z]
               * (item V [z; k; l] * item V [w; l; k]))%C)).
    apply sum_n_ext; intros y _.
    apply (Hpull dp (fun i j k l z =>
               (item V [x; i; j] * item V [y; j; i]) * item P [y; z]
               * (item V [z; k; l] * item V [w; l; k]))%C). }
  apply sum_n_ext; intros y _. apply sum_n_ext; intros z _.
  rewrite <- sum_n_mul_r, <- sum_n_mul_r. apply sum_n_ext; intros i _.
  rewrite <- sum_n_mul_r, <- sum_n_mul_r. apply sum_n_ext; intros j _.
  rewrite <- sum_n_mul_l. apply sum_n_ext; intros k _.
  rewrite <- sum_n_mul_l. apply sum_n_ext; intros l _.
  ring.
Qed.

Lemma gram_is_trace (B : Basis) (x y : nat) :
  sum_n (dim_hilbert B) (fun i => sum_n (dim_hilbert B) (fun j =>
    item (vectors B) [x; i; j] * item (vectors B) [y; j; i]))%C
  = Mtrace (dim_hilbert B) (Mmult (dim_hilbert B) (element B x) (element B y)).
Proof. reflexivity. Qed.

(** Re-expressing a real matrix in the orthonormal basis it is given
    in returns the matrix. *)
Lemma ptm_convert_same (B : Basis) (ptm : ndarray) :
  wf_basis B -> orthonormal B ->
  shape ptm = [dim_pauli B; dim_pauli B] ->
  (forall idx, im (item ptm idx) = 0%R) ->
  exists r,
    ptm_convert_basis ptm [B] [B] [B] [B] = Ok r
    /\ shape r = [dim_pauli B; dim_pauli B]
    /\ forall x w,
         x < dim_pauli B -> w < dim_pauli B ->
         item r [x; w] = item ptm [x; w].
Proof.
  intros Hwf Horth Hshape Hreal.
  set (dp := dim_pauli B) in *. set (d := dim_hilbert B) in *.
  unfold ptm_convert_basis, bases_kron, reduce.
  cbn [map rev app fold_left Py.bind prod fold_right np_prod reshape2].
  fold dp. rewrite Nat.mul_1_r.
  assert (Hsz : (prod [dp; dp] =? size ptm) = true).
  { unfold size. rewrite Hshape. apply Nat.eqb_refl. }
  unfold reshape at 1. rewrite Hsz. cbn [Py.bind].
  set (P := {| shape := [dp; dp]; item := _ |}).
  unfold einsum_str. rewrite convert_subscripts.
  cbn [fst snd length Nat.eqb].
  destruct (einsum_typed (convert_dim d dp)
              (combine [vectors B; vectors B; P; vectors B; vectors B]
                 [[120; 105; 106]; [121; 106; 105]; [121; 122];
                  [122; 107; 108]; [119; 108; 107]])
              [120; 119])
    as (r & Hr & Hrshape & Hitem).
  { cbn [combine]. unfold typed.
    repeat constructor; cbn [fst snd]; try rewrite Hwf; reflexivity. }
  { intros l [<- | [<- | []]]; vm_compute; tauto. }
  { repeat constructor; cbn [In]; intuition discriminate. }
  rewrite Hr. cbn [Py.bind].
  assert (Hrsz : (prod [dp; dp] =? size (real r)) = true).
  { unfold size. cbn [real shape]. rewrite Hrshape. apply Nat.eqb_refl. }
  unfold reshape. rewrite Hrsz.
  eexists. split; [reflexivity |]. split; [reflexivity |].
  intros x w Hx Hw. cbn [item real shape]. rewrite Hrshape.
  change (map (convert_dim d dp) [120; 119]) with [dp; dp].
  rewrite unravel_ravel by (repeat constructor; assumption).
  rewrite Hitem, convert_sum_labels.
  change (map (convert_dim d dp) [105; 106; 107; 108; 121; 122])
    with [d; d; d; d; dp; dp].
  rewrite convert_contraction.
  rewrite (sum_n_single dp x); [| assumption |].
  - rewrite (sum_n_single dp w); [| assumption |].
    + unfold d. rewrite !gram_is_trace, !Horth by assumption.
      rewrite !Nat.eqb_refl.
      replace (C1 * item P [x; w] * C1)%C with (item P [x; w]) by ring.
      unfold P. cbn [item]. rewrite Hshape.
      rewrite unravel_ravel by (repeat constructor; assumption).
      apply real_fixed, Hreal.
    + intros z Hz Hne. unfold d.
      rewrite (gram_is_trace B z w), (Horth z w) by assumption.
      destruct (Nat.eqb_spec z w); [congruence | ring].
  - intros y Hy Hne. rewrite <- (sum_n_zero dp).
    apply sum_n_ext; intros z _. unfold d.
    rewrite (gram_is_trace B x y), (Horth x y) by assumption.
    destruct (Nat.eqb_spec x y); [congruence | ring].
Qed.

(** C2.  For a Kraus stack [U] on one subsystem and an orthonormal
    basis [B], converting [kraus_to_ptm(U, (B,), (B,))] from [(B,)] to
    [(B,)] returns an array of the same shape with the same entries:
    exactly, hence within the tolerance 1e-10.  (Neither unitarity of
    [U] nor completeness of [B] is needed.) *)
Theorem ptm_convert_basis_identity (Z : nat) (U : ndarray) (B : Basis) :
  wf_basis B -> orthonormal B ->
  shape U = [Z; dim_hilbert B; dim_hilbert B] ->
  exists p r,
    kraus_to_ptm U [B] [B] = Ok p
    /\ ptm_convert_basis p [B] [B] [B] [B] = Ok r
    /\ shape r = shape p
    /\ forall x w,
         x < dim_pauli B -> w < dim_pauli B ->
         item r [x; w] = item p [x; w]
         /\ (Rabs (re (item r [x; w]) - re (item p [x; w])) <= 1 / 10 ^ 10)%R.
Proof.
  intros Hwf Horth HU.
  assert (Hunif : uniform (dim_hilbert B) [B]) by (constructor; [auto | constructor]).
  destruct (kraus_to_ptm_contraction (dim_hilbert B) Z U [B] [B])
    as (p & Hp & Hpshape & Hpreal & _); try assumption; try reflexivity.
  { discriminate. }
  { cbn [length]. lia. }
  { cbn [length]. now rewrite Nat.pow_1_r. }
  destruct (ptm_convert_same B p Hwf Horth Hpshape Hpreal)
    as (r & Hr & Hrshape & Hitem).
  exists p, r. repeat split; try assumption.
  - now rewrite Hrshape, Hpshape.
  - now apply Hitem.
  - rewrite (Hitem x w) by assumption.
    rewrite Rminus_diag, Rabs_R0.
    apply Rlt_le, Rdiv_lt_0_compat; [lra | apply pow_lt; lra].
Qed.

(** *** [single_kraus_to_ptm] *)

Lemma element_n_single (b : Basis) (x : nat) : element_n [b] [x] = element b x.
Proof.
  apply functional_extensionality; intros i.
  apply functional_extensionality; intros j.
  cbn [element_n]. unfold kronm, hilbert_dim. cbn [map prod fold_right].
  rewrite !Nat.div_1_r. ring.
Qed.

Lemma ptm_entry_single (kraus : ndarray) (basis_in basis_out : Basis) (x y : nat) :
  ptm_entry kraus [basis_in] [basis_out] [x] [y]
  = ptm_entry1 kraus basis_in basis_out x y.
Proof.
  unfold ptm_entry, ptm_entry1, hilbert_dim. cbn [map prod fold_right].
  now rewrite !element_n_single, Nat.mul_1_r.
Qed.

Lemma single_subscripts :
  subscripts "xab, zbc, ycd, zad -> xy"
  = ([[120; 97; 98]; [122; 98; 99]; [121; 99; 100]; [122; 97; 100]], [120; 121]).
Proof. reflexivity. Qed.

Lemma single_sum_labels (a1 a2 a3 a4 : ndarray) :
  sum_labels
    (combine [a1; a2; a3; a4]
       [[120; 97; 98]; [122; 98; 99]; [121; 99; 100]; [122; 97; 100]])
    [120; 121]
  = [97; 98; 99; 100; 122].
Proof. vm_compute. reflexivity. Qed.

Lemma single_kraus_contraction (Z : nat) (kraus : ndarray)
    (basis_in basis_out : Basis) :
  wf_basis basis_in -> wf_basis basis_out ->
  dim_hilbert basis_out = dim_hilbert basis_in ->
  shape kraus = [Z; dim_hilbert basis_in; dim_hilbert basis_in] ->
  exists ptm,
    single_kraus_to_ptm kraus basis_in basis_out = Ok ptm
    /\ shape ptm = [dim_pauli basis_out; dim_pauli basis_in]
    /\ forall x y,
         item ptm [x; y] = RtoC (re (ptm_entry1 kraus basis_in basis_out x y)).
Proof.
  intros Hwi Hwo Hd Hk.
  set (d := dim_hilbert basis_in) in *.
  unfold single_kraus_to_ptm, einsum_str. rewrite single_subscripts.
  cbn [fst snd length Nat.eqb].
  destruct (einsum_typed (single_dim d (dim_pauli basis_in) (dim_pauli basis_out) Z)
              (combine [vectors basis_out; kraus; vectors basis_in; conj kraus]
                 [[120; 97; 98]; [122; 98; 99]; [121; 99; 100]; [122; 97; 100]])
              [120; 121])
    as (r & Hr & Hrshape & Hitem).
  { cbn [combine]. unfold typed.
    repeat constructor; cbn [fst snd conj shape];
      rewrite ?Hwi, ?Hwo, ?Hk, ?Hd; reflexivity. }
  { intros l [<- | [<- | []]]; vm_compute; tauto. }
  { repeat constructor; cbn [In]; intuition discriminate. }
  rewrite Hr. cbn [Py.bind]. eexists. split; [reflexivity |].
  split; [exact Hrshape |].
  intros x y. cbn [real item]. do 2 f_equal.
  rewrite Hitem, single_sum_labels.
  change (map _ [97; 98; 99; 100; 122]) with [d; d; d; d; Z].
  cbn [sum_tuples]. unfold ptm_entry1. fold d. rewrite Hk. cbn [hd].
  rewrite <- trace_form.
  apply sum_n_ext; intros a _.
  etransitivity;
    [apply sum_n_ext; intros b _; apply sum_n_swap |]. cbv beta.
  etransitivity; [apply sum_n_swap |]. cbv beta.
  apply sum_n_ext; intros e _. apply sum_n_ext; intros b _.
  apply sum_n_ext; intros c _. apply sum_n_ext; intros z _.
  unfold term, Cprod, element, kraus_op. cbn. ring.
Qed.

(** *** C5: when [kraus_to_ptm] raises *)

Lemma kraus_to_ptm_empty (kraus : ndarray) (bases_out : list Basis) :
  kraus_to_ptm kraus [] bases_out = Raise IndexError.
Proof. reflexivity. Qed.

(** With nine subsystems or more the subscript [6 * nq] has no letter. *)
Lemma kraus_to_ptm_labels (Z : nat) (kraus : ndarray) (b0 : Basis)
    (rest bases_out : list Basis) :
  let n := length (b0 :: rest) in
  n = length bases_out -> 9 <= n ->
  shape kraus = [Z; dim_hilbert b0 ^ n; dim_hilbert b0 ^ n] ->
  kraus_to_ptm kraus (b0 :: rest) bases_out = Raise IndexError.
Proof.
  intros n Hlen Hn Hkraus. unfold kraus_to_ptm. cbn [Py.bind]. fold n.
  rewrite <- Hlen, Nat.eqb_refl, Hkraus. cbn [Py.bind].
  rewrite reshape_kraus by exact Hkraus. cbn [Py.bind].
  rewrite (einsum_list_large _ _ (6 * n)); [reflexivity | | unfold einsum_symbols; lia].
  unfold einsum_args. rewrite !in_labels_app, !in_app_iff.
  right. left. unfold in_labels. cbn [map concat snd app]. now left.
Qed.

(** The stack is reshaped with the dimension of the first basis. *)
Lemma kraus_to_ptm_reshape (Z D : nat) (kraus : ndarray) (b0 : Basis)
    (rest bases_out : list Basis) :
  let n := length (b0 :: rest) in
  n = length bases_out ->
  shape kraus = [Z; D; D] -> 0 < Z -> D <> dim_hilbert b0 ^ n ->
  kraus_to_ptm kraus (b0 :: rest) bases_out = Raise ValueError.
Proof.
  intros n Hlen Hkraus HZ HD. unfold kraus_to_ptm. cbn [Py.bind]. fold n.
  rewrite <- Hlen, Nat.eqb_refl, Hkraus. cbn [Py.bind].
  unfold reshape, size. rewrite Hkraus.
  cbn [prod fold_right]. fold (prod (repeat (dim_hilbert b0) (2 * n))).
  rewrite prod_repeat, pow_double.
  set (m := dim_hilbert b0 ^ n) in *.
  destruct (Nat.eqb_spec (Z * (m * m)) (Z * (D * (D * 1)))) as [E | _];
    [| reflexivity].
  exfalso. apply HD.
  assert (Hsq : m * m = D * D) by nia.
  destruct (Nat.lt_trichotomy D m) as [Hlt | [Heq | Hgt]]; [| assumption |]; nia.
Qed.

(** C5, as the code has it.  On a non-empty [bases_in] of length [n]
    whose first basis has Hilbert dimension [d], [kraus_to_ptm] raises
    ValueError whenever [bases_out] has another length; with equal
    lengths and a non-empty Kraus stack of shape [(Z, D, D)] it raises
    ValueError when [D <> d ^ n], whatever the dimensions of the other
    bases are; with [D = d ^ n] it raises for [n >= 9], and returns for
    [n <= 8] when all bases have Hilbert dimension [d]. *)
Theorem kraus_to_ptm_raises (kraus : ndarray) (bases_in bases_out : list Basis) :
  bases_in <> [] ->
  let n := length bases_in in
  let d := dim_hilbert (hd nobasis bases_in) in
  (n <> length bases_out ->
     kraus_to_ptm kraus bases_in bases_out = Raise ValueError)
  /\ (forall Z D,
        n = length bases_out -> shape kraus = [Z; D; D] -> 0 < Z ->
        D <> d ^ n ->
        kraus_to_ptm kraus bases_in bases_out = Raise ValueError)
  /\ (forall Z,
        n = length bases_out -> shape kraus = [Z; d ^ n; d ^ n] ->
        9 <= n ->
        raises (kraus_to_ptm kraus bases_in bases_out) = true)
  /\ (forall Z,
        n = length bases_out -> shape kraus = [Z; d ^ n; d ^ n] ->
        n <= 8 -> uniform d bases_in -> uniform d bases_out ->
        exists ptm, kraus_to_ptm kraus bases_in bases_out = Ok ptm).
Proof.
  intros Hne n d.
  destruct bases_in as [| b0 rest]; [congruence |].
  cbn [hd] in d. split; [| split; [| split]].
  - intros Hlen. unfold kraus_to_ptm. cbn [Py.bind]. fold n.
    destruct (Nat.eqb_spec n (length bases_out)); [contradiction | reflexivity].
  - intros Z D Hlen Hkraus HZ HD.
    exact (kraus_to_ptm_reshape Z D kraus b0 rest bases_out Hlen Hkraus HZ HD).
  - intros Z Hlen Hkraus Hn.
    now rewrite (kraus_to_ptm_labels Z kraus b0 rest bases_out Hlen Hn Hkraus).
  - intros Z Hlen Hkraus Hn Hin Hout.
    destruct (kraus_to_ptm_contraction d Z kraus (b0 :: rest) bases_out)
      as (ptm & Hptm & _); auto.
    eauto.
Qed.

End AlgebraFacts.

(** ** The Gell-Mann basis of a qubit and amplitude damping *)

Module QubitsFacts.

Import Np Algebra Linalg Qubits CxFacts NpFacts AlgebraFacts.
Local Open Scope R_scope.

Lemma inv_sqrt2_sqr : / sqrt 2 * / sqrt 2 = 1 / 2.
Proof.
  assert (H : sqrt 2 * sqrt 2 = 2) by (apply sqrt_sqrt; lra).
  assert (Hpos : 0 < sqrt 2) by (apply sqrt_lt_R0; lra).
  rewrite <- Rinv_mult, H. lra.
Qed.

Lemma sqrt_half_sqr : sqrt (1 / 2) * sqrt (1 / 2) = 1 / 2.
Proof. apply sqrt_sqrt. lra. Qed.

Lemma inv_sqrt2_pow : (/ sqrt 2) ^ 2 = 1 / 2.
Proof. rewrite <- inv_sqrt2_sqr. ring. Qed.

Lemma sqrt_half_pow : sqrt (1 / 2) ^ 2 = 1 / 2.
Proof. rewrite <- sqrt_half_sqr at 2. ring. Qed.

Lemma gell_mann_2_wf : wf_basis gell_mann_2.
Proof. reflexivity. Qed.

Ltac below4 x H :=
  destruct x as [| [| [| [| x]]]]; [ | | | | exfalso; simpl in H; lia].
Ltac below2 i H :=
  destruct i as [| [| i]]; [ | | exfalso; simpl in H; lia].

Lemma gell_mann_2_hermitian : hermitian gell_mann_2.
Proof.
  intros x i j Hx Hi Hj.
  below4 x Hx; below2 i Hi; below2 j Hj;
    apply C_eq; simpl; ring.
Qed.

(** Closes a goal between real polynomials in [/ sqrt 2] and
    [sqrt (1/2)], whose squares are [1/2]. *)
Ltac sqrt_half :=
  ring_simplify; rewrite ?inv_sqrt2_pow, ?sqrt_half_pow; lra.

Lemma gell_mann_2_orthonormal : orthonormal gell_mann_2.
Proof.
  intros x y Hx Hy.
  below4 x Hx; below4 y Hy;
    apply C_eq; cbn; sqrt_half.
Qed.

Lemma gell_mann_2_identity_first : identity_first gell_mann_2.
Proof.
  split; [simpl; lia |].
  intros i j Hi Hj.
  replace (INR (dim_hilbert gell_mann_2)) with 2 by (simpl; lra).
  below2 i Hi; below2 j Hj; reflexivity.
Qed.

Lemma gell_mann_2_uniform : uniform 2 [gell_mann_2].
Proof. constructor; [split; reflexivity | constructor]. Qed.

(** *** C4: amplitude damping with [total_rate = 0.5] *)

Lemma amp_damping_shape (p : R) : shape (amp_damping_kraus p) = [2; 2; 2]%nat.
Proof. reflexivity. Qed.

Lemma amp_damping_half_entries (x y : nat) :
  (x < 4)%nat -> (y < 4)%nat ->
  re (ptm_entry1 (amp_damping_kraus (1 / 2)) gell_mann_2 gell_mann_2 x y)
  = entry damping_half x y.
Proof.
  intros Hx Hy.
  below4 x Hx; below4 y Hy;
    cbn; replace (1 - 1 / 2) with (1 / 2) by lra; sqrt_half.
Qed.

(** C4.  [amp_damping(total_rate=0.5)] is the operation
    [Operation.from_kraus] makes of a Kraus stack whose PTM in the
    Gell-Mann basis of a qubit, computed by [single_kraus_to_ptm] and
    by [kraus_to_ptm], is the matrix
    [[1,0,0,0],[0,sqrt 0.5,0,0],[0,0,sqrt 0.5,0],[0.5,0,0,0.5]]
    (exactly, hence within every tolerance); it is also the matrix
    that [amp_damping(exc_rate=0, damp_rate=0.5)] hands to
    [Operation.from_ptm]. *)
Theorem amp_damping_half_ptm :
  exists K p1 pn,
    amp_damping (Some (1 / 2)) None None = Ok (from_kraus K bases1_default)
    /\ single_kraus_to_ptm K gell_mann_2 gell_mann_2 = Ok p1
    /\ kraus_to_ptm K [gell_mann_2] [gell_mann_2] = Ok pn
    /\ shape p1 = [4; 4]%nat /\ shape pn = [4; 4]%nat
    /\ (forall x y, (x < 4)%nat -> (y < 4)%nat ->
          item p1 [x; y] = RtoC (entry damping_half x y)
          /\ item pn [x; y] = RtoC (entry damping_half x y))
    /\ amp_damping None (Some 0) (Some (1 / 2))
       = Ok (from_ptm (array2 (map (map RtoC) damping_half)) [gell_mann 2]).
Proof.
  destruct (single_kraus_contraction 2 (amp_damping_kraus (1 / 2))
              gell_mann_2 gell_mann_2)
    as (p1 & Hp1 & Hs1 & Hi1); try reflexivity.
  destruct (kraus_to_ptm_contraction 2 2 (amp_damping_kraus (1 / 2))
              [gell_mann_2] [gell_mann_2])
    as (pn & Hpn & Hsn & _ & Hin);
    try reflexivity; try exact gell_mann_2_uniform; try discriminate.
  { cbn [length]. lia. }
  exists (amp_damping_kraus (1 / 2)), p1, pn.
  split; [reflexivity |]. repeat split; try assumption.
  - rewrite Hi1. f_equal. now apply amp_damping_half_entries.
  - pose proof (Hin [x] [y] eq_refl eq_refl) as Hxy.
    cbn [app] in Hxy. rewrite Hxy, ptm_entry_single. f_equal.
    now apply amp_damping_half_entries.
  - unfold amp_damping, amp_damping_ptm, damping_half.
    replace (1 - (0 + 1 / 2)) with (1 / 2) by lra.
    replace (2 * (1 / 2) - (0 + 1 / 2)) with (1 / 2) by lra.
    reflexivity.
Qed.

(** *** The theorems of the algebra at the amplitude-damping channel *)


Lemma kraus_to_ptm_entries_witness :
  exists ptm,
    kraus_to_ptm (amp_damping_kraus (1 / 2)) [gell_mann_2] [gell_mann_2] = Ok ptm
    /\ shape ptm = map dim_pauli [gell_mann_2] ++ map dim_pauli [gell_mann_2]
    /\ (forall idx, im (item ptm idx) = 0%R)
    /\ forall x y,
         length x = length [gell_mann_2] -> length y = length [gell_mann_2] ->
         item ptm (x ++ y)
         = RtoC (re (ptm_entry (amp_damping_kraus (1 / 2))
                       [gell_mann_2] [gell_mann_2] x y))
         /\ (Forall hermitian [gell_mann_2] -> Forall hermitian [gell_mann_2] ->
             below x (map dim_pauli [gell_mann_2]) ->
             below y (map dim_pauli [gell_mann_2]) ->
             item ptm (x ++ y)
             = ptm_entry (amp_damping_kraus (1 / 2))
                 [gell_mann_2] [gell_mann_2] x y).
Proof.
  apply (kraus_to_ptm_entries 2 2 (amp_damping_kraus (1 / 2))
           [gell_mann_2] [gell_mann_2]).
  - discriminate.
  - cbn [length]. lia.
  - exact gell_mann_2_uniform.
  - exact gell_mann_2_uniform.
  - reflexivity.
  - reflexivity.
Defined.

Lemma ptm_convert_basis_identity_witness :
  exists p r,
    kraus_to_ptm (amp_damping_kraus (1 / 2)) [gell_mann_2] [gell_mann_2] = Ok p
    /\ ptm_convert_basis p [gell_mann_2] [gell_mann_2] [gell_mann_2] [gell_mann_2]
       = Ok r
    /\ shape r = shape p
    /\ forall x w,
         (x < dim_pauli gell_mann_2)%nat -> (w < dim_pauli gell_mann_2)%nat ->
         item r [x; w] = item p [x; w]
         /\ Rabs (re (item r [x; w]) - re (item p [x; w])) <= 1 / 10 ^ 10.
Proof.
  apply (ptm_convert_basis_identity 2 (amp_damping_kraus (1 / 2)) gell_mann_2).
  - exact gell_mann_2_wf.
  - exact gell_mann_2_orthonormal.
  - reflexivity.
Defined.


(** *** C5: a qubit next to a qutrit *)

(** The claim at a qubit and a qutrit: the tuples have the same
    length and the Kraus operator has dimension [6 = 2 * 3], the
    product of the Hilbert dimensions, yet [kraus_to_ptm] raises:
    it reshapes the stack to [[1, 2, 2, 2, 2]], with the dimension of
    the first basis for every subsystem. *)
Lemma qubit_qutrit_raises :
  let bases := [gell_mann_2; computational 3] in
  length bases = length bases
  /\ Forall wf_basis bases
  /\ shape (identity_kraus 6) = [1; 6; 6]%nat
  /\ hilbert_dim bases = 6%nat
  /\ kraus_to_ptm (identity_kraus 6) bases bases = Raise ValueError.
Proof.
  repeat split; repeat constructor.
Qed.

(** C1 at a qutrit next to a qubit: a stack of one Kraus operator on
    the product space (of dimension [6 = 3 * 2]) and basis tuples of
    length 2, yet [kraus_to_ptm] returns no tensor: it reshapes the
    stack to [[1, 3, 3, 3, 3]]. *)
Lemma qutrit_qubit_no_tensor :
  let bases := [computational 3; gell_mann_2] in
  Forall wf_basis bases
  /\ length bases = 2%nat
  /\ shape (identity_kraus 6) = [1%nat; hilbert_dim bases; hilbert_dim bases]
  /\ kraus_to_ptm (identity_kraus 6) bases bases = Raise ValueError.
Proof.
  repeat split; repeat constructor.
Qed.





(** The four cases of C5: tuples of different lengths; a 3 x 3 Kraus
    operator on a qubit; nine qubits; and a qubit with the Kraus
    operators of amplitude damping, where the call returns. *)
Lemma kraus_to_ptm_raises_witness :
  kraus_to_ptm (amp_damping_kraus (1 / 2)) [gell_mann_2] [gell_mann_2; gell_mann_2]
  = Raise ValueError
  /\ kraus_to_ptm (identity_kraus 3) [gell_mann_2] [gell_mann_2] = Raise ValueError
  /\ raises (kraus_to_ptm (identity_kraus 512)
               (repeat gell_mann_2 9) (repeat gell_mann_2 9)) = true
  /\ exists ptm,
       kraus_to_ptm (amp_damping_kraus (1 / 2)) [gell_mann_2] [gell_mann_2] = Ok ptm.
Proof.
  split; [| split; [| split]].
  - apply (kraus_to_ptm_raises (amp_damping_kraus (1 / 2))
             [gell_mann_2] [gell_mann_2; gell_mann_2]).
    + discriminate.
    + cbn [length]. lia.
  - apply (kraus_to_ptm_raises (identity_kraus 3) [gell_mann_2] [gell_mann_2])
      with (Z := 1%nat) (D := 3%nat).
    + discriminate.
    + reflexivity.
    + reflexivity.
    + lia.
    + cbn. lia.
  - apply (kraus_to_ptm_raises (identity_kraus 512)
             (repeat gell_mann_2 9) (repeat gell_mann_2 9))
      with (Z := 1%nat).
    + discriminate.
    + reflexivity.
    + reflexivity.
    + cbn [repeat length]. lia.
  - apply (kraus_to_ptm_raises (amp_damping_kraus (1 / 2))
             [gell_mann_2] [gell_mann_2])
      with (Z := 2%nat).
    + discriminate.
    + reflexivity.
    + reflexivity.
    + cbn [length]. lia.
    + exact gell_mann_2_uniform.
    + exact gell_mann_2_uniform.
Defined.

End QubitsFacts.
(** * Properties of the backend *)

Module Dm10Facts.

Import stdpp.base stdpp.gmap.
Import Dm10.
Local Open Scope Z_scope.

(** ** Arithmetic of sizes *)

Lemma shl1_nonneg (k : Z) : 0 <= k -> shl1 k = Ok (2 ^ k).
Proof.
  intros Hk. unfold shl1.
  destruct (Z.ltb_spec k 0) as [Hlt | _]; [lia |].
  now rewrite Z.shiftl_1_l.
Qed.

Lemma pow2_double (n : Z) : 0 <= n -> 2 ^ (2 * n) = 4 ^ n.
Proof. intros Hn. rewrite Z.pow_mul_r by lia. reflexivity. Qed.

Lemma pow4_pos (n : Z) : 0 <= n -> 0 < 4 ^ n.
Proof. intros Hn. apply Z.pow_pos_nonneg; lia. Qed.

Lemma pow4_succ (n : Z) : 0 <= n -> 4 ^ (n + 1) = 4 * 4 ^ n.
Proof. intros Hn. rewrite Z.pow_add_r by lia. lia. Qed.

Lemma pow4_mono (a b : Z) : 0 <= a <= b -> 4 ^ a <= 4 ^ b.
Proof. intros H. apply Z.pow_le_mono_r; lia. Qed.

Lemma elems_bytes (k : Z) : elems (k * 8) = Z.to_nat k.
Proof. unfold elems. now rewrite Z.div_mul by lia. Qed.

Lemma in_bounds_intro (len : nat) (off k : Z) :
  0 <= off -> 0 <= k -> off + k <= Z.of_nat len ->
  in_bounds len (off * 8) (k * 8) = true.
Proof.
  intros Ho Hk Hle. unfold in_bounds.
  rewrite !Z.mod_mul by lia.
  repeat (apply andb_true_intro; split);
    try (apply Z.leb_le; lia); reflexivity.
Qed.

Lemma length_launch {A : Type} (k : nat -> A) (buf : list A) :
  length (launch k buf) = length buf.
Proof. unfold launch. now rewrite length_map, length_seq. Qed.

(** ** The representation invariant of a [Density] *)

Lemma wf_set_buf (s : Density) (b : list float64) :
  wf s -> length b = length (gpudata (data s)) -> wf (set_buf s b).
Proof.
  intros (Hn & Hs & Hc) Hlen. unfold wf, set_buf, set_data, size in *; simpl.
  rewrite Hlen. auto.
Qed.

Lemma set_no_qubits_ok (s : Density) (n : Z) :
  0 <= n ->
  _set_no_qubits s n =
    Ok {| allocated_qubits := Z.max (allocated_qubits s) n;
          allocated_diag := allocated_diag s;
          no_qubits := n;
          _size := 4 ^ n;
          _blocksize := 2 ^ 8;
          _gridsize := 2 ^ Z.max 0 (2 * n - 8);
          data := data s;
          diag_work := diag_work s |}.
Proof.
  intros Hn. unfold _set_no_qubits.
  rewrite shl1_nonneg by lia. simpl. now rewrite pow2_double.
Qed.

(** ** Device copies *)

Lemma in_bounds_elems (len : nat) (off nb : Z) :
  in_bounds len off nb = true ->
  0 <= off /\ 0 <= nb /\ (elems off + elems nb <= len)%nat.
Proof.
  unfold in_bounds, elems. intros H.
  repeat (apply andb_prop in H; destruct H as [H ?]).
  repeat match goal with
         | E : (_ <=? _) = true |- _ => apply Z.leb_le in E
         | E : (_ =? _) = true |- _ => apply Z.eqb_eq in E
         end.
  repeat split; try lia.
  Z.div_mod_to_equations. lia.
Qed.

Lemma length_memcpy (dst src : list float64) (doff soff nb : Z) (b : list float64) :
  memcpy_dtod dst doff src soff nb = Ok b -> length b = length dst.
Proof.
  unfold memcpy_dtod.
  destruct (in_bounds (length dst) doff nb) eqn:Hd; [| discriminate].
  destruct (in_bounds (length src) soff nb) eqn:Hs; [| discriminate].
  simpl. intros [= <-].
  apply in_bounds_elems in Hd as (_ & _ & Hd).
  apply in_bounds_elems in Hs as (_ & _ & Hs).
  rewrite !length_app, !length_firstn, !length_skipn. lia.
Qed.

Lemma length_memset (dst : list float64) (doff nb : Z) (b : list float64) :
  memset_d8 dst doff nb = Ok b -> length b = length dst.
Proof.
  unfold memset_d8.
  destruct (in_bounds (length dst) doff nb) eqn:Hd; [| discriminate].
  intros [= <-].
  apply in_bounds_elems in Hd as (_ & _ & Hd).
  rewrite !length_app, length_firstn, repeat_length, length_skipn. lia.
Qed.

Lemma firstn_keep_prefix (A : Type) (k : nat) (l rest : list A) :
  (k <= length l)%nat -> firstn k (firstn k l ++ rest) = firstn k l.
Proof.
  intros Hk. rewrite firstn_app, firstn_firstn, Nat.min_id.
  rewrite length_firstn, Nat.min_l by lia.
  rewrite Nat.sub_diag. simpl. apply app_nil_r.
Qed.

(** A copy to the start of a buffer makes its front the source's. *)
Lemma memcpy_front (dst src : list float64) (nb : Z) (b : list float64) :
  memcpy_dtod dst 0 src 0 nb = Ok b ->
  firstn (elems nb) b = firstn (elems nb) src.
Proof.
  unfold memcpy_dtod.
  destruct (in_bounds (length dst) 0 nb) eqn:Hd; [| discriminate].
  destruct (in_bounds (length src) 0 nb) eqn:Hs; [| discriminate].
  simpl. intros [= <-].
  apply in_bounds_elems in Hs as (_ & _ & Hs).
  change (elems 0) with 0%nat in *. simpl in *.
  apply firstn_keep_prefix. lia.
Qed.

(** Zeroing from an offset on leaves what lies before the offset. *)
Lemma memset_keeps_front (dst : list float64) (doff nb : Z) (b : list float64) :
  memset_d8 dst doff nb = Ok b ->
  firstn (elems doff) b = firstn (elems doff) dst.
Proof.
  unfold memset_d8.
  destruct (in_bounds (length dst) doff nb) eqn:Hd; [| discriminate].
  intros [= <-].
  apply in_bounds_elems in Hd as (_ & _ & Hd).
  apply firstn_keep_prefix. lia.
Qed.

(** ** [add_ancilla] *)

Lemma add_ancilla_wf (s s1 : Density) (anc_st : Z) :
  wf s -> add_ancilla s anc_st = Ok s1 ->
  wf s1 /\ no_qubits s1 = no_qubits s + 1
  /\ allocated_qubits s1 = Z.max (allocated_qubits s) (no_qubits s1).
Proof.
  intros (Hn & Hs & Hc). unfold add_ancilla.
  destruct (Z.eqb_spec (allocated_qubits s) (no_qubits s)) as [Heq | Hne].
  - destruct (memcpy_dtod _ _ _ _ _) as [b |] eqn:Hcp; [| discriminate].
    simpl. rewrite set_no_qubits_ok by lia. intros [= <-]. simpl.
    apply length_memcpy in Hcp. unfold ga_zeros in Hcp. simpl in Hcp.
    rewrite repeat_length in Hcp.
    unfold wf, size; simpl. repeat split; try lia.
    rewrite Hcp, Hs, Heq, Z.max_r by lia.
    rewrite pow4_succ by lia.
    assert (0 < 4 ^ no_qubits s) by (apply pow4_pos; lia). lia.
  - assert (Hlt : no_qubits s + 1 <= allocated_qubits s) by lia.
    assert (Hgoal : forall s2 : Density,
               _set_no_qubits s2 (no_qubits s2 + 1) = Ok s1 ->
               no_qubits s2 = no_qubits s ->
               allocated_qubits s2 = allocated_qubits s ->
               length (gpudata (data s2)) = length (gpudata (data s)) ->
               wf s1 /\ no_qubits s1 = no_qubits s + 1
               /\ allocated_qubits s1 = Z.max (allocated_qubits s) (no_qubits s1)).
    { intros s2 E E1 E2 E3. rewrite set_no_qubits_ok in E by lia.
      injection E as <-. unfold wf, size in *; simpl.
      rewrite E1, E2, E3, Z.max_l by lia. repeat split; try lia. }
    destruct (anc_st =? 0).
    + destruct (memset_d8 _ _ _) as [b |] eqn:Hms; [| discriminate]. simpl.
      apply length_memset in Hms.
      destruct (anc_st =? 1).
      * destruct (memcpy_dtod _ _ _ _ _) as [b1 |] eqn:Hcp; [| discriminate]. simpl.
        destruct (memset_d8 b1 _ _) as [b2 |] eqn:Hms2; [| discriminate]. simpl.
        apply length_memcpy in Hcp. apply length_memset in Hms2. simpl in *.
        intros E. apply (Hgoal _ E); simpl; congruence.
      * simpl. intros E. apply (Hgoal _ E); simpl; congruence.
    + simpl. destruct (anc_st =? 1).
      * destruct (memcpy_dtod _ _ _ _ _) as [b1 |] eqn:Hcp; [| discriminate]. simpl.
        destruct (memset_d8 b1 _ _) as [b2 |] eqn:Hms2; [| discriminate]. simpl.
        apply length_memcpy in Hcp. apply length_memset in Hms2.
        intros E. apply (Hgoal _ E); simpl; congruence.
      * simpl. intros E. apply (Hgoal _ E); reflexivity.
Qed.

Lemma memcpy_ok (dst src : list float64) (doff soff k : Z) :
  0 <= doff -> 0 <= soff -> 0 <= k ->
  doff + k <= Z.of_nat (length dst) -> soff + k <= Z.of_nat (length src) ->
  exists b, memcpy_dtod dst (doff * 8) src (soff * 8) (k * 8) = Ok b.
Proof.
  intros. unfold memcpy_dtod. rewrite !in_bounds_intro by lia. simpl. eauto.
Qed.

Lemma memset_ok (dst : list float64) (doff k : Z) :
  0 <= doff -> 0 <= k -> doff + k <= Z.of_nat (length dst) ->
  exists b, memset_d8 dst (doff * 8) (k * 8) = Ok b.
Proof.
  intros. unfold memset_d8. rewrite in_bounds_intro by lia. eauto.
Qed.

(** Adding an ancilla in state 0 succeeds on every well-formed state
    and leaves the first [4 ^ no_qubits] entries of the data alone. *)
Lemma add_ancilla_0 (s : Density) :
  wf s ->
  exists s1, add_ancilla s 0 = Ok s1
    /\ firstn (Z.to_nat (4 ^ no_qubits s)) (gpudata (data s1))
       = firstn (Z.to_nat (4 ^ no_qubits s)) (gpudata (data s)).
Proof.
  intros (Hn & Hs & Hc).
  assert (Hpos : 0 < 4 ^ no_qubits s) by (apply pow4_pos; lia).
  assert (Hmono : 4 ^ no_qubits s <= 4 ^ allocated_qubits s)
    by (apply pow4_mono; lia).
  unfold size in Hc.
  unfold add_ancilla. rewrite pow2_double by lia.
  destruct (Z.eqb_spec (allocated_qubits s) (no_qubits s)) as [Heq | Hne].
  - change (0 * 3 * (4 ^ no_qubits s * 8)) with (0 * 8).
    change 0 with (0 * 8) at 2.
    destruct (memcpy_ok (gpudata (ga_zeros (_size s * 4))) (gpudata (data s))
                0 0 (4 ^ no_qubits s)) as [b Hb]; try lia.
    { unfold ga_zeros; simpl. rewrite repeat_length, Hs. lia. }
    rewrite Hb. simpl. rewrite set_no_qubits_ok by lia.
    eexists; split; [reflexivity |]. simpl.
    apply memcpy_front in Hb. now rewrite elems_bytes in Hb.
  - assert (Hlt : no_qubits s + 1 <= allocated_qubits s) by lia.
    assert (Hbig : 4 * 4 ^ no_qubits s <= 4 ^ allocated_qubits s).
    { rewrite <- pow4_succ by lia. apply pow4_mono; lia. }
    simpl.
    replace (3 * (4 ^ no_qubits s * 8)) with (3 * 4 ^ no_qubits s * 8) by lia.
    destruct (memset_ok (gpudata (data s)) (4 ^ no_qubits s) (3 * 4 ^ no_qubits s))
      as [b Hb]; try lia.
    rewrite Hb. simpl. rewrite set_no_qubits_ok by lia.
    eexists; split; [reflexivity |]. simpl.
    apply memset_keeps_front in Hb. now rewrite elems_bytes in Hb.
Qed.

(** ** [project_measurement] *)

Lemma validate_bit_ok (s : Density) (bit : Z) :
  0 <= bit < no_qubits s -> _validate_bit s bit = Ok tt.
Proof.
  intros H. unfold _validate_bit.
  destruct (Z.ltb_spec bit 0); [lia |].
  destruct (Z.leb_spec (no_qubits s) bit); [lia | reflexivity].
Qed.

Lemma validate_bit_raises (s : Density) (bit : Z) :
  ~ (0 <= bit < no_qubits s) -> _validate_bit s bit = Raise ValueError.
Proof.
  intros H. unfold _validate_bit.
  destruct (Z.ltb_spec bit 0); [reflexivity |].
  destruct (Z.leb_spec (no_qubits s) bit); [reflexivity | lia].
Qed.

Lemma validate_bit_inv (s : Density) (bit : Z) (u : unit) :
  _validate_bit s bit = Ok u -> 0 <= bit < no_qubits s.
Proof.
  unfold _validate_bit.
  destruct (Z.ltb_spec bit 0); [discriminate |].
  destruct (Z.leb_spec (no_qubits s) bit); [discriminate | lia].
Qed.

Lemma validate_bit_exn (s : Density) (bit : Z) (e : exn) :
  _validate_bit s bit = Raise e -> e = ValueError.
Proof.
  unfold _validate_bit. destruct (_ || _); [intros [= <-]; reflexivity | discriminate].
Qed.

Lemma project_measurement_wf (dev : device) (s s1 : Density) (bit state : Z) :
  wf s -> project_measurement dev s bit state = Ok s1 ->
  wf s1 /\ no_qubits s1 = no_qubits s - 1
  /\ allocated_qubits s1 = allocated_qubits s.
Proof.
  intros Hwf. unfold project_measurement.
  destruct (_validate_bit s bit) as [u |] eqn:Hv; [| discriminate].
  apply validate_bit_inv in Hv. simpl.
  set (s' := if negb (bit =? no_qubits s - 1) then _ else s).
  assert (Hs' : wf s' /\ no_qubits s' = no_qubits s
                /\ allocated_qubits s' = allocated_qubits s).
  { subst s'. destruct (negb _); [| auto].
    split; [| split; reflexivity].
    apply wf_set_buf; [assumption | apply length_launch]. }
  clearbody s'. destruct Hs' as ((Hn & Hs & Hc) & En & Ea).
  assert (Hgoal : forall s2 : Density,
             _set_no_qubits s2 (no_qubits s2 - 1) = Ok s1 ->
             no_qubits s2 = no_qubits s' ->
             allocated_qubits s2 = allocated_qubits s' ->
             length (gpudata (data s2)) = length (gpudata (data s')) ->
             wf s1 /\ no_qubits s1 = no_qubits s - 1
             /\ allocated_qubits s1 = allocated_qubits s).
  { intros s2 E E1 E2 E3. rewrite set_no_qubits_ok in E by lia.
    injection E as <-. unfold wf, size in *; simpl.
    rewrite E1, E2, E3, Z.max_l by lia. repeat split; try lia. }
  destruct (state =? 1).
  - destruct (memcpy_dtod _ _ _ _ _) as [b |] eqn:Hcp; [| discriminate]. simpl.
    apply length_memcpy in Hcp.
    intros E. apply (Hgoal _ E); simpl; congruence.
  - simpl. intros E. apply (Hgoal _ E); reflexivity.
Qed.

(** Projecting the highest subsystem on outcome 0 is a pure truncation. *)
Lemma project_last_0 (dev : device) (s : Density) :
  1 <= no_qubits s ->
  exists s1, project_measurement dev s (no_qubits s - 1) 0 = Ok s1
    /\ no_qubits s1 = no_qubits s - 1
    /\ data s1 = data s.
Proof.
  intros Hn. unfold project_measurement.
  rewrite validate_bit_ok by lia. simpl.
  rewrite Z.eqb_refl. simpl.
  rewrite set_no_qubits_ok by lia.
  eexists; split; [reflexivity |]. simpl. auto.
Qed.

(** ** The invariant holds of every object *)

Lemma init_wf (dev : device) (n : Z) (arg : data_arg) (s : Density) :
  __init__ dev n arg = Ok s ->
  wf s /\ no_qubits s = n /\ allocated_qubits s = n /\ size (data s) = 4 ^ n.
Proof.
  unfold __init__, _set_no_qubits, shl1.
  destruct (Z.ltb_spec (2 * n) 0) as [| Hn]; [discriminate |].
  simpl. rewrite Z.shiftl_1_l, pow2_double by lia.
  assert (Hpos : 0 < 4 ^ n) by (apply pow4_pos; lia).
  destruct (15 <? n); [discriminate |]. simpl.
  assert (Hfin : forall d : GPUArray,
             size d = 4 ^ n ->
             forall s0, Ok (set_data
                  {| allocated_qubits := Z.max 0 n; allocated_diag := -1;
                     no_qubits := n; _size := 4 ^ n; _blocksize := 2 ^ 8;
                     _gridsize := 2 ^ Z.max 0 (2 * n - 8);
                     data := ga_zeros 0; diag_work := None |} d) = Ok s0 ->
             wf s0 /\ no_qubits s0 = n /\ allocated_qubits s0 = n
             /\ size (data s0) = 4 ^ n).
  { intros d Hd s0 [= <-]. unfold wf; simpl.
    rewrite Z.max_r by lia. rewrite Hd. repeat split; lia. }
  destruct arg as [| a | g |].
  - apply Hfin. unfold size; simpl. rewrite repeat_length. lia.
  - destruct (shape_eqb _ _); [| discriminate]. simpl.
    apply Hfin. unfold size; simpl.
    rewrite length_launch, length_map, length_seq. lia.
  - destruct (Z.eqb_spec (size g) (4 ^ n)) as [Hg |]; [| discriminate].
    destruct (dtype_eqb _ _); [| discriminate].
    now apply Hfin.
  - discriminate.
Qed.

Lemma alloc_diag_wf (dev : device) (s : Density) :
  wf s -> wf (alloc_diag dev s)
          /\ no_qubits (alloc_diag dev s) = no_qubits s
          /\ data (alloc_diag dev s) = data s.
Proof.
  intros (Hn & Hs & Hc). unfold alloc_diag.
  destruct (allocated_diag s <? no_qubits s); unfold wf; simpl; auto.
  repeat split; try lia.
  assert (4 ^ no_qubits s <= 4 ^ allocated_qubits s) by (apply pow4_mono; lia).
  lia.
Qed.

Lemma set_diag_wf (s : Density) (b : list float64) : wf s -> wf (set_diag s b).
Proof. intros H. exact H. Qed.

Lemma trace_wf (dev : device) (s s1 : Density) (t : float64) :
  wf s -> trace dev s = Ok (s1, t) -> wf s1.
Proof.
  intros Hwf. unfold trace.
  destruct (10 <? no_qubits s); [discriminate |]. simpl.
  intros [= <- _]. apply set_diag_wf. now apply alloc_diag_wf.
Qed.

Lemma call_wf (dev : device) (cache cache' : ptm_cache) (s s' : Density) (o : op) :
  wf s -> call dev (cache, s) o = Ok (cache', s') -> wf s'.
Proof.
  intros Hwf. destruct o as [bit p | b0 b1 p | a | bit st | | | bit |]; simpl.
  - unfold apply_ptm.
    destruct (_validate_bit s bit); [| discriminate]. simpl.
    destruct (cached_ptm _ _ _ _) as [cp |]; [| discriminate]. simpl.
    intros [= _ <-]. apply wf_set_buf; [assumption | apply length_launch].
  - unfold apply_two_ptm.
    destruct (_validate_bit s b0); [| discriminate]. simpl.
    destruct (_validate_bit s b1); [| discriminate]. simpl.
    destruct (cached_ptm _ _ _ _) as [cp |]; [| discriminate]. simpl.
    intros [= _ <-]. apply wf_set_buf; [assumption | apply length_launch].
  - destruct (add_ancilla s a) as [s1 |] eqn:E; [| discriminate]. simpl.
    intros [= _ <-]. eapply add_ancilla_wf; eauto.
  - destruct (project_measurement dev s bit st) as [s1 |] eqn:E; [| discriminate].
    simpl. intros [= _ <-]. eapply project_measurement_wf; eauto.
  - destruct (trace dev s) as [[s1 t] |] eqn:E; [| discriminate]. simpl.
    intros [= _ <-]. eapply trace_wf; eauto.
  - unfold renormalize.
    destruct (trace dev s) as [[s1 t] |] eqn:E; [| discriminate]. simpl.
    intros [= _ <-]. apply wf_set_buf; [eapply trace_wf; eauto |].
    apply length_map.
  - unfold partial_trace.
    destruct (_validate_bit s bit); [| discriminate]. simpl.
    destruct (10 <? no_qubits s); [discriminate |]. simpl.
    intros [= _ <-]. apply set_diag_wf. now apply alloc_diag_wf.
  - intros [= _ <-]. unfold get_diag; simpl.
    apply set_diag_wf. now apply alloc_diag_wf.
Qed.

Lemma reachable_wf (dev : device) (s : Density) : reachable dev s -> wf s.
Proof.
  induction 1 as [n arg s Hinit | cache cache' s s' o _ IH Hcall].
  - now apply init_wf in Hinit.
  - eapply call_wf; eauto.
Qed.

(** ** Concrete objects used to instantiate the statements below *)

Lemma ground1_init (dev : device) : __init__ dev 1 DataNone = Ok ground1.
Proof. reflexivity. Qed.

(** ** C7: an ancilla added in state 0 and projected out again *)

(** C7.  For every state [s] of a [Density], [add_ancilla(0)] followed
    by [project_measurement] of the new, highest subsystem on outcome 0
    succeeds, brings [no_qubits] back to its value in [s], and leaves
    the first [4 ^ no_qubits] entries of the data as they were in [s]. *)
Theorem add_ancilla_project_measurement_restores (dev : device) (s : Density) :
  reachable dev s ->
  exists s1 s2,
    add_ancilla s 0 = Ok s1
    /\ project_measurement dev s1 (no_qubits s1 - 1) 0 = Ok s2
    /\ no_qubits s2 = no_qubits s
    /\ firstn (Z.to_nat (4 ^ no_qubits s)) (gpudata (data s2))
       = firstn (Z.to_nat (4 ^ no_qubits s)) (gpudata (data s)).
Proof.
  intros Hr. apply reachable_wf in Hr.
  destruct (add_ancilla_0 s Hr) as (s1 & Hadd & Hfront).
  destruct (add_ancilla_wf s s1 0 Hr Hadd) as (Hwf1 & Hn1 & _).
  destruct (project_last_0 dev s1) as (s2 & Hproj & Hn2 & Hd2).
  { destruct Hr as (Hn & _). lia. }
  exists s1, s2. repeat split; try assumption.
  - lia.
  - now rewrite Hd2.
Qed.

Lemma add_ancilla_project_measurement_restores_witness :
  reachable idle_device ground1
  /\ exists s1 s2,
       add_ancilla ground1 0 = Ok s1
       /\ project_measurement idle_device s1 (no_qubits s1 - 1) 0 = Ok s2
       /\ no_qubits s2 = no_qubits ground1
       /\ firstn (Z.to_nat (4 ^ no_qubits ground1)) (gpudata (data s2))
          = firstn (Z.to_nat (4 ^ no_qubits ground1)) (gpudata (data ground1)).
Proof.
  assert (H : reachable idle_device ground1)
    by (apply (reach_init idle_device 1 DataNone); reflexivity).
  split; [exact H |].
  exact (add_ancilla_project_measurement_restores idle_device ground1 H).
Defined.

(** ** C8: [allocated_qubits] and the largest qubit count so far *)

Lemma step_no_diag (dev : device) (w : world) (o : op) :
  wf (snd w) -> no_diag o = true ->
  allocated_qubits (snd (step dev w o))
  = Z.max (allocated_qubits (snd w)) (no_qubits (snd (step dev w o)))
  /\ wf (snd (step dev w o)).
Proof.
  destruct w as [cache s]. simpl. intros Hwf Hnd.
  assert (Hsame : allocated_qubits s = Z.max (allocated_qubits s) (no_qubits s))
    by (destruct Hwf as (? & _); lia).
  unfold step.
  destruct (call dev (cache, s) o) as [[cache' s'] |] eqn:Hcall;
    [| simpl; tauto].
  simpl. split; [| eapply call_wf; eauto].
  destruct o as [bit p | b0 b1 p | a | bit st | | | bit |];
    try discriminate; simpl in Hcall.
  - unfold apply_ptm in Hcall.
    destruct (_validate_bit s bit); [| discriminate]. simpl in Hcall.
    destruct (cached_ptm _ _ _ _); [| discriminate]. simpl in Hcall.
    injection Hcall as _ <-. exact Hsame.
  - unfold apply_two_ptm in Hcall.
    destruct (_validate_bit s b0); [| discriminate]. simpl in Hcall.
    destruct (_validate_bit s b1); [| discriminate]. simpl in Hcall.
    destruct (cached_ptm _ _ _ _); [| discriminate]. simpl in Hcall.
    injection Hcall as _ <-. exact Hsame.
  - destruct (add_ancilla s a) as [s1 |] eqn:E; [| discriminate].
    simpl in Hcall. injection Hcall as _ <-.
    now destruct (add_ancilla_wf s s1 a Hwf E) as (_ & _ & Ha).
  - destruct (project_measurement dev s bit st) as [s1 |] eqn:E; [| discriminate].
    simpl in Hcall. injection Hcall as _ <-.
    destruct (project_measurement_wf dev s s1 bit st Hwf E) as (_ & Hn1 & Ha).
    destruct Hwf as (? & _). lia.
Qed.

Lemma history_cons (dev : device) (w : world) (ops : list op) :
  exists rest, history dev w ops = w :: rest.
Proof. destruct ops; simpl; eauto. Qed.

Lemma high_water_cons (w : world) (rest : list world) :
  high_water (w :: rest) = Z.max (no_qubits (snd w)) (high_water rest).
Proof. reflexivity. Qed.

Lemma high_water_without_diag (dev : device) (ops : list op) :
  forall w : world,
    wf (snd w) -> forallb no_diag ops = true ->
    allocated_qubits (snd (final dev w ops))
    = Z.max (allocated_qubits (snd w)) (high_water (history dev w ops)).
Proof.
  induction ops as [| o ops IH]; intros w Hwf Hops.
  - simpl. unfold high_water; simpl. destruct Hwf as (? & _). lia.
  - simpl in Hops. apply andb_prop in Hops as [Ho Hops].
    destruct (step_no_diag dev w o Hwf Ho) as (Hstep & Hwf').
    change (final dev w (o :: ops)) with (final dev (step dev w o) ops).
    change (history dev w (o :: ops)) with (w :: history dev (step dev w o) ops).
    rewrite high_water_cons, (IH _ Hwf' Hops), Hstep.
    destruct (history_cons dev (step dev w o) ops) as [rest ->].
    rewrite high_water_cons. destruct Hwf as (? & _). lia.
Qed.

(** C8.  The claim: after any sequence of operations, [allocated_qubits]
    is the largest value [no_qubits] has had.  The code breaks it:
    [trace] (like [get_diag] and [partial_trace]) assigns
    [self.allocated_qubits = self.no_qubits] whenever it allocates
    [diag_work].  On [Density(1)], after [add_ancilla(0)],
    [project_measurement(1, 0)] and [trace()], [allocated_qubits] is 1
    while [no_qubits] has been 2, on every device. *)
Theorem trace_lowers_allocated_qubits (dev : device) :
  let ops := [AddAncilla 0; ProjectMeasurement 1 0; Trace] in
  __init__ dev 1 DataNone = Ok ground1
  /\ allocated_qubits (snd (final dev (∅, ground1) ops)) = 1
  /\ high_water (history dev (∅, ground1) ops) = 2
  /\ no_qubits (snd (final dev (∅, ground1) ops)) = 1
  /\ allocated_qubits (snd (final dev (∅, ground1) [AddAncilla 0; ProjectMeasurement 1 0])) = 2.
Proof. repeat split. Qed.

(** ** C9: size limits *)

(** C9.  Constructing a [Density] of more than 15 qubits raises
    (ValueError); [trace] on a state of more than 10 qubits raises
    (NotImplementedError); [partial_trace] on such a state raises
    (ValueError for a bad index, NotImplementedError otherwise).  A
    raised call returns no state: nothing is computed. *)
Theorem size_limits_raise (dev : device) :
  (forall n arg, 15 < n -> __init__ dev n arg = Raise ValueError)
  /\ (forall s, 10 < no_qubits s -> trace dev s = Raise NotImplementedError)
  /\ (forall s bit, 10 < no_qubits s ->
        partial_trace dev s bit = Raise ValueError
        \/ partial_trace dev s bit = Raise NotImplementedError).
Proof.
  repeat split.
  - intros n arg Hn. unfold __init__.
    rewrite set_no_qubits_ok by lia. simpl.
    destruct (Z.ltb_spec 15 n); [reflexivity | lia].
  - intros s Hn. unfold trace.
    destruct (Z.ltb_spec 10 (no_qubits s)); [reflexivity | lia].
  - intros s bit Hn. unfold partial_trace.
    destruct (_validate_bit s bit) as [[] | e] eqn:Hv.
    + right. simpl.
      destruct (Z.ltb_spec 10 (no_qubits s)); [reflexivity | lia].
    + left. simpl. revert Hv. unfold _validate_bit.
      destruct (_ || _); [intros [= <-]; reflexivity | discriminate].
Qed.

Lemma size_limits_raise_witness :
  __init__ idle_device 16 DataNone = Raise ValueError
  /\ trace idle_device eleven = Raise NotImplementedError
  /\ (partial_trace idle_device eleven 3 = Raise ValueError
      \/ partial_trace idle_device eleven 3 = Raise NotImplementedError).
Proof.
  destruct (size_limits_raise idle_device) as (Hinit & Htrace & Hpt).
  split; [apply Hinit; lia |].
  split; [apply Htrace; simpl; lia | apply Hpt; simpl; lia].
Defined.

(** ** C10: [copy] *)

Lemma copy_exact (dev : device) (s : Density) :
  0 <= no_qubits s <= 15 ->
  size (data s) = 4 ^ no_qubits s ->
  ga_dtype (data s) = Float64 ->
  exists s', copy dev s = Ok s'
    /\ no_qubits s' = no_qubits s
    /\ gpudata (data s') = gpudata (data s).
Proof.
  intros Hn Hsz Hdt. unfold copy, __init__.
  rewrite set_no_qubits_ok by lia. simpl.
  destruct (Z.ltb_spec 15 (no_qubits s)); [lia |]. simpl.
  unfold size in *; simpl. rewrite Hsz, Z.eqb_refl, Hdt. simpl.
  eexists; split; [reflexivity |]. simpl. auto.
Qed.

(** C10.  The claim: [copy] succeeds on every reachable [Density],
    also after [add_ancilla] and [project_measurement] have left the
    buffer larger than [4 ^ no_qubits].  The code breaks it: [copy]
    hands a copy of the whole buffer to the constructor, which
    requires [data.size == 4 ^ no_qubits].  On [Density(1)] after
    [add_ancilla(0)] and [project_measurement(1, 0)] the buffer has 16
    entries, [no_qubits] is 1, and [copy()] raises ValueError. *)
Theorem copy_raises_after_shrink (dev : device) :
  exists s1 s2,
    __init__ dev 1 DataNone = Ok ground1
    /\ add_ancilla ground1 0 = Ok s1
    /\ project_measurement dev s1 1 0 = Ok s2
    /\ no_qubits s2 = 1
    /\ size (data s2) = 16
    /\ copy dev s2 = Raise ValueError.
Proof. do 2 eexists. repeat split. Qed.

(** ** C6: validation in [apply_ptm] and [apply_two_ptm] *)

(** The subsystem index is validated on every call. *)
Lemma apply_ptm_bad_bit (dev : device) (cache : ptm_cache) (s : Density)
    (bit : Z) (ptm : ndarray) :
  ~ (0 <= bit < no_qubits s) -> apply_ptm dev cache s bit ptm = Raise ValueError.
Proof.
  intros H. unfold apply_ptm. now rewrite validate_bit_raises.
Qed.

Lemma apply_two_ptm_bad_bit (dev : device) (cache : ptm_cache) (s : Density)
    (bit0 bit1 : Z) (ptm : ndarray) :
  ~ (0 <= bit0 < no_qubits s) \/ ~ (0 <= bit1 < no_qubits s) ->
  apply_two_ptm dev cache s bit0 bit1 ptm = Raise ValueError.
Proof.
  intros H. unfold apply_two_ptm.
  destruct (_validate_bit s bit0) as [[] |] eqn:H0.
  - apply validate_bit_inv in H0. destruct H as [H | H]; [tauto |].
    simpl. now rewrite validate_bit_raises.
  - simpl. revert H0. unfold _validate_bit.
    destruct (_ || _); [intros [= <-]; reflexivity | discriminate].
Qed.

Lemma validate_ptm_raises (ptm : ndarray) (target : list Z) :
  shape_eqb (shape ptm) target = false \/ dtype_eqb (dtype_of ptm) Float64 = false ->
  _validate_ptm ptm target = Raise ValueError.
Proof.
  unfold _validate_ptm. intros [H | H].
  - now rewrite H.
  - rewrite H. now destruct (shape_eqb _ _).
Qed.

(** The shape and dtype are validated when the bytes are not cached. *)
Lemma apply_ptm_miss (dev : device) (cache : ptm_cache) (s : Density)
    (bit : Z) (ptm : ndarray) :
  cache !! hash dev (tobytes ptm) = None ->
  shape_eqb (shape ptm) [4; 4] = false \/ dtype_eqb (dtype_of ptm) Float64 = false ->
  apply_ptm dev cache s bit ptm = Raise ValueError.
Proof.
  intros Hmiss Hbad. unfold apply_ptm, cached_ptm.
  destruct (_validate_bit s bit) as [[] | e] eqn:Hv; simpl.
  - rewrite Hmiss, validate_ptm_raises by assumption. reflexivity.
  - now rewrite (validate_bit_exn s bit e Hv).
Qed.

(** On a cache hit neither is looked at. *)
Lemma apply_ptm_hit (dev : device) (cache : ptm_cache) (s : Density)
    (bit : Z) (ptm ptm_gpu : ndarray) :
  0 <= bit < no_qubits s ->
  cache !! hash dev (tobytes ptm) = Some ptm_gpu ->
  exists s', apply_ptm dev cache s bit ptm = Ok (cache, s').
Proof.
  intros Hbit Hhit. unfold apply_ptm, cached_ptm.
  rewrite validate_bit_ok by assumption. simpl. rewrite Hhit. simpl.
  eauto.
Qed.

Lemma apply_two_ptm_hit (dev : device) (cache : ptm_cache) (s : Density)
    (bit0 bit1 : Z) (ptm ptm_gpu : ndarray) :
  0 <= bit0 < no_qubits s -> 0 <= bit1 < no_qubits s ->
  cache !! hash dev (tobytes ptm) = Some ptm_gpu ->
  exists s', apply_two_ptm dev cache s bit0 bit1 ptm = Ok (cache, s').
Proof.
  intros Hbit0 Hbit1 Hhit. unfold apply_two_ptm, cached_ptm.
  rewrite !validate_bit_ok by assumption. simpl. rewrite Hhit. simpl.
  eauto.
Qed.

(** C6.  The claim: a ptm of the wrong shape or dtype raises on every
    call, also when its bytes are already in the cache.  The code
    breaks it: [_validate_ptm] runs only in the [except KeyError]
    branch, and the cache is keyed by the bytes alone and shared by
    both methods.  On [Density(2)] with an empty cache,
    [apply_two_ptm(0, 1, P)] with a float64 [P] of shape (16, 16)
    succeeds and caches [P]; then [apply_ptm(0, P)] returns normally
    although [P] fails [_validate_ptm(P, (4, 4))]. *)
Theorem cache_hit_skips_validation (dev : device) :
  __init__ dev 2 DataNone = Ok ground2
  /\ _validate_ptm zeros_16_16 [4; 4] = Raise ValueError
  /\ exists c1 s1 s2,
       apply_two_ptm dev ∅ ground2 0 1 zeros_16_16 = Ok (c1, s1)
       /\ apply_ptm dev c1 s1 0 zeros_16_16 = Ok (c1, s2).
Proof.
  split; [reflexivity |]. split; [reflexivity |].
  unfold apply_two_ptm, apply_ptm, cached_ptm. simpl.
  rewrite lookup_empty. simpl.
  do 3 eexists. split; [reflexivity |]. simpl.
  rewrite lookup_insert_eq. simpl. reflexivity.
Qed.

End Dm10Facts.

(** * Laws of the Kraus/PTM algebra *)

Module AlgebraLaws.

Import Np Algebra Linalg Qubits CxFacts NpFacts AlgebraFacts QubitsFacts.

(** ** The two conversions from Kraus operators *)

(** X1.  On one subsystem [kraus_to_ptm] with one-element tuples and
    [single_kraus_to_ptm] return the same matrix: for bases of one
    Hilbert dimension [d] and a Kraus stack of shape [(Z, d, d)] both
    return, with the same shape and the same entries. *)
Theorem kraus_to_ptm_single (Z : nat) (kraus : ndarray)
    (basis_in basis_out : Basis) :
  wf_basis basis_in -> wf_basis basis_out ->
  dim_hilbert basis_out = dim_hilbert basis_in ->
  shape kraus = [Z; dim_hilbert basis_in; dim_hilbert basis_in] ->
  exists p1 pn,
    single_kraus_to_ptm kraus basis_in basis_out = Ok p1
    /\ kraus_to_ptm kraus [basis_in] [basis_out] = Ok pn
    /\ shape p1 = shape pn
    /\ forall x y, item p1 [x; y] = item pn [x; y].
Proof.
  intros Hwi Hwo Hd Hk.
  destruct (single_kraus_contraction Z kraus basis_in basis_out Hwi Hwo Hd Hk)
    as (p1 & Hp1 & Hs1 & Hi1).
  destruct (kraus_to_ptm_contraction (dim_hilbert basis_in) Z kraus
              [basis_in] [basis_out])
    as (pn & Hpn & Hsn & _ & Hin).
  - discriminate.
  - cbn [length]. lia.
  - constructor; [auto | constructor].
  - constructor; [auto | constructor].
  - reflexivity.
  - cbn [length]. now rewrite Nat.pow_1_r.
  - exists p1, pn. repeat split; try assumption.
    + now rewrite Hs1, Hsn.
    + intros x y. pose proof (Hin [x] [y] eq_refl eq_refl) as Hxy.
      cbn [app] in Hxy. now rewrite Hi1, Hxy, ptm_entry_single.
Qed.

Lemma kraus_to_ptm_single_witness :
  wf_basis gell_mann_2 /\ wf_basis (computational 2)
  /\ dim_hilbert (computational 2) = dim_hilbert gell_mann_2
  /\ exists p1 pn,
       single_kraus_to_ptm (amp_damping_kraus (1 / 2)) gell_mann_2 (computational 2)
       = Ok p1
       /\ kraus_to_ptm (amp_damping_kraus (1 / 2)) [gell_mann_2] [computational 2]
          = Ok pn
       /\ shape p1 = shape pn
       /\ forall x y, item p1 [x; y] = item pn [x; y].
Proof.
  split; [reflexivity |]. split; [reflexivity |]. split; [reflexivity |].
  exact (kraus_to_ptm_single 2 (amp_damping_kraus (1 / 2)) gell_mann_2
           (computational 2) eq_refl eq_refl eq_refl eq_refl).
Defined.

(** ** Empty tuples of bases *)

(** X2.  Neither function takes an empty tuple of bases.  [kraus_to_ptm]
    with no input basis raises IndexError (at [bases_in[0]], before it
    compares the lengths); [ptm_convert_basis] raises TypeError when
    [bo_new] or [bo_old] is empty ([reduce] of an empty sequence) and
    raises in any case when one of the four tuples is empty. *)
Theorem empty_bases_raise (kraus ptm : ndarray) (b1 b2 b3 : list Basis) :
  kraus_to_ptm kraus [] b1 = Raise IndexError
  /\ ptm_convert_basis ptm b1 b2 b3 [] = Raise TypeError
  /\ (b3 <> [] -> ptm_convert_basis ptm b1 [] b2 b3 = Raise TypeError)
  /\ raises (ptm_convert_basis ptm [] b1 b2 b3) = true
  /\ raises (ptm_convert_basis ptm b1 b2 [] b3) = true.
Proof.
  split; [reflexivity |]. split; [reflexivity |]. split; [| split].
  - intros Hne. unfold ptm_convert_basis.
    destruct b3 as [| b b3]; [contradiction | reflexivity].
  - unfold ptm_convert_basis.
    destruct (bases_kron b3); [| reflexivity]. cbn [Py.bind].
    destruct (bases_kron b1); [| reflexivity]. cbn [Py.bind].
    destruct (reshape2 _ _ _); reflexivity.
  - unfold ptm_convert_basis.
    destruct (bases_kron b3); [| reflexivity]. cbn [Py.bind].
    destruct (bases_kron b2); [| reflexivity]. cbn [Py.bind].
    destruct (reshape2 _ _ _); [| reflexivity]. cbn [Py.bind].
    destruct (bases_kron b1); reflexivity.
Qed.

(** ** The identity channel *)

Lemma mmult_kron (d m : nat) (A B A' B' : Matrix) (i j : nat) :
  Mmult (d * m) (kronm m A B) (kronm m A' B') i j
  = kronm m (Mmult d A A') (Mmult m B B') i j.
Proof.
  unfold Mmult, kronm. rewrite sum_n_mul_index.
  rewrite <- sum_n_mul_r. apply sum_n_ext. intros k1 _.
  rewrite <- sum_n_mul_l. apply sum_n_ext. intros k2 Hk2.
  rewrite Nat.div_add_l, (Nat.div_small k2 m), Nat.add_0_r by lia.
  rewrite (Nat.add_comm (k1 * m)), Nat.Div0.mod_add, (Nat.mod_small k2 m) by lia.
  ring.
Qed.

Lemma mtrace_ext (D : nat) (A B : Matrix) :
  (forall i, i < D -> A i i = B i i) -> Mtrace D A = Mtrace D B.
Proof. intros H. unfold Mtrace. now apply sum_n_ext. Qed.

(** The trace of a product of product operators is the product of the
    traces, subsystem by subsystem. *)
Lemma trace_element_n (d : nat) (bases : list Basis) :
  uniform d bases -> Forall orthonormal bases ->
  forall x y,
    below x (map dim_pauli bases) -> below y (map dim_pauli bases) ->
    Mtrace (d ^ length bases)
      (Mmult (d ^ length bases) (element_n bases x) (element_n bases y))
    = if list_eq_dec Nat.eq_dec x y then C1 else C0.
Proof.
  induction 1 as [| b bases [_ Hd] Hrest IH]; intros Horth x y Hx Hy.
  - inversion Hx; inversion Hy; subst. cbn. apply C_eq; simpl; ring.
  - inversion Horth as [| ? ? Hob Horth']; subst.
    inversion Hx as [| x0 dp x' dps Hx0 Hx']; subst.
    inversion Hy as [| y0 dp y' dps Hy0 Hy']; subst.
    cbn [length Nat.pow element_n].
    rewrite (hilbert_dim_uniform (dim_hilbert b) bases Hrest).
    set (m := dim_hilbert b ^ length bases).
    rewrite (mtrace_ext _ _
               (kronm m (Mmult (dim_hilbert b) (element b x0) (element b y0))
                        (Mmult m (element_n bases x') (element_n bases y'))))
      by (intros i _; apply mmult_kron).
    rewrite trace_kron. unfold m.
    rewrite (Hob x0 y0 Hx0 Hy0), (IH Horth' x' y' Hx' Hy').
    destruct (Nat.eqb_spec x0 y0) as [-> | Hne];
      destruct (list_eq_dec Nat.eq_dec x' y') as [-> | Hne'];
      destruct (list_eq_dec Nat.eq_dec _ _) as [E | E];
      try (apply C_eq; simpl; ring); try congruence.
Qed.

Lemma identity_sandwich (D : nat) (K Bx By : Matrix) :
  (forall i j, i < D -> j < D -> K i j = Mid i j) ->
  Mtrace D (Mmult D (Mmult D (Mmult D Bx K) By) (adjoint K))
  = Mtrace D (Mmult D Bx By).
Proof.
  intros HK.
  assert (Hr : forall (M : Matrix) i j, j < D -> Mmult D M K i j = M i j).
  { intros M i j Hj. unfold Mmult.
    rewrite (sum_n_single D j); [| assumption |].
    - rewrite HK by assumption. unfold Mid. rewrite Nat.eqb_refl. ring.
    - intros k Hk Hne. rewrite HK by assumption. unfold Mid.
      destruct (Nat.eqb_spec k j); [congruence | ring]. }
  assert (Hr' : forall (M : Matrix) i j, j < D -> Mmult D M (adjoint K) i j = M i j).
  { intros M i j Hj. unfold Mmult, adjoint.
    rewrite (sum_n_single D j); [| assumption |].
    - rewrite HK by assumption. unfold Mid. rewrite Nat.eqb_refl.
      apply C_eq; simpl; ring.
    - intros k Hk Hne. rewrite HK by assumption. unfold Mid.
      destruct (Nat.eqb_spec j k); [congruence | apply C_eq; simpl; ring]. }
  apply mtrace_ext. intros i Hi. rewrite Hr' by assumption.
  unfold Mmult at 1 3. apply sum_n_ext. intros k Hk. now rewrite Hr.
Qed.

(** X3.  The identity has the identity as its PTM: for orthonormal bases of
    [1 <= n <= 8] subsystems, used for input and output, and a stack of one
    Kraus operator that is the identity, the entry of
    [kraus_to_ptm] at [(x; y)] is 1 when [x = y] and 0 otherwise. *)
Theorem identity_channel_ptm (d : nat) (kraus : ndarray) (bases : list Basis) :
  bases <> [] -> length bases <= 8 ->
  uniform d bases -> Forall orthonormal bases ->
  shape kraus = [1; d ^ length bases; d ^ length bases] ->
  (forall i j, i < d ^ length bases -> j < d ^ length bases ->
     kraus_op kraus 0 i j = Mid i j) ->
  exists ptm,
    kraus_to_ptm kraus bases bases = Ok ptm
    /\ shape ptm = map dim_pauli bases ++ map dim_pauli bases
    /\ forall x y,
         below x (map dim_pauli bases) -> below y (map dim_pauli bases) ->
         (x = y -> item ptm (x ++ y) = C1)
         /\ (x <> y -> item ptm (x ++ y) = C0).
Proof.
  intros Hne Hn8 Hunif Horth Hk Hid.
  destruct (kraus_to_ptm_contraction d 1 kraus bases bases Hne Hn8 Hunif Hunif
              eq_refl Hk)
    as (ptm & Hptm & Hshape & _ & Hitem).
  exists ptm. split; [exact Hptm |]. split; [exact Hshape |].
  intros x y Hx Hy.
  assert (Hval : item ptm (x ++ y)
                 = if list_eq_dec Nat.eq_dec x y then C1 else C0).
  { rewrite Hitem
      by (apply below_length in Hx, Hy; rewrite length_map in *; assumption).
    unfold ptm_entry. rewrite (hilbert_dim_uniform d bases Hunif), Hk.
    cbn [hd sum_n]. rewrite Cadd_0_l.
    rewrite identity_sandwich by exact Hid.
    rewrite (trace_element_n d bases Hunif Horth x y Hx Hy).
    destruct (list_eq_dec Nat.eq_dec x y); reflexivity. }
  rewrite Hval. split; intros H;
    destruct (list_eq_dec Nat.eq_dec x y); congruence.
Qed.

Lemma identity_channel_ptm_witness :
  [gell_mann_2; gell_mann_2] <> []
  /\ uniform 2 [gell_mann_2; gell_mann_2]
  /\ Forall orthonormal [gell_mann_2; gell_mann_2]
  /\ exists ptm,
       kraus_to_ptm (identity_kraus 4) [gell_mann_2; gell_mann_2]
         [gell_mann_2; gell_mann_2] = Ok ptm
       /\ shape ptm = map dim_pauli [gell_mann_2; gell_mann_2]
                      ++ map dim_pauli [gell_mann_2; gell_mann_2]
       /\ forall x y,
            below x (map dim_pauli [gell_mann_2; gell_mann_2]) ->
            below y (map dim_pauli [gell_mann_2; gell_mann_2]) ->
            (x = y -> item ptm (x ++ y) = C1)
            /\ (x <> y -> item ptm (x ++ y) = C0).
Proof.
  assert (Hu : uniform 2 [gell_mann_2; gell_mann_2])
    by (repeat constructor).
  assert (Ho : Forall orthonormal [gell_mann_2; gell_mann_2])
    by (repeat constructor; exact gell_mann_2_orthonormal).
  split; [discriminate |]. split; [exact Hu |]. split; [exact Ho |].
  apply (identity_channel_ptm 2 (identity_kraus 4) [gell_mann_2; gell_mann_2]).
  - discriminate.
  - cbn [length]. lia.
  - exact Hu.
  - exact Ho.
  - reflexivity.
  - intros i j _ _. reflexivity.
Defined.

(** ** [bases_kron] *)

Lemma div_mod_mul (i a b : nat) : (i mod (a * b)) / b = (i / b) mod a.
Proof.
  destruct (Nat.eq_dec b 0) as [-> | Hb].
  - rewrite Nat.mul_0_r. cbn. now rewrite Nat.Div0.mod_0_l.
  - rewrite (Nat.mul_comm a b), Nat.Div0.mod_mul_r.
    rewrite (Nat.mul_comm b), Nat.div_add by assumption.
    rewrite Nat.div_small by (apply Nat.mod_upper_bound; assumption).
    reflexivity.
Qed.

Lemma mod_mod_mul (i a b : nat) : (i mod (a * b)) mod b = i mod b.
Proof.
  destruct (Nat.eq_dec b 0) as [-> | Hb].
  - now rewrite Nat.mul_0_r.
  - rewrite (Nat.mul_comm a b), Nat.Div0.mod_mul_r.
    rewrite (Nat.mul_comm b), Nat.Div0.mod_add.
    apply Nat.Div0.mod_mod.
Qed.

Lemma fold_kron (rest : list Basis) :
  Forall wf_basis rest ->
  forall (acc : ndarray) (P D : nat),
    shape acc = [P; D; D] ->
    shape (fold_left kron (map vectors rest) acc)
    = [P * prod (map dim_pauli rest); D * hilbert_dim rest; D * hilbert_dim rest]
    /\ forall x xs i j,
         below xs (map dim_pauli rest) ->
         item (fold_left kron (map vectors rest) acc)
           [x * prod (map dim_pauli rest) + ravel (map dim_pauli rest) xs; i; j]
         = (item acc [x; i / hilbert_dim rest; j / hilbert_dim rest]
            * element_n rest xs (i mod hilbert_dim rest) (j mod hilbert_dim rest))%C.
Proof.
  unfold hilbert_dim.
  induction 1 as [| b rest Hb Hrest IH]; intros acc P D Hacc.
  - cbn [map fold_left prod fold_right]. split.
    + rewrite Hacc. now rewrite !Nat.mul_1_r.
    + intros x xs i j Hxs. inversion Hxs; subst.
      cbn [ravel element_n]. rewrite !Nat.div_1_r, Nat.mul_1_r, Nat.add_0_r. ring.
  - cbn [map fold_left prod fold_right].
    fold (prod (map dim_pauli rest)). fold (prod (map dim_hilbert rest)).
    set (p := dim_pauli b). set (d := dim_hilbert b).
    set (pp := prod (map dim_pauli rest)). set (dd := prod (map dim_hilbert rest)).
    assert (Hk : shape (kron acc (vectors b)) = [P * p; D * d; D * d])
      by (unfold kron; rewrite Hacc, Hb; reflexivity).
    destruct (IH (kron acc (vectors b)) (P * p) (D * d) Hk) as [Hshape Hitem].
    fold pp dd in Hshape, Hitem. split.
    + rewrite Hshape. f_equal; [| f_equal; [| f_equal]]; ring.
    + intros x xs i j Hxs.
      inversion Hxs as [| x0 dp xs' dps Hx0 Hxs']; subst.
      cbn [ravel element_n]. fold pp.
      replace (x * (p * pp) + (x0 * pp + ravel (map dim_pauli rest) xs'))
        with ((x * p + x0) * pp + ravel (map dim_pauli rest) xs') by ring.
      rewrite (Hitem (x * p + x0) xs' i j Hxs').
      unfold kron at 1. cbn [item]. rewrite Hb. cbn [map2].
      fold p d. unfold hilbert_dim. fold dd.
      rewrite Nat.div_add_l, (Nat.div_small x0 p), Nat.add_0_r by (fold p in Hx0; lia).
      rewrite (Nat.add_comm (x * p)), Nat.Div0.mod_add,
        (Nat.mod_small x0 p) by (fold p in Hx0; lia).
      rewrite !Nat.Div0.div_div, (Nat.mul_comm dd d).
      unfold kronm, element.
      rewrite !div_mod_mul, !mod_mod_mul. ring.
Qed.

(** X4.  [bases_kron] of a non-empty tuple of bases returns an array of
    shape [(prod dim_pauli, prod dim_hilbert, prod dim_hilbert)] whose
    operator at the row-major index of [(x_1, ..., x_n)] is the
    Kronecker product [B_1[x_1] (x) ... (x) B_n[x_n]]; the bases may
    differ in their dimensions. *)
Theorem bases_kron_elements (bases : list Basis) :
  bases <> [] -> Forall wf_basis bases ->
  exists k,
    bases_kron bases = Ok k
    /\ shape k = [prod (map dim_pauli bases); hilbert_dim bases; hilbert_dim bases]
    /\ forall xs i j,
         below xs (map dim_pauli bases) ->
         item k [ravel (map dim_pauli bases) xs; i; j] = element_n bases xs i j.
Proof.
  intros Hne Hwf. destruct bases as [| b0 rest]; [contradiction |].
  inversion Hwf as [| ? ? Hb0 Hrest]; subst.
  unfold bases_kron, reduce. cbn [map].
  destruct (fold_kron rest Hrest (vectors b0) (dim_pauli b0) (dim_hilbert b0) Hb0)
    as [Hshape Hitem].
  eexists. split; [reflexivity |]. split; [exact Hshape |].
  intros xs i j Hxs.
  inversion Hxs as [| x0 dp xs' dps Hx0 Hxs']; subst.
  cbn [map ravel element_n]. fold (prod (map dim_pauli rest)).
  rewrite (Hitem x0 xs' i j Hxs'). reflexivity.
Qed.

Lemma bases_kron_elements_witness :
  [gell_mann_2; computational 3] <> []
  /\ Forall wf_basis [gell_mann_2; computational 3]
  /\ exists k,
       bases_kron [gell_mann_2; computational 3] = Ok k
       /\ shape k = [prod (map dim_pauli [gell_mann_2; computational 3]);
                     hilbert_dim [gell_mann_2; computational 3];
                     hilbert_dim [gell_mann_2; computational 3]]
       /\ forall xs i j,
            below xs (map dim_pauli [gell_mann_2; computational 3]) ->
            item k [ravel (map dim_pauli [gell_mann_2; computational 3]) xs; i; j]
            = element_n [gell_mann_2; computational 3] xs i j.
Proof.
  assert (Hwf : Forall wf_basis [gell_mann_2; computational 3])
    by (repeat constructor).
  split; [discriminate |]. split; [exact Hwf |].
  apply (bases_kron_elements [gell_mann_2; computational 3]);
    [discriminate | exact Hwf].
Defined.

(** ** Converting a PTM to other bases *)

Lemma channel_tuples (Z D : nat) (K : nat -> Matrix) (A B : Matrix) :
  channel Z D K A B = sum_tuples [D; D; D; D; Z] (channel_term K A B).
Proof. unfold channel. rewrite <- trace_form. reflexivity. Qed.

Lemma below5 (vs : list nat) (D Z : nat) :
  below vs [D; D; D; D; Z] ->
  exists a e b c z,
    vs = [a; e; b; c; z] /\ a < D /\ e < D /\ b < D /\ c < D /\ z < Z.
Proof.
  intros H.
  inversion H as [| a ? r1 ? Ha H1]; subst.
  inversion H1 as [| e ? r2 ? He H2]; subst.
  inversion H2 as [| b ? r3 ? Hb H3]; subst.
  inversion H3 as [| c ? r4 ? Hc H4]; subst.
  inversion H4 as [| z ? r5 ? Hz H5]; subst.
  inversion H5; subst.
  exists a, e, b, c, z. auto 7.
Qed.

(** The channel sum is linear in each of the two operators. *)
Lemma channel_expand (Z D m n : nat) (K : nat -> Matrix) (A B : Matrix)
    (cA cB : nat -> C) (As Bs : nat -> Matrix) :
  (forall a b, a < D -> b < D -> A a b = sum_n m (fun y => cA y * As y a b)%C) ->
  (forall a b, a < D -> b < D -> B a b = sum_n n (fun z => cB z * Bs z a b)%C) ->
  channel Z D K A B
  = sum_n m (fun y => sum_n n (fun z =>
      (cA y * channel Z D K (As y) (Bs z) * cB z)%C)).
Proof.
  intros HA HB. rewrite channel_tuples.
  transitivity
    (sum_tuples [D; D; D; D; Z] (fun vs =>
       sum_n m (fun y => sum_n n (fun z =>
         (cA y * cB z * channel_term K (As y) (Bs z) vs)%C)))).
  { apply sum_tuples_ext. intros vs Hvs.
    destruct (below5 vs D Z Hvs) as (a & e & b & c & z & -> & Ha & He & Hb & Hc & Hz).
    cbn [channel_term]. rewrite (HA a b Ha Hb), (HB c e Hc He).
    rewrite <- sum_n_mul_r. apply sum_n_ext. intros y _.
    rewrite <- sum_n_mul_r, <- sum_n_mul_l, <- sum_n_mul_l.
    apply sum_n_ext. intros z' _. ring. }
  rewrite <- sum_n_tuples_swap. apply sum_n_ext. intros y _.
  rewrite <- sum_n_tuples_swap. apply sum_n_ext. intros z _.
  rewrite sum_tuples_mul_l, channel_tuples. ring.
Qed.

Lemma trace_cyclic (d : nat) (A B : Matrix) :
  Mtrace d (Mmult d A B) = Mtrace d (Mmult d B A).
Proof.
  unfold Mtrace, Mmult. rewrite sum_n_swap.
  apply sum_n_ext. intros i _. apply sum_n_ext. intros k _. ring.
Qed.

Lemma change_contraction (d py pz : nat) (A1 A2 P A4 A5 : ndarray) (x w : nat) :
  sum_tuples [d; d; d; d; py; pz]
    (fun vs =>
       term (combine [A1; A2; P; A4; A5]
               [[120; 105; 106]; [121; 106; 105]; [121; 122]; [122; 107; 108];
                [119; 108; 107]])
         (bind [105; 106; 107; 108; 121; 122] vs
            (bind [120; 119] [x; w] (fun _ => 0))))
  = sum_n py (fun y => sum_n pz (fun z =>
      (sum_n d (fun i => sum_n d (fun j => item A1 [x; i; j] * item A2 [y; j; i]))
       * item P [y; z]
       * sum_n d (fun k => sum_n d (fun l => item A4 [z; k; l] * item A5 [w; l; k])))%C)).
Proof.
  transitivity
    (sum_tuples [d; d; d; d] (fun v =>
       sum_n py (fun y => sum_n pz (fun z =>
         match v with
         | [i; j; k; l] =>
             ((item A1 [x; i; j] * item A2 [y; j; i]) * item P [y; z]
              * (item A4 [z; k; l] * item A5 [w; l; k]))%C
         | _ => C0
         end)))).
  { cbn [sum_tuples].
    apply sum_n_ext; intros i _. apply sum_n_ext; intros j _.
    apply sum_n_ext; intros k _. apply sum_n_ext; intros l _.
    apply sum_n_ext; intros y _. apply sum_n_ext; intros z _.
    unfold term, Cprod. cbn. ring. }
  rewrite <- sum_n_tuples_swap. apply sum_n_ext. intros y _.
  rewrite <- sum_n_tuples_swap. apply sum_n_ext. intros z _.
  cbn [sum_tuples].
  rewrite <- sum_n_mul_r, <- sum_n_mul_r. apply sum_n_ext; intros i _.
  rewrite <- sum_n_mul_r, <- sum_n_mul_r. apply sum_n_ext; intros j _.
  rewrite <- sum_n_mul_l. apply sum_n_ext; intros k _.
  rewrite <- sum_n_mul_l. apply sum_n_ext; intros l _.
  ring.
Qed.

Lemma ptm_entry1_channel (kraus : ndarray) (basis_in basis_out : Basis) (x y : nat) :
  ptm_entry1 kraus basis_in basis_out x y
  = channel (hd 0 (shape kraus)) (dim_hilbert basis_in) (kraus_op kraus)
      (element basis_out x) (element basis_in y).
Proof. reflexivity. Qed.

(** X5.  [ptm_convert_basis] converts what [kraus_to_ptm] computes.  On one
    subsystem, for Hermitian old bases and new bases whose operators
    are combinations of the old ones (as they are when the old bases
    are complete), the PTM of a Kraus stack in the old bases, converted
    to the new bases, has the shape and the entries of the PTM that
    [kraus_to_ptm] computes in the new bases. *)
Theorem ptm_convert_basis_change (Z : nat) (kraus : ndarray)
    (bi_old bo_old bi_new bo_new : Basis) :
  Forall wf_basis [bi_old; bo_old; bi_new; bo_new] ->
  Forall (fun b => dim_hilbert b = dim_hilbert bi_old) [bo_old; bi_new; bo_new] ->
  hermitian bi_old -> hermitian bo_old ->
  expands bi_old bi_new -> expands bo_old bo_new ->
  shape kraus = [Z; dim_hilbert bi_old; dim_hilbert bi_old] ->
  exists p r q,
    kraus_to_ptm kraus [bi_old] [bo_old] = Ok p
    /\ ptm_convert_basis p [bi_old] [bo_old] [bi_new] [bo_new] = Ok r
    /\ kraus_to_ptm kraus [bi_new] [bo_new] = Ok q
    /\ shape r = shape q
    /\ forall x w,
         x < dim_pauli bo_new -> w < dim_pauli bi_new ->
         item r [x; w] = item q [x; w].
Proof.
  intros Hwf Hdim Hhi Hho Hei Heo Hk.
  inversion Hwf as [| ? ? Hwi Hwf1]; subst.
  inversion Hwf1 as [| ? ? Hwo Hwf2]; subst.
  inversion Hwf2 as [| ? ? Hwi' Hwf3]; subst.
  inversion Hwf3 as [| ? ? Hwo' _]; subst.
  inversion Hdim as [| ? ? Hdo Hdim1]; subst.
  inversion Hdim1 as [| ? ? Hdi' Hdim2]; subst.
  inversion Hdim2 as [| ? ? Hdo' _]; subst.
  set (d := dim_hilbert bi_old) in *.
  assert (Hu : forall b, wf_basis b -> dim_hilbert b = d -> uniform d [b])
    by (intros b Hb Hd; constructor; [auto | constructor]).
  assert (Hk1 : shape kraus = [Z; d ^ length [bi_old]; d ^ length [bi_old]])
    by (cbn [length]; now rewrite Nat.pow_1_r).
  (* the PTM in the old bases *)
  destruct (kraus_to_ptm_contraction d Z kraus [bi_old] [bo_old])
    as (p & Hp & Hpshape & _ & Hpitem); auto; try discriminate;
    try (cbn [length]; lia).
  (* the PTM in the new bases *)
  destruct (kraus_to_ptm_contraction d Z kraus [bi_new] [bo_new])
    as (q & Hq & Hqshape & _ & Hqitem); auto; try discriminate;
    try (cbn [length]; lia).
  cbn [map app] in Hpshape, Hqshape.
  exists p.
  (* the conversion *)
  unfold ptm_convert_basis, bases_kron, reduce.
  cbn [map rev app fold_left Py.bind prod fold_right np_prod reshape2].
  rewrite !Nat.mul_1_r.
  assert (Hsz : (prod [dim_pauli bo_old; dim_pauli bi_old] =? size p) = true).
  { unfold size. rewrite Hpshape. apply Nat.eqb_refl. }
  unfold reshape at 1. rewrite Hsz. cbn [Py.bind].
  set (P := {| shape := [dim_pauli bo_old; dim_pauli bi_old]; item := _ |}).
  unfold einsum_str. rewrite convert_subscripts.
  cbn [fst snd length Nat.eqb].
  destruct (einsum_typed
              (change_dim d (dim_pauli bi_new) (dim_pauli bo_new)
                 (dim_pauli bo_old) (dim_pauli bi_old))
              (combine [vectors bo_new; vectors bo_old; P; vectors bi_old;
                        vectors bi_new]
                 [[120; 105; 106]; [121; 106; 105]; [121; 122];
                  [122; 107; 108]; [119; 108; 107]])
              [120; 119])
    as (r & Hr & Hrshape & Hritem).
  { cbn [combine]. unfold typed.
    repeat constructor; cbn [fst snd];
      rewrite ?Hwi, ?Hwo, ?Hwi', ?Hwo', ?Hdo, ?Hdi', ?Hdo'; reflexivity. }
  { intros l [<- | [<- | []]]; vm_compute; tauto. }
  { repeat constructor; cbn [In]; intuition discriminate. }
  rewrite Hr. cbn [Py.bind].
  change (map (change_dim d (dim_pauli bi_new) (dim_pauli bo_new)
                 (dim_pauli bo_old) (dim_pauli bi_old)) [120; 119])
    with [dim_pauli bo_new; dim_pauli bi_new] in Hrshape.
  assert (Hrsz : (prod [dim_pauli bo_new; dim_pauli bi_new] =? size (real r)) = true).
  { unfold size. cbn [real shape]. rewrite Hrshape. apply Nat.eqb_refl. }
  unfold reshape. rewrite Hrsz.
  eexists. exists q. split; [exact Hp |]. split; [reflexivity |].
  split; [exact Hq |]. split; [now rewrite Hqshape |].
  intros x w Hx Hw. cbn [item real shape]. rewrite Hrshape.
  rewrite unravel_ravel by (repeat constructor; assumption).
  pose proof (Hqitem [x] [w] eq_refl eq_refl) as Hxw. cbn [app] in Hxw.
  rewrite Hxw, ptm_entry_single. do 2 f_equal.
  rewrite Hritem, convert_sum_labels.
  change (map _ [105; 106; 107; 108; 121; 122])
    with [d; d; d; d; dim_pauli bo_old; dim_pauli bi_old].
  rewrite change_contraction.
  rewrite ptm_entry1_channel, Hk. cbn [hd]. rewrite Hdi'.
  rewrite (channel_expand Z d (dim_pauli bo_old) (dim_pauli bi_old)
             (kraus_op kraus) (element bo_new x) (element bi_new w)
             (fun y => Mtrace d (Mmult d (element bo_old y) (element bo_new x)))
             (fun z => Mtrace d (Mmult d (element bi_old z) (element bi_new w)))
             (element bo_old) (element bi_old)).
  - apply sum_n_ext. intros y Hy. apply sum_n_ext. intros z Hz.
    do 2 f_equal.
    + rewrite trace_cyclic. reflexivity.
    + unfold P. cbn [item]. rewrite Hpshape.
      rewrite unravel_ravel by (repeat constructor; assumption).
      pose proof (Hpitem [y] [z] eq_refl eq_refl) as Hyz. cbn [app] in Hyz.
      rewrite Hyz, ptm_entry_single.
      rewrite real_fixed; [now rewrite ptm_entry1_channel, Hk |].
      rewrite <- ptm_entry_single.
      apply (ptm_entry_real d kraus [bi_old] [bo_old] [y] [z]); auto;
        repeat constructor; assumption.
  - intros a b Ha Hb. generalize (Heo x a b Hx). rewrite Hdo. auto.
  - intros a b Ha Hb. exact (Hei w a b Hw Ha Hb).
Qed.

Lemma computational_expands : expands gell_mann_2 (computational 2).
Proof.
  intros w i j Hw Hi Hj.
  below2 w Hw; below2 i Hi; below2 j Hj; apply C_eq; cbn; sqrt_half.
Qed.

Lemma ptm_convert_basis_change_witness :
  Forall wf_basis [gell_mann_2; gell_mann_2; computational 2; computational 2]
  /\ hermitian gell_mann_2
  /\ expands gell_mann_2 (computational 2)
  /\ exists p r q,
       kraus_to_ptm (amp_damping_kraus (1 / 2)) [gell_mann_2] [gell_mann_2] = Ok p
       /\ ptm_convert_basis p [gell_mann_2] [gell_mann_2]
            [computational 2] [computational 2] = Ok r
       /\ kraus_to_ptm (amp_damping_kraus (1 / 2))
            [computational 2] [computational 2] = Ok q
       /\ shape r = shape q
       /\ forall x w,
            x < dim_pauli (computational 2) -> w < dim_pauli (computational 2) ->
            item r [x; w] = item q [x; w].
Proof.
  assert (Hwf : Forall wf_basis
                  [gell_mann_2; gell_mann_2; computational 2; computational 2])
    by (repeat constructor).
  split; [exact Hwf |]. split; [exact gell_mann_2_hermitian |].
  split; [exact computational_expands |].
  apply (ptm_convert_basis_change 2 (amp_damping_kraus (1 / 2))
           gell_mann_2 gell_mann_2 (computational 2) (computational 2)).
  - exact Hwf.
  - repeat constructor.
  - exact gell_mann_2_hermitian.
  - exact gell_mann_2_hermitian.
  - exact computational_expands.
  - exact computational_expands.
  - reflexivity.
Defined.

(** ** Unital channels *)

Lemma first_col_entry (D Z : nat) (c : C) (Bx B0 : Matrix) (K : nat -> Matrix) :
  (forall a b, a < D -> b < D -> B0 a b = if a =? b then c else C0) ->
  (forall i j, i < D -> j < D ->
     sum_n Z (fun z => Mmult D (K z) (adjoint (K z)) i j) = Mid i j) ->
  sum_n Z (fun z =>
    Mtrace D (Mmult D (Mmult D (Mmult D Bx (K z)) B0) (adjoint (K z))))
  = (c * Mtrace D Bx)%C.
Proof.
  intros HB0 Hun. rewrite <- trace_form.
  transitivity
    (sum_n D (fun a => sum_n D (fun b => (c * Bx a b * Mid b a)%C))).
  { apply sum_n_ext; intros a Ha.
    transitivity
      (sum_n D (fun b => sum_n D (fun c0 => sum_n Z (fun z =>
         (c * Bx a b * (K z b c0 * Cconj (K z a c0)))%C)))).
    { etransitivity; [apply sum_n_swap |]. cbv beta.
      apply sum_n_ext; intros b Hb.
      etransitivity; [apply sum_n_swap |]. cbv beta.
      apply sum_n_ext; intros c0 Hc0.
      rewrite (sum_n_single D c0); [| assumption |].
      - apply sum_n_ext; intros z _.
        rewrite HB0, Nat.eqb_refl by assumption. ring.
      - intros e He Hne. rewrite <- (sum_n_zero Z).
        apply sum_n_ext; intros z _. rewrite HB0 by assumption.
        destruct (Nat.eqb_spec c0 e); [congruence | ring]. }
    apply sum_n_ext; intros b Hb.
    rewrite <- (Hun b a Hb Ha).
    etransitivity; [apply sum_n_swap |]. cbv beta.
    rewrite <- sum_n_mul_l. apply sum_n_ext; intros z _.
    unfold Mmult, adjoint. rewrite <- sum_n_mul_l. reflexivity. }
  unfold Mtrace. rewrite <- sum_n_mul_l.
  apply sum_n_ext; intros a Ha.
  rewrite (sum_n_single D a); [| assumption |].
  - unfold Mid. rewrite Nat.eqb_refl. ring.
  - intros b Hb Hne. unfold Mid.
    destruct (Nat.eqb_spec b a); [congruence | ring].
Qed.

Lemma below_zeros (sh : list nat) :
  Forall (fun p => 0 < p) sh -> below (repeat 0 (length sh)) sh.
Proof.
  induction 1 as [| p sh Hp _ IH]; [constructor |].
  cbn [length repeat]. now constructor.
Qed.

(** X6.  The first column of a unital channel.  For a Kraus stack with
    [sum_z K_z K_z^dagger = 1] on [1 <= n <= 8] subsystems of Hilbert
    dimension [d], input bases whose first operator is the normalized
    identity and orthonormal output bases with the same first operator,
    the PTM that [kraus_to_ptm] computes, flattened to a matrix, has
    the first column [(1, 0, ..., 0)]. *)
Theorem unital_first_column (d Z : nat) (kraus : ndarray)
    (bases_in bases_out : list Basis) :
  bases_in <> [] -> length bases_in <= 8 ->
  uniform d bases_in -> uniform d bases_out ->
  length bases_out = length bases_in ->
  shape kraus = [Z; d ^ length bases_in; d ^ length bases_in] ->
  unital kraus (d ^ length bases_in) ->
  Forall identity_first bases_in ->
  Forall identity_first bases_out -> Forall orthonormal bases_out ->
  exists ptm flat,
    kraus_to_ptm kraus bases_in bases_out = Ok ptm
    /\ reshape ptm [prod (map dim_pauli bases_out); prod (map dim_pauli bases_in)]
       = Ok flat
    /\ forall k,
         k < prod (map dim_pauli bases_out) ->
         item flat [k; 0] = if k =? 0 then C1 else C0.
Proof.
  intros Hne Hn8 Hin Hout Hlen Hkraus Hun Hidi Hido Horth.
  destruct (kraus_to_ptm_contraction d Z kraus bases_in bases_out
              Hne Hn8 Hin Hout Hlen Hkraus)
    as (ptm & Hptm & Hshape & _ & Hitem).
  exists ptm.
  exists {| shape := [prod (map dim_pauli bases_out); prod (map dim_pauli bases_in)];
            item := fun idx =>
              item ptm (unravel (shape ptm)
                          (ravel [prod (map dim_pauli bases_out);
                                  prod (map dim_pauli bases_in)] idx)) |}.
  split; [exact Hptm |]. split.
  - assert (Hsz : prod [prod (map dim_pauli bases_out); prod (map dim_pauli bases_in)]
                  = size ptm).
    { unfold size. rewrite Hshape, prod_app. cbn [prod fold_right]. lia. }
    unfold reshape. rewrite Hsz, Nat.eqb_refl. reflexivity.
  - intros k Hk. cbn [item ravel prod fold_right].
    set (x := unravel (map dim_pauli bases_out) k).
    assert (Hx : below x (map dim_pauli bases_out))
      by (apply unravel_below; assumption).
    assert (Hlenx : length x = length bases_in)
      by (apply below_length in Hx; rewrite length_map in Hx; lia).
    assert (Hpos : Forall (fun p => 0 < p) (map dim_pauli bases_in)).
    { apply Forall_map. eapply Forall_impl; [| exact Hidi].
      intros b [Hb _]. exact Hb. }
    pose proof (below_zeros _ Hpos) as Hz. rewrite length_map in Hz.
    replace (k * (prod (map dim_pauli bases_in) * 1) + (0 * 1 + 0))
      with (ravel (map dim_pauli bases_out ++ map dim_pauli bases_in)
              (x ++ repeat 0 (length bases_in))).
    2:{ rewrite ravel_app
          by (apply below_length in Hx; exact Hx).
        rewrite (ravel_zeros _ (repeat 0 (length bases_in)))
          by (clear; induction (length bases_in); simpl; auto).
        unfold x. rewrite ravel_unravel by assumption. lia. }
    rewrite Hshape, unravel_ravel by (apply below_app; assumption).
    rewrite (Hitem x (repeat 0 (length bases_in)))
      by (try apply repeat_length; assumption).
    unfold ptm_entry. rewrite (hilbert_dim_uniform d bases_in Hin).
    rewrite (first_col_entry (d ^ length bases_in) (hd 0 (shape kraus))
               (norm_id d (length bases_in))).
    + rewrite <- Hlen.
      rewrite (first_row_product d bases_out Hout Horth Hido x Hx).
      unfold x. rewrite unravel_all_zero by assumption.
      destruct (k =? 0); reflexivity.
    + intros a b Ha Hb. now apply element_n_identity.
    + exact Hun.
Qed.

Lemma phase_damping_unital : unital (phase_damping_kraus (1 / 4)) 2.
Proof.
  assert (H1 : (sqrt (1 / 4) * sqrt (1 / 4) = 1 / 4)%R) by (apply sqrt_sqrt; lra).
  assert (H2 : (sqrt (1 - 1 / 4) * sqrt (1 - 1 / 4) = 1 - 1 / 4)%R)
    by (apply sqrt_sqrt; lra).
  intros i j Hi Hj.
  below2 i Hi; below2 j Hj; apply C_eq; cbn; nsatz.
Qed.

Lemma unital_first_column_witness :
  [gell_mann_2] <> [] /\ uniform 2 [gell_mann_2]
  /\ unital (phase_damping_kraus (1 / 4)) (2 ^ length [gell_mann_2])
  /\ Forall identity_first [gell_mann_2] /\ Forall orthonormal [gell_mann_2]
  /\ exists ptm flat,
       kraus_to_ptm (phase_damping_kraus (1 / 4)) [gell_mann_2] [gell_mann_2]
       = Ok ptm
       /\ reshape ptm [prod (map dim_pauli [gell_mann_2]);
                       prod (map dim_pauli [gell_mann_2])] = Ok flat
       /\ forall k,
            k < prod (map dim_pauli [gell_mann_2]) ->
            item flat [k; 0] = if k =? 0 then C1 else C0.
Proof.
  assert (Hid : Forall identity_first [gell_mann_2])
    by (constructor; [exact gell_mann_2_identity_first | constructor]).
  assert (Ho : Forall orthonormal [gell_mann_2])
    by (constructor; [exact gell_mann_2_orthonormal | constructor]).
  split; [discriminate |]. split; [exact gell_mann_2_uniform |].
  split; [exact phase_damping_unital |]. split; [exact Hid |].
  split; [exact Ho |].
  apply (unital_first_column 2 2 (phase_damping_kraus (1 / 4))
           [gell_mann_2] [gell_mann_2]).
  - discriminate.
  - cbn [length]. lia.
  - exact gell_mann_2_uniform.
  - exact gell_mann_2_uniform.
  - reflexivity.
  - reflexivity.
  - exact phase_damping_unital.
  - exact Hid.
  - exact Hid.
  - exact Ho.
Defined.

End AlgebraLaws.

(** * Laws of the library of qubit operations *)

Module QubitsLaws.

Import Np Algebra Linalg Qubits CxFacts NpFacts AlgebraFacts QubitsFacts.
Local Open Scope R_scope.

(** ** Trigonometry *)

Lemma sin_cos_sqr (x : R) : sin x * sin x + cos x * cos x = 1.
Proof. pose proof (sin2_cos2 x) as H. unfold Rsqr in H. exact H. Qed.

Lemma half_sum (a b : R) : (a + b) / 2 = a / 2 + b / 2.
Proof. field. Qed.

Lemma neg_half_sum (a b : R) : - (a + b) / 2 = - a / 2 + - b / 2.
Proof. field. Qed.

(** Closes an identity between polynomials in the sines and cosines of
    the goal (and in whatever the hypotheses say). *)
Ltac trig_poly :=
  repeat match goal with
         | |- context [sin ?x] =>
             lazymatch goal with
             | _ : sin x * sin x + cos x * cos x = 1 |- _ => fail
             | _ => pose proof (sin_cos_sqr x)
             end
         | |- context [cos ?x] =>
             lazymatch goal with
             | _ : sin x * sin x + cos x * cos x = 1 |- _ => fail
             | _ => pose proof (sin_cos_sqr x)
             end
         end;
  nsatz.

Ltac index2 i := destruct i as [| [| i]].

(** Splits an equation between complex numbers into its real and
    imaginary part and decides what is left of the look-ups at indices
    outside the arrays. *)
Ltac entries :=
  apply C_eq; cbn;
  repeat match goal with
         | |- context [if ?c then _ else _] => destruct c
         | |- context [match ?x with O => _ | S _ => _ end] => destruct x
         end;
  cbn.

(** ** The gates are unitary *)

(** X7.  The matrices that [rotate_euler], [rotate_x], [rotate_y],
    [rotate_z], [phase_shift] and [hadamard] hand to
    [Operation.from_kraus] are unitary 2 x 2 matrices, for all angles. *)
Theorem single_qubit_gates_unitary :
  (forall phi theta lamda, unitary 2 (rotate_euler_matrix phi theta lamda))
  /\ (forall angle, unitary 2 (rotate_x_matrix angle))
  /\ (forall angle, unitary 2 (rotate_y_matrix angle))
  /\ (forall angle, unitary 2 (rotate_z_matrix angle))
  /\ (forall angle, unitary 2 (phase_shift_matrix angle))
  /\ unitary 2 hadamard_matrix.
Proof.
  assert (Hhalf : 2 * (sqrt (1 / 2) * sqrt (1 / 2)) = 1)
    by (rewrite sqrt_half_sqr; lra).
  repeat split; try reflexivity; intros i j Hi Hj;
    below2 i Hi; below2 j Hj; apply C_eq; cbn; trig_poly.
Qed.

(** X8.  The matrices of [cphase], [iswap] and [cnot] are unitary 4 x 4
    matrices, for all angles. *)
Theorem two_qubit_gates_unitary :
  (forall angle, unitary 4 (cphase_matrix angle))
  /\ (forall angle, unitary 4 (iswap_matrix angle))
  /\ unitary 4 cnot_matrix.
Proof.
  repeat split; try reflexivity; intros i j Hi Hj;
    below4 i Hi; below4 j Hj; apply C_eq; cbn; trig_poly.
Qed.

(** ** Rotations about one axis add their angles *)

(** X9.  The matrices of two rotations about the same axis multiply to the
    matrix of the rotation by the sum of the angles, for [rotate_x],
    [rotate_y], [rotate_z] and [phase_shift]. *)
Theorem rotations_compose (a b : R) (i j : nat) :
  Mmult 2 (mat (rotate_x_matrix a)) (mat (rotate_x_matrix b)) i j
  = mat (rotate_x_matrix (a + b)) i j
  /\ Mmult 2 (mat (rotate_y_matrix a)) (mat (rotate_y_matrix b)) i j
     = mat (rotate_y_matrix (a + b)) i j
  /\ Mmult 2 (mat (rotate_z_matrix a)) (mat (rotate_z_matrix b)) i j
     = mat (rotate_z_matrix (a + b)) i j
  /\ Mmult 2 (mat (phase_shift_matrix a)) (mat (phase_shift_matrix b)) i j
     = mat (phase_shift_matrix (a + b)) i j.
Proof.
  repeat split; index2 i; index2 j; entries;
    rewrite ?half_sum, ?neg_half_sum, ?cos_plus, ?sin_plus; ring.
Qed.

(** ** [rotate_euler] *)

Lemma rotate_euler_half (a t b : R) (i j : nat) :
  mat (rotate_euler_matrix (a + a) t (b + b)) i j
  = (exp_i (a + b)
     * Mmult 2
         (Mmult 2 (mat (rotate_z_matrix (a + a))) (mat (rotate_x_matrix t)))
         (mat (rotate_z_matrix (b + b))) i j)%C.
Proof.
  index2 i; index2 j; entries;
    replace (- (a + a) / 2) with (- a) by field;
    replace (- (b + b) / 2) with (- b) by field;
    rewrite ?cos_plus, ?sin_plus, ?cos_neg, ?sin_neg;
    pose proof (sin_cos_sqr a); pose proof (sin_cos_sqr b); nsatz.
Qed.

(** X10.  The docstring of [rotate_euler] gives
    [U = R_Z(phi) R_X(theta) R_Z(lamda)].  With the matrices of
    [rotate_z] and [rotate_x] this holds up to a phase: the matrix of
    [rotate_euler] is [exp(1j (phi + lamda) / 2)] times that product. *)
Theorem rotate_euler_decomposition (phi theta lamda : R) (i j : nat) :
  mat (rotate_euler_matrix phi theta lamda) i j
  = (exp_i ((phi + lamda) / 2)
     * Mmult 2
         (Mmult 2 (mat (rotate_z_matrix phi)) (mat (rotate_x_matrix theta)))
         (mat (rotate_z_matrix lamda)) i j)%C.
Proof.
  pose proof (rotate_euler_half (phi / 2) theta (lamda / 2) i j) as H.
  replace (phi / 2 + phi / 2) with phi in H by field.
  replace (lamda / 2 + lamda / 2) with lamda in H by field.
  rewrite <- half_sum in H. exact H.
Qed.

(** X11.  [rotate_x], [rotate_y] and [phase_shift] hand [from_kraus] the
    same bases and the matrix of [rotate_euler] at
    [(0, angle, 0)], [(pi/2, angle, -pi/2)] and [(angle, 0, 0)]. *)
Theorem rotate_euler_special_cases (angle : R) (idx : list nat) :
  (shape (rotate_x_matrix angle) = shape (rotate_euler_matrix 0 angle 0)
   /\ item (rotate_x_matrix angle) idx = item (rotate_euler_matrix 0 angle 0) idx)
  /\ (shape (rotate_y_matrix angle)
      = shape (rotate_euler_matrix (PI / 2) angle (- (PI / 2)))
      /\ item (rotate_y_matrix angle) idx
         = item (rotate_euler_matrix (PI / 2) angle (- (PI / 2))) idx)
  /\ (shape (phase_shift_matrix angle) = shape (rotate_euler_matrix angle 0 0)
      /\ item (phase_shift_matrix angle) idx
         = item (rotate_euler_matrix angle 0 0) idx).
Proof.
  repeat split;
    destruct idx as [| i [| j [| k rest]]]; try reflexivity;
    index2 i; index2 j; entries;
    replace (0 / 2) with 0 by field;
    rewrite ?cos_neg, ?sin_neg, ?cos_PI2, ?sin_PI2, ?cos_0, ?sin_0; ring.
Qed.

(** ** The damping channels *)

(** X12.  For a rate [0 <= p <= 1] the Kraus operators that
    [amp_damping(total_rate=p)] and [phase_damping(total_rate=p)] hand to
    [Operation.from_kraus] preserve the trace:
    [sum_z K_z^dagger K_z = 1]. *)
Theorem damping_trace_preserving (p : R) :
  0 <= p <= 1 ->
  trace_preserving (amp_damping_kraus p) 2
  /\ trace_preserving (phase_damping_kraus p) 2.
Proof.
  intros Hp.
  assert (H1 : sqrt p * sqrt p = p) by (apply sqrt_sqrt; lra).
  assert (H2 : sqrt (1 - p) * sqrt (1 - p) = 1 - p) by (apply sqrt_sqrt; lra).
  split; intros i j Hi Hj; below2 i Hi; below2 j Hj; apply C_eq; cbn; nsatz.
Qed.

Lemma damping_trace_preserving_witness :
  0 <= 1 / 4 <= 1
  /\ trace_preserving (amp_damping_kraus (1 / 4)) 2
  /\ trace_preserving (phase_damping_kraus (1 / 4)) 2.
Proof.
  assert (H : 0 <= 1 / 4 <= 1) by lra.
  split; [exact H |]. exact (damping_trace_preserving (1 / 4) H).
Defined.

(** *** The two forms of the damping channels *)

Lemma damping_entries (p : R) (x y : nat) :
  0 <= p <= 1 -> (x < 4)%nat -> (y < 4)%nat ->
  re (ptm_entry1 (amp_damping_kraus p) gell_mann_2 gell_mann_2 x y)
  = entry (amp_damping_ptm 0 p) x y
  /\ RtoC (re (ptm_entry1 (phase_damping_kraus p) gell_mann_2 gell_mann_2 x y))
     = item (diag [C1; RtoC (1 - (1 - sqrt (1 - p)));
                   RtoC (1 - (1 - sqrt (1 - p))); RtoC (1 - 0)]) [x; y].
Proof.
  intros Hp Hx Hy.
  assert (H1 : sqrt p * sqrt p = p) by (apply sqrt_sqrt; lra).
  assert (H2 : sqrt (1 - p) * sqrt (1 - p) = 1 - p) by (apply sqrt_sqrt; lra).
  assert (H3 : 2 * (/ sqrt 2 * / sqrt 2) = 1) by (rewrite inv_sqrt2_sqr; lra).
  split.
  - below4 x Hx; below4 y Hy; cbn;
      replace (0 + p) with p by ring; nsatz.
  - below4 x Hx; below4 y Hy; apply C_eq; cbn; nsatz.
Qed.

(** X13.  In the Gell-Mann basis of a qubit the two forms of the damping
    channels agree, for every rate [0 <= p <= 1]: the PTM that
    [kraus_to_ptm] computes from the Kraus operators of
    [amp_damping(total_rate=p)] is the matrix that
    [amp_damping(exc_rate=0, damp_rate=p)] hands to [from_ptm], and the
    PTM of [phase_damping(total_rate=p)] is the matrix of
    [phase_damping(x_deph_rate=q, y_deph_rate=q, z_deph_rate=0)] with
    [q = 1 - sqrt (1 - p)]. *)
Theorem damping_forms_agree (p : R) :
  0 <= p <= 1 ->
  (exists K P ptm,
     amp_damping (Some p) None None = Ok (from_kraus K bases1_default)
     /\ amp_damping None (Some 0) (Some p) = Ok (from_ptm P [gell_mann 2])
     /\ kraus_to_ptm K [gell_mann_2] [gell_mann_2] = Ok ptm
     /\ shape ptm = shape P
     /\ forall x y, (x < 4)%nat -> (y < 4)%nat -> item ptm [x; y] = item P [x; y])
  /\ (exists K P ptm,
        phase_damping (Some p) None None None
        = Ok (from_kraus K bases1_default)
        /\ phase_damping None (Some (1 - sqrt (1 - p)))
             (Some (1 - sqrt (1 - p))) (Some 0)
           = Ok (from_ptm P [gell_mann 2])
        /\ kraus_to_ptm K [gell_mann_2] [gell_mann_2] = Ok ptm
        /\ shape ptm = shape P
        /\ forall x y, (x < 4)%nat -> (y < 4)%nat -> item ptm [x; y] = item P [x; y]).
Proof.
  intros Hp. split.
  - destruct (kraus_to_ptm_contraction 2 2 (amp_damping_kraus p)
                [gell_mann_2] [gell_mann_2])
      as (ptm & Hptm & Hshape & _ & Hitem);
      try reflexivity; try exact gell_mann_2_uniform; try discriminate;
      try (cbn [length]; lia).
    do 3 eexists. split; [reflexivity |]. split; [reflexivity |].
    split; [exact Hptm |]. split; [exact Hshape |].
    intros x y Hx Hy.
    pose proof (Hitem [x] [y] eq_refl eq_refl) as Hxy. cbn [app] in Hxy.
    rewrite Hxy, ptm_entry_single.
    rewrite (proj1 (damping_entries p x y Hp Hx Hy)).
    below4 x Hx; below4 y Hy; reflexivity.
  - destruct (kraus_to_ptm_contraction 2 2 (phase_damping_kraus p)
                [gell_mann_2] [gell_mann_2])
      as (ptm & Hptm & Hshape & _ & Hitem);
      try reflexivity; try exact gell_mann_2_uniform; try discriminate;
      try (cbn [length]; lia).
    do 3 eexists. split; [reflexivity |]. split; [reflexivity |].
    split; [exact Hptm |]. split; [exact Hshape |].
    intros x y Hx Hy.
    pose proof (Hitem [x] [y] eq_refl eq_refl) as Hxy. cbn [app] in Hxy.
    rewrite Hxy, ptm_entry_single.
    exact (proj2 (damping_entries p x y Hp Hx Hy)).
Qed.

Lemma damping_forms_agree_witness :
  0 <= 1 / 4 <= 1
  /\ (exists K P ptm,
        amp_damping (Some (1 / 4)) None None = Ok (from_kraus K bases1_default)
        /\ amp_damping None (Some 0) (Some (1 / 4)) = Ok (from_ptm P [gell_mann 2])
        /\ kraus_to_ptm K [gell_mann_2] [gell_mann_2] = Ok ptm
        /\ shape ptm = shape P
        /\ forall x y, (x < 4)%nat -> (y < 4)%nat ->
             item ptm [x; y] = item P [x; y])
  /\ (exists K P ptm,
        phase_damping (Some (1 / 4)) None None None
        = Ok (from_kraus K bases1_default)
        /\ phase_damping None (Some (1 - sqrt (1 - 1 / 4)))
             (Some (1 - sqrt (1 - 1 / 4))) (Some 0)
           = Ok (from_ptm P [gell_mann 2])
        /\ kraus_to_ptm K [gell_mann_2] [gell_mann_2] = Ok ptm
        /\ shape ptm = shape P
        /\ forall x y, (x < 4)%nat -> (y < 4)%nat ->
             item ptm [x; y] = item P [x; y]).
Proof.
  assert (H : 0 <= 1 / 4 <= 1) by lra.
  split; [exact H |]. exact (damping_forms_agree (1 / 4) H).
Defined.

(** ** The channels built from the Pauli table *)

Lemma scaled_gram (r : R) (E : Matrix) (i j : nat) :
  Mmult 2 (adjoint (fun a b => (RtoC r * E a b)%C))
          (fun a b => (RtoC r * E a b)%C) i j
  = (RtoC (r * r) * Mmult 2 (adjoint E) E i j)%C.
Proof. unfold Mmult, adjoint. cbn [sum_n]. apply C_eq; simpl; ring. Qed.

Section PauliTable.

Variables (gm : Basis) (s : R).
Hypothesis Hshape : shape (vectors gm) = [4; 2; 2]%nat.
Hypothesis Hnorm :
  forall x i j, (x < 4)%nat -> (i < 2)%nat -> (j < 2)%nat ->
    Mmult 2 (adjoint (element gm x)) (element gm x) i j = (RtoC s * Mid i j)%C.

Lemma pauli_table :
  _PAULI gm
  = combine ["I"; "X"; "Y"; "Z"]%string
      (map (fun x => {| shape := [2; 2]%nat;
                        item := fun idx => item (vectors gm) (x :: idx) |})
           [0; 1; 2; 3]%nat).
Proof. unfold _PAULI, subarrays. rewrite Hshape. reflexivity. Qed.

Lemma flipping_norm (name : string) (x : nat) (p : R) :
  (x < 4)%nat -> nth_error ["I"; "X"; "Y"; "Z"]%string x = Some name ->
  0 <= p <= 1 ->
  exists K,
    flipping gm name p = Some (from_kraus K bases1_default)
    /\ shape K = [2; 2; 2]%nat
    /\ forall i j, (i < 2)%nat -> (j < 2)%nat ->
         kraus_sum K 2 i j = (RtoC s * Mid i j)%C.
Proof.
  intros Hx Hname Hp.
  assert (H1 : sqrt p * sqrt p = p) by (apply sqrt_sqrt; lra).
  assert (H2 : sqrt (1 - p) * sqrt (1 - p) = 1 - p) by (apply sqrt_sqrt; lra).
  unfold flipping. rewrite pauli_table.
  destruct x as [| [| [| [| x]]]]; try (exfalso; lia);
    injection Hname as <-; cbn [combine map getitem String.eqb Ascii.eqb Bool.eqb];
    (eexists; split; [reflexivity |]; split; [reflexivity |];
     intros i j Hi Hj; unfold kraus_sum, kraus_op; cbn [shape stack hd length sum_n item nth scale];
     rewrite (scaled_gram (sqrt p) (fun a b => item (vectors gm) [0%nat; a; b]) i j),
       (scaled_gram (sqrt (1 - p)) _ i j), H1, H2;
     fold (element gm 0);
     try match goal with
         | |- context [Mmult 2 (adjoint (fun a b => item (vectors gm) [?k; a; b])) _ i j] =>
             fold (element gm k)
         end;
     rewrite !Hnorm by lia;
     apply C_eq; simpl; ring).
Qed.

Lemma depolarization_norm (rate : R) :
  0 <= rate <= 4 / 3 ->
  exists K,
    depolarization gm rate = Some (from_kraus K bases1_default)
    /\ shape K = [4; 2; 2]%nat
    /\ forall i j, (i < 2)%nat -> (j < 2)%nat ->
         kraus_sum K 2 i j = (RtoC (2 * s) * Mid i j)%C.
Proof.
  intros Hr.
  assert (H1 : sqrt (rate / 2) * sqrt (rate / 2) = rate / 2)
    by (apply sqrt_sqrt; lra).
  assert (H2 : sqrt (2 - 3 * (rate / 2)) * sqrt (2 - 3 * (rate / 2))
               = 2 - 3 * (rate / 2)) by (apply sqrt_sqrt; lra).
  unfold depolarization. rewrite pauli_table.
  cbn [combine map getitem String.eqb Ascii.eqb Bool.eqb].
  eexists. split; [reflexivity |]. split; [reflexivity |].
  intros i j Hi Hj. unfold kraus_sum, kraus_op.
  cbn [shape stack hd length sum_n item nth scale].
  rewrite (scaled_gram (sqrt (2 - 3 * (rate / 2)))
             (fun a b => item (vectors gm) [0%nat; a; b]) i j),
    (scaled_gram (sqrt (rate / 2)) (fun a b => item (vectors gm) [1%nat; a; b]) i j),
    (scaled_gram (sqrt (rate / 2)) (fun a b => item (vectors gm) [2%nat; a; b]) i j),
    (scaled_gram (sqrt (rate / 2)) (fun a b => item (vectors gm) [3%nat; a; b]) i j),
    H1, H2.
  fold (element gm 0). fold (element gm 1). fold (element gm 2). fold (element gm 3).
  rewrite !Hnorm by lia.
  apply C_eq; simpl; field.
Qed.

End PauliTable.

(** X14.  The Pauli table [_PAULI] is made of the four operators of
    [bases.gell_mann(2)].  Whatever their common normalization
    [P^dagger P = s 1] is, the Kraus operators of [bit_flipping],
    [phase_flipping] and [bit_phase_flipping] (for a rate in [0, 1])
    sum to [sum_z K_z^dagger K_z = s 1], while those of
    [depolarization] (for a rate in [0, 4/3]) sum to [2 s 1].  So for
    the operators normalized to [s = 1/2] [depolarization] preserves
    the trace and the three flipping channels halve it; no
    normalization makes all four preserve it. *)
Theorem pauli_channels_normalization (gm : Basis) (s : R) :
  shape (vectors gm) = [4; 2; 2]%nat ->
  (forall x i j, (x < 4)%nat -> (i < 2)%nat -> (j < 2)%nat ->
     Mmult 2 (adjoint (element gm x)) (element gm x) i j = (RtoC s * Mid i j)%C) ->
  (forall flip_rate f,
     0 <= flip_rate <= 1 ->
     In f [bit_flipping gm; phase_flipping gm; bit_phase_flipping gm] ->
     exists K,
       f flip_rate = Some (from_kraus K bases1_default)
       /\ shape K = [2; 2; 2]%nat
       /\ forall i j, (i < 2)%nat -> (j < 2)%nat ->
            kraus_sum K 2 i j = (RtoC s * Mid i j)%C)
  /\ (forall rate,
        0 <= rate <= 4 / 3 ->
        exists K,
          depolarization gm rate = Some (from_kraus K bases1_default)
          /\ shape K = [4; 2; 2]%nat
          /\ forall i j, (i < 2)%nat -> (j < 2)%nat ->
               kraus_sum K 2 i j = (RtoC (2 * s) * Mid i j)%C).
Proof.
  intros Hshape Hnorm. split.
  - intros p f Hp [<- | [<- | [<- | []]]].
    + apply (flipping_norm gm s Hshape Hnorm "X" 1); auto.
    + apply (flipping_norm gm s Hshape Hnorm "Z" 3); auto.
    + apply (flipping_norm gm s Hshape Hnorm "Y" 2); auto.
  - intros rate Hr. now apply (depolarization_norm gm s Hshape Hnorm).
Qed.

Lemma gell_mann_2_norm (x i j : nat) :
  (x < 4)%nat -> (i < 2)%nat -> (j < 2)%nat ->
  Mmult 2 (adjoint (element gell_mann_2 x)) (element gell_mann_2 x) i j
  = (RtoC (1 / 2) * Mid i j)%C.
Proof.
  intros Hx Hi Hj.
  below4 x Hx; below2 i Hi; below2 j Hj; apply C_eq; cbn; sqrt_half.
Qed.

Lemma pauli_channels_normalization_witness :
  shape (vectors gell_mann_2) = [4; 2; 2]%nat
  /\ (forall flip_rate f,
        0 <= flip_rate <= 1 ->
        In f [bit_flipping gell_mann_2; phase_flipping gell_mann_2;
              bit_phase_flipping gell_mann_2] ->
        exists K,
          f flip_rate = Some (from_kraus K bases1_default)
          /\ shape K = [2; 2; 2]%nat
          /\ forall i j, (i < 2)%nat -> (j < 2)%nat ->
               kraus_sum K 2 i j = (RtoC (1 / 2) * Mid i j)%C)
  /\ (forall rate,
        0 <= rate <= 4 / 3 ->
        exists K,
          depolarization gell_mann_2 rate = Some (from_kraus K bases1_default)
          /\ shape K = [4; 2; 2]%nat
          /\ forall i j, (i < 2)%nat -> (j < 2)%nat ->
               kraus_sum K 2 i j = (RtoC (2 * (1 / 2)) * Mid i j)%C).
Proof.
  split; [reflexivity |].
  exact (pauli_channels_normalization gell_mann_2 (1 / 2) eq_refl gell_mann_2_norm).
Defined.

(** ** The controlled gates *)

Lemma same_shape_eq (s t : list nat) : same_shape s t = true -> s = t.
Proof.
  revert t. induction s as [| a s IH]; intros [| b t]; simpl;
    try discriminate; try reflexivity.
  intros H. apply andb_prop in H as [Hab Hst].
  apply Nat.eqb_eq in Hab. apply IH in Hst. congruence.
Qed.

Lemma controlled_unitary_blocks (array_ragged : list (list ndarray) -> result ndarray)
    (U : ndarray) :
  shape U = [2; 2]%nat ->
  controlled_unitary array_ragged U
  = Ok (from_kraus
          {| shape := [2; 2; 2; 2]%nat;
             item := fun idx =>
               match idx with
               | 0 :: 0 :: rest => item (eye 2) rest
               | 0 :: 1 :: rest => item (zeros [2; 2]) rest
               | 1 :: 0 :: rest => item (zeros [2; 2]) rest
               | 1 :: 1 :: rest => item U rest
               | _ => C0
               end |}%nat
          bases2_default).
Proof.
  intros HU. unfold controlled_unitary, array_blocks. rewrite HU. reflexivity.
Qed.

(** X15.  [controlled_unitary] raises IndexError on an array without axes
    and ValueError on one that is not square.  On a 2 x 2 array it
    hands [Operation.from_kraus] an array of shape (2, 2, 2, 2): the
    four 2 x 2 blocks (identity, zeros, zeros, the given matrix) along
    two new leading axes, not a 4 x 4 matrix.  [controlled_rotation]
    raises ValueError for an axis other than "x", "y", "z" and is
    [controlled_unitary] of the matrix of [rotate_x], [rotate_y] or
    [rotate_z] otherwise; numpy is never given blocks of different
    shapes there. *)
Theorem controlled_gates_array
    (array_ragged : list (list ndarray) -> result ndarray) :
  (forall U, shape U = [] -> controlled_unitary array_ragged U = Raise IndexError)
  /\ (forall U d rest,
        shape U = d :: rest -> rest <> [d] ->
        controlled_unitary array_ragged U = Raise ValueError)
  /\ (forall U,
        shape U = [2; 2]%nat ->
        exists K,
          controlled_unitary array_ragged U = Ok (from_kraus K bases2_default)
          /\ shape K = [2; 2; 2; 2]%nat
          /\ forall i j,
               item K [0; 0; i; j]%nat = item (eye 2) [i; j]
               /\ item K [0; 1; i; j]%nat = C0
               /\ item K [1; 0; i; j]%nat = C0
               /\ item K [1; 1; i; j]%nat = item U [i; j])
  /\ (forall angle axis,
        (axis <> "x" /\ axis <> "y" /\ axis <> "z")%string ->
        controlled_rotation array_ragged angle axis = Raise ValueError)
  /\ (forall angle axis U,
        (axis = "x" /\ U = rotate_x_matrix angle
         \/ axis = "y" /\ U = rotate_y_matrix angle
         \/ axis = "z" /\ U = rotate_z_matrix angle)%string ->
        exists K K',
          controlled_rotation array_ragged angle axis
          = Ok (from_kraus K bases2_default)
          /\ controlled_unitary array_ragged U = Ok (from_kraus K' bases2_default)
          /\ shape K = [2; 2; 2; 2]%nat /\ shape K' = shape K
          /\ forall idx, item K idx = item K' idx).
Proof.
  split; [| split; [| split; [| split]]].
  - intros U HU. unfold controlled_unitary. now rewrite HU.
  - intros U d rest HU Hrest. unfold controlled_unitary. rewrite HU.
    cbn [Py.bind same_shape]. rewrite Nat.eqb_refl. cbn [andb].
    destruct (same_shape rest [d]) eqn:E; [| reflexivity].
    apply same_shape_eq in E. contradiction.
  - intros U HU. rewrite (controlled_unitary_blocks array_ragged U HU).
    eexists. split; [reflexivity |]. split; [reflexivity |].
    intros i j. cbn [item]. auto.
  - intros angle axis (Hx & Hy & Hz). unfold controlled_rotation.
    destruct (String.eqb_spec axis "x"); [contradiction |].
    destruct (String.eqb_spec axis "y"); [contradiction |].
    destruct (String.eqb_spec axis "z"); [contradiction |].
    reflexivity.
  - intros angle axis U [[-> ->] | [[-> ->] | [-> ->]]];
      unfold controlled_rotation;
      cbn [String.eqb Ascii.eqb Bool.eqb Py.bind];
      rewrite !controlled_unitary_blocks by reflexivity;
      do 2 eexists; (split; [reflexivity |]); (split; [reflexivity |]);
      (split; [reflexivity |]); (split; [reflexivity |]);
      intros idx; try reflexivity.
    destruct idx as [| [| [| a]] [| [| [| b]] [| i [| j [| k rest]]]]];
      try reflexivity.
    index2 i; index2 j; cbn; try reflexivity;
      repeat match goal with
             | |- context [if ?c then _ else _] => destruct c
             | |- context [match ?x with O => _ | S _ => _ end] => destruct x
             end; reflexivity.
Qed.

End QubitsLaws.

(** * Laws of the backend class *)

Module Dm10Laws.

Import stdpp.base stdpp.gmap.
Import Dm10 Dm10Facts.
Local Open Scope Z_scope.

(** ** Lists of zeros and quarters of a buffer *)

Lemma skipn_repeat {A : Type} (x : A) (k n : nat) :
  skipn k (repeat x n) = repeat x (n - k).
Proof.
  revert n. induction k as [| k IH]; intros [| n]; simpl; auto.
Qed.

Lemma firstn_repeat {A : Type} (x : A) (k n : nat) :
  (k <= n)%nat -> firstn k (repeat x n) = repeat x k.
Proof.
  revert n. induction k as [| k IH]; intros [| n] H; simpl; auto; try lia.
  f_equal. apply IH. lia.
Qed.

Lemma elems_3 (k : Z) : 0 <= k -> elems (3 * (k * 8)) = (3 * Z.to_nat k)%nat.
Proof.
  intros Hk. replace (3 * (k * 8)) with (3 * k * 8) by lia.
  rewrite elems_bytes, Z2Nat.inj_mul by lia. reflexivity.
Qed.

Lemma length_state_of (s : Density) :
  wf s -> length (state_of s) = Z.to_nat (4 ^ no_qubits s).
Proof.
  intros (Hn & _ & Hc). unfold state_of. rewrite length_firstn.
  assert (4 ^ no_qubits s <= 4 ^ allocated_qubits s) by (apply pow4_mono; lia).
  unfold size in Hc. lia.
Qed.

(** ** The invariant of the class *)

Lemma geometry_covers (n : Z) :
  0 <= n -> 4 ^ n <= 2 ^ 8 * 2 ^ Z.max 0 (2 * n - 8).
Proof.
  intros Hn. rewrite <- pow2_double, <- Z.pow_add_r by lia.
  apply Z.pow_le_mono_r; lia.
Qed.

Lemma set_no_qubits_fields (s s1 : Density) (n : Z) :
  _set_no_qubits s n = Ok s1 ->
  no_qubits s1 = n
  /\ allocated_diag s1 = allocated_diag s
  /\ data s1 = data s
  /\ diag_work s1 = diag_work s
  /\ _blocksize s1 = 2 ^ 8
  /\ _gridsize s1 = 2 ^ Z.max 0 (2 * n - 8).
Proof.
  unfold _set_no_qubits. destruct (shl1 (2 * n)); [| discriminate].
  simpl. intros [= <-]. simpl. auto 6.
Qed.

Lemma add_ancilla_fields (s s1 : Density) (a : Z) :
  add_ancilla s a = Ok s1 ->
  allocated_diag s1 = allocated_diag s
  /\ (ga_dtype (data s1) = Float64 \/ ga_dtype (data s1) = ga_dtype (data s))
  /\ _blocksize s1 = 2 ^ 8
  /\ _gridsize s1 = 2 ^ Z.max 0 (2 * no_qubits s1 - 8).
Proof.
  unfold add_ancilla.
  assert (Hgoal : forall s2 : Density,
             _set_no_qubits s2 (no_qubits s2 + 1) = Ok s1 ->
             allocated_diag s2 = allocated_diag s ->
             (ga_dtype (data s2) = Float64
              \/ ga_dtype (data s2) = ga_dtype (data s)) ->
             allocated_diag s1 = allocated_diag s
             /\ (ga_dtype (data s1) = Float64
                 \/ ga_dtype (data s1) = ga_dtype (data s))
             /\ _blocksize s1 = 2 ^ 8
             /\ _gridsize s1 = 2 ^ Z.max 0 (2 * no_qubits s1 - 8)).
  { intros s2 E E1 E2.
    apply set_no_qubits_fields in E as (-> & -> & -> & _ & -> & ->). auto. }
  destruct (allocated_qubits s =? no_qubits s).
  - destruct (memcpy_dtod _ _ _ _ _) as [b |]; [| discriminate]. simpl.
    intros E. apply (Hgoal _ E); simpl; auto.
  - destruct (a =? 0).
    + destruct (memset_d8 _ _ _) as [b |]; [| discriminate]. simpl.
      destruct (a =? 1).
      * destruct (memcpy_dtod _ _ _ _ _) as [b1 |]; [| discriminate]. simpl.
        destruct (memset_d8 b1 _ _) as [b2 |]; [| discriminate]. simpl.
        intros E. apply (Hgoal _ E); simpl; auto.
      * simpl. intros E. apply (Hgoal _ E); simpl; auto.
    + simpl. destruct (a =? 1).
      * destruct (memcpy_dtod _ _ _ _ _) as [b1 |]; [| discriminate]. simpl.
        destruct (memset_d8 b1 _ _) as [b2 |]; [| discriminate]. simpl.
        intros E. apply (Hgoal _ E); simpl; auto.
      * simpl. intros E. apply (Hgoal _ E); simpl; auto.
Qed.

Lemma project_measurement_fields (dev : device) (s s1 : Density) (bit state : Z) :
  project_measurement dev s bit state = Ok s1 ->
  allocated_diag s1 = allocated_diag s
  /\ ga_dtype (data s1) = ga_dtype (data s)
  /\ _blocksize s1 = 2 ^ 8
  /\ _gridsize s1 = 2 ^ Z.max 0 (2 * no_qubits s1 - 8).
Proof.
  unfold project_measurement.
  destruct (_validate_bit s bit); [| discriminate]. simpl.
  set (s' := if negb (bit =? no_qubits s - 1) then _ else s).
  assert (Hs' : allocated_diag s' = allocated_diag s
                /\ ga_dtype (data s') = ga_dtype (data s)).
  { subst s'. destruct (negb _); simpl; auto. }
  clearbody s'. destruct Hs' as [Ed Et].
  assert (Hgoal : forall s2 : Density,
             _set_no_qubits s2 (no_qubits s2 - 1) = Ok s1 ->
             allocated_diag s2 = allocated_diag s' ->
             ga_dtype (data s2) = ga_dtype (data s') ->
             allocated_diag s1 = allocated_diag s
             /\ ga_dtype (data s1) = ga_dtype (data s)
             /\ _blocksize s1 = 2 ^ 8
             /\ _gridsize s1 = 2 ^ Z.max 0 (2 * no_qubits s1 - 8)).
  { intros s2 E E1 E2.
    apply set_no_qubits_fields in E as (-> & -> & -> & _ & -> & ->).
    repeat split; congruence. }
  destruct (state =? 1).
  - destruct (memcpy_dtod _ _ _ _ _) as [b |]; [| discriminate]. simpl.
    intros E. apply (Hgoal _ E); reflexivity.
  - simpl. intros E. apply (Hgoal _ E); reflexivity.
Qed.

Lemma invariant_set_buf (s : Density) (b : list float64) :
  invariant s -> length b = length (gpudata (data s)) -> invariant (set_buf s b).
Proof.
  intros (Hwf & Hd & Ht & Hb & Hg) Hlen. unfold invariant.
  split; [now apply wf_set_buf |]. simpl. auto.
Qed.

Lemma invariant_alloc_diag (dev : device) (s : Density) :
  invariant s -> invariant (alloc_diag dev s).
Proof.
  intros (Hwf & Hd & Ht & Hb & Hg). unfold invariant.
  split; [now apply alloc_diag_wf |].
  unfold alloc_diag. destruct (allocated_diag s <? no_qubits s); simpl; auto.
Qed.

Lemma invariant_set_diag (s : Density) (b : list float64) :
  invariant s -> invariant (set_diag s b).
Proof. intros H. exact H. Qed.

Lemma init_invariant (dev : device) (n : Z) (arg : data_arg) (s : Density) :
  __init__ dev n arg = Ok s -> invariant s.
Proof.
  intros Hinit. pose proof (init_wf dev n arg s Hinit) as (Hwf & Hn & _).
  split; [exact Hwf |]. revert Hinit. unfold __init__.
  destruct (_set_no_qubits _ n) as [s0 |] eqn:E0; [| discriminate]. simpl.
  apply set_no_qubits_fields in E0 as (E1 & E2 & _ & _ & E5 & E6).
  simpl in E2.
  destruct (15 <? n); [discriminate |]. simpl.
  destruct arg as [| a | g |].
  - intros [= <-]. simpl. rewrite E1. auto.
  - destruct (shape_eqb _ _); [| discriminate]. simpl.
    intros [= <-]. simpl. rewrite E1. auto.
  - destruct (size g =? _size s0); [| discriminate].
    destruct (dtype_eqb (ga_dtype g) Float64) eqn:Et; [| discriminate].
    intros [= <-]. simpl. rewrite E1.
    repeat split; auto. now destruct (ga_dtype g).
  - discriminate.
Qed.

Lemma call_invariant (dev : device) (cache cache' : ptm_cache)
    (s s' : Density) (o : op) :
  invariant s -> call dev (cache, s) o = Ok (cache', s') -> invariant s'.
Proof.
  intros Hinv Hcall.
  assert (Hwf' : wf s') by (destruct Hinv as (Hwf & _); eapply call_wf; eauto).
  revert Hcall.
  destruct o as [bit p | b0 b1 p | a | bit st | | | bit |]; simpl.
  - unfold apply_ptm.
    destruct (_validate_bit s bit); [| discriminate]. simpl.
    destruct (cached_ptm _ _ _ _) as [cp |]; [| discriminate]. simpl.
    intros [= _ <-]. apply invariant_set_buf; [assumption | apply length_launch].
  - unfold apply_two_ptm.
    destruct (_validate_bit s b0); [| discriminate]. simpl.
    destruct (_validate_bit s b1); [| discriminate]. simpl.
    destruct (cached_ptm _ _ _ _) as [cp |]; [| discriminate]. simpl.
    intros [= _ <-]. apply invariant_set_buf; [assumption | apply length_launch].
  - destruct (add_ancilla s a) as [s1 |] eqn:E; [| discriminate]. simpl.
    intros [= _ <-].
    destruct Hinv as (_ & Hd & Ht & _).
    destruct (add_ancilla_fields s s1 a E) as (E1 & E2 & E3 & E4).
    repeat split; try apply Hwf'; try congruence.
    destruct E2; congruence.
  - destruct (project_measurement dev s bit st) as [s1 |] eqn:E; [| discriminate].
    simpl. intros [= _ <-].
    destruct Hinv as (_ & Hd & Ht & _).
    destruct (project_measurement_fields dev s s1 bit st E) as (E1 & E2 & E3 & E4).
    repeat split; try apply Hwf'; congruence.
  - unfold trace. destruct (10 <? no_qubits s); [discriminate |]. simpl.
    intros [= _ <-]. apply invariant_set_diag. now apply invariant_alloc_diag.
  - unfold renormalize, trace.
    destruct (10 <? no_qubits s); [discriminate |]. cbn [Py.bind fst snd].
    intros [= _ <-]. apply invariant_set_buf; [| apply length_map].
    apply invariant_set_diag. now apply invariant_alloc_diag.
  - unfold partial_trace.
    destruct (_validate_bit s bit); [| discriminate]. simpl.
    destruct (10 <? no_qubits s); [discriminate |]. simpl.
    intros [= _ <-]. apply invariant_set_diag. now apply invariant_alloc_diag.
  - intros [= _ <-]. unfold get_diag; simpl.
    apply invariant_set_diag. now apply invariant_alloc_diag.
Qed.

Lemma reachable_inv (dev : device) (s : Density) : reachable dev s -> invariant s.
Proof.
  induction 1 as [n arg s Hinit | cache cache' s s' o _ IH Hcall].
  - eapply init_invariant; eauto.
  - eapply call_invariant; eauto.
Qed.

Lemma ground1_reachable (dev : device) : reachable dev ground1.
Proof. apply (reach_init dev 1 DataNone). reflexivity. Qed.

(** X16.  The invariant of the class.  Every [Density] the constructor and
    the methods produce has [0 <= no_qubits <= allocated_qubits],
    [_size = 4 ^ no_qubits], a float64 buffer of at least
    [4 ^ allocated_qubits] entries, [allocated_diag = -1] (it is never
    assigned again), and a launch geometry of [_blocksize * _gridsize]
    threads that covers the [_size] entries of the state. *)
Theorem reachable_invariant (dev : device) (s : Density) :
  reachable dev s ->
  invariant s /\ _size s <= _blocksize s * _gridsize s.
Proof.
  intros Hr. pose proof (reachable_inv dev s Hr) as Hinv.
  split; [exact Hinv |].
  destruct Hinv as ((Hn & Hs & _) & _ & _ & -> & ->). rewrite Hs.
  apply geometry_covers. lia.
Qed.

Lemma reachable_invariant_witness :
  reachable idle_device ground1
  /\ invariant ground1 /\ _size ground1 <= _blocksize ground1 * _gridsize ground1.
Proof.
  split; [exact (ground1_reachable idle_device) |].
  exact (reachable_invariant idle_device ground1 (ground1_reachable idle_device)).
Defined.

(** ** [trace], [get_diag], [partial_trace], [renormalize] *)

Lemma alloc_diag_fresh (dev : device) (s : Density) :
  invariant s ->
  alloc_diag dev s
  = {| allocated_qubits := no_qubits s;
       allocated_diag := allocated_diag s;
       no_qubits := no_qubits s;
       _size := _size s;
       _blocksize := _blocksize s;
       _gridsize := _gridsize s;
       data := data s;
       diag_work := Some (ga_empty dev (Z.shiftl 1 (no_qubits s))) |}.
Proof.
  intros ((Hn & _) & Hd & _). unfold alloc_diag. rewrite Hd.
  destruct (Z.ltb_spec (-1) (no_qubits s)); [reflexivity | lia].
Qed.

Lemma diag_effect_intro (dev : device) (s : Density) (b : list float64) :
  invariant s ->
  length b = length (diag_buf (alloc_diag dev s)) ->
  diag_effect s (set_diag (alloc_diag dev s) b).
Proof.
  intros Hinv Hlen. rewrite (alloc_diag_fresh dev s Hinv) in *.
  unfold diag_effect, diag_buf, set_diag in *. simpl in *.
  repeat split. rewrite Hlen, length_map, length_seq.
  now rewrite Z.shiftl_1_l.
Qed.

(** X17.  [trace], [get_diag] and [partial_trace] on an object in any state
    it can be in: [trace] (up to 10 qubits), [get_diag] (any size) and
    [partial_trace] (valid index, up to 10 qubits) return, leave
    [no_qubits] and the data as they are, replace [diag_work] by a
    buffer of [2 ^ no_qubits] entries and set [allocated_qubits] to
    [no_qubits]; [renormalize] raises NotImplementedError above 10
    qubits, as [trace] does. *)
Theorem diag_methods_effect (dev : device) (s : Density) :
  reachable dev s ->
  (no_qubits s <= 10 ->
     exists s1 t,
       trace dev s = Ok (s1, t)
       /\ diag_effect s s1 /\ t = nth 0 (diag_buf s1) f0)
  /\ (diag_effect s (fst (get_diag dev s))
      /\ snd (get_diag dev s) = diag_buf (fst (get_diag dev s)))
  /\ (forall bit,
        0 <= bit < no_qubits s -> no_qubits s <= 10 ->
        exists s1 p,
          partial_trace dev s bit = Ok (s1, p)
          /\ diag_effect s s1
          /\ p = (nth 1 (diag_buf s1) f0, nth 0 (diag_buf s1) f0))
  /\ (10 < no_qubits s -> renormalize dev s = Raise NotImplementedError).
Proof.
  intros Hr. pose proof (reachable_inv dev s Hr) as Hinv.
  split; [| split; [| split]].
  - intros Hn. unfold trace.
    destruct (Z.ltb_spec 10 (no_qubits s)); [lia |]. cbn [negb].
    do 2 eexists. split; [reflexivity |]. split; [| reflexivity].
    apply diag_effect_intro; [assumption |].
    now rewrite !length_launch.
  - unfold get_diag. cbn [fst snd]. split; [| reflexivity].
    apply diag_effect_intro; [assumption |].
    now rewrite length_launch.
  - intros bit Hbit Hn. unfold partial_trace.
    rewrite validate_bit_ok by assumption. cbn [Py.bind].
    destruct (Z.ltb_spec 10 (no_qubits s)); [lia |]. cbn [negb].
    do 2 eexists. split; [reflexivity |]. split; [| reflexivity].
    apply diag_effect_intro; [assumption |].
    now rewrite !length_launch.
  - intros Hn. unfold renormalize, trace.
    destruct (Z.ltb_spec 10 (no_qubits s)); [reflexivity | lia].
Qed.

Lemma diag_methods_effect_witness :
  reachable idle_device ground1
  /\ (no_qubits ground1 <= 10 ->
        exists s1 t,
          trace idle_device ground1 = Ok (s1, t)
          /\ diag_effect ground1 s1 /\ t = nth 0 (diag_buf s1) f0)
  /\ (diag_effect ground1 (fst (get_diag idle_device ground1))
      /\ snd (get_diag idle_device ground1)
         = diag_buf (fst (get_diag idle_device ground1)))
  /\ (forall bit,
        0 <= bit < no_qubits ground1 -> no_qubits ground1 <= 10 ->
        exists s1 p,
          partial_trace idle_device ground1 bit = Ok (s1, p)
          /\ diag_effect ground1 s1
          /\ p = (nth 1 (diag_buf s1) f0, nth 0 (diag_buf s1) f0))
  /\ (10 < no_qubits ground1 ->
        renormalize idle_device ground1 = Raise NotImplementedError).
Proof.
  split; [exact (ground1_reachable idle_device) |].
  exact (diag_methods_effect idle_device ground1 (ground1_reachable idle_device)).
Defined.

(** ** [allocated_qubits] as a high-water mark *)

(** X18.  On an object in any state it can be in, a sequence of calls of
    [apply_ptm], [apply_two_ptm], [add_ancilla] and
    [project_measurement] (raising calls included: they leave the
    object as it is) ends with [allocated_qubits] equal to the largest
    of its value before and the values [no_qubits] has taken. *)
Theorem allocated_qubits_high_water (dev : device) (cache : ptm_cache)
    (s : Density) (ops : list op) :
  reachable dev s -> forallb no_diag ops = true ->
  allocated_qubits (snd (final dev (cache, s) ops))
  = Z.max (allocated_qubits s) (high_water (history dev (cache, s) ops)).
Proof.
  intros Hr Hops.
  exact (high_water_without_diag dev ops (cache, s) (reachable_wf dev s Hr) Hops).
Qed.

Lemma allocated_qubits_high_water_witness :
  reachable idle_device ground1
  /\ forallb no_diag some_calls = true
  /\ allocated_qubits (snd (final idle_device (∅, ground1) some_calls))
     = Z.max (allocated_qubits ground1)
         (high_water (history idle_device (∅, ground1) some_calls)).
Proof.
  split; [exact (ground1_reachable idle_device) |].
  split; [reflexivity |].
  exact (allocated_qubits_high_water idle_device ∅ ground1 some_calls
           (ground1_reachable idle_device) eq_refl).
Defined.

(** ** [add_ancilla] and [project_measurement] on the data *)

Lemma to_nat_4N (k : Z) : 0 <= k -> Z.to_nat (k * 4) = (4 * Z.to_nat k)%nat.
Proof. intros Hk. rewrite Z2Nat.inj_mul by lia. simpl Z.to_nat. lia. Qed.

Ltac zero_offsets :=
  change (elems 0) with 0%nat; rewrite ?firstn_O, ?skipn_O; cbn [app Nat.add].

Lemma add_ancilla_layout (s : Density) (a : Z) :
  wf s -> a = 0 \/ a = 1 ->
  exists s1,
    add_ancilla s a = Ok s1
    /\ gpudata (data s1)
       = with_ancilla a (state_of s)
         ++ (if allocated_qubits s =? no_qubits s then []
             else skipn (4 * Z.to_nat (4 ^ no_qubits s)) (gpudata (data s))).
Proof.
  intros Hwf Ha. pose proof (length_state_of s Hwf) as Hlen.
  destruct Hwf as (Hn & Hs & Hc).
  assert (Hpos : 0 < 4 ^ no_qubits s) by (apply pow4_pos; lia).
  assert (Hmono : 4 ^ no_qubits s <= 4 ^ allocated_qubits s)
    by (apply pow4_mono; lia).
  unfold size in Hc.
  unfold with_ancilla. rewrite Hlen. unfold state_of.
  set (N := Z.to_nat (4 ^ no_qubits s)) in *.
  set (buf := gpudata (data s)) in *.
  assert (HN : Z.of_nat N = 4 ^ no_qubits s) by (subst N; lia).
  unfold add_ancilla. rewrite pow2_double by lia.
  assert (E1 : elems (4 ^ no_qubits s * 8) = N) by apply elems_bytes.
  assert (E3 : elems (3 * (4 ^ no_qubits s * 8)) = (3 * N)%nat)
    by (apply elems_3; lia).
  destruct (Z.eqb_spec (allocated_qubits s) (no_qubits s)) as [Heq | Hne].
  - (* a larger buffer is allocated *)
    unfold memcpy_dtod, ga_zeros. cbn [gpudata]. fold buf.
    rewrite Hs, to_nat_4N by lia. fold N.
    replace (in_bounds (length buf) 0 (4 ^ no_qubits s * 8)) with true
      by (symmetry; apply (in_bounds_intro (length buf) 0); lia).
    rewrite andb_true_r, repeat_length.
    zero_offsets. rewrite E1, app_nil_r.
    destruct Ha as [-> | ->].
    + change (0 * 3 * (4 ^ no_qubits s * 8)) with 0.
      replace (in_bounds (4 * N) 0 (4 ^ no_qubits s * 8)) with true
        by (symmetry; apply (in_bounds_intro (4 * N) 0); lia).
      cbn [Py.bind]. rewrite set_no_qubits_ok by (simpl; lia).
      eexists. split; [reflexivity |]. cbn [data gpudata set_data].
      zero_offsets. cbn [Z.eqb].
      rewrite skipn_repeat. repeat f_equal; lia.
    + replace (1 * 3 * (4 ^ no_qubits s * 8)) with (3 * (4 ^ no_qubits s * 8))
        by lia.
      replace (in_bounds (4 * N) (3 * (4 ^ no_qubits s * 8)) (4 ^ no_qubits s * 8))
        with true
        by (symmetry;
            replace (3 * (4 ^ no_qubits s * 8)) with (3 * 4 ^ no_qubits s * 8)
              by lia;
            apply in_bounds_intro; lia).
      cbn [Py.bind]. rewrite set_no_qubits_ok by (simpl; lia).
      eexists. split; [reflexivity |]. cbn [data gpudata set_data]. rewrite E3.
      cbn [Z.eqb]. rewrite firstn_repeat, skipn_repeat by lia.
      replace (4 * N - (3 * N + N))%nat with 0%nat by lia.
      cbn [repeat]. now rewrite app_nil_r.
  - (* the buffer is reused *)
    assert (Hlt : no_qubits s + 1 <= allocated_qubits s) by lia.
    assert (Hbig : 4 * 4 ^ no_qubits s <= 4 ^ allocated_qubits s).
    { rewrite <- pow4_succ by lia. apply pow4_mono; lia. }
    destruct Ha as [-> | ->]; cbn [Z.eqb Pos.eqb].
    + unfold memset_d8. fold buf.
      replace (in_bounds (length buf) (4 ^ no_qubits s * 8) (3 * (4 ^ no_qubits s * 8)))
        with true
        by (symmetry;
            replace (3 * (4 ^ no_qubits s * 8)) with (3 * 4 ^ no_qubits s * 8)
              by lia;
            apply in_bounds_intro; lia).
      cbn [Py.bind]. rewrite set_no_qubits_ok by (simpl; lia).
      eexists. split; [reflexivity |].
      cbn [data gpudata set_data set_buf]. rewrite E1, E3.
      rewrite <- app_assoc. repeat f_equal; lia.
    + cbn [Py.bind]. unfold memcpy_dtod. fold buf.
      replace (in_bounds (length buf) (3 * (4 ^ no_qubits s * 8)) (4 ^ no_qubits s * 8))
        with true
        by (symmetry;
            replace (3 * (4 ^ no_qubits s * 8)) with (3 * 4 ^ no_qubits s * 8)
              by lia;
            apply in_bounds_intro; lia).
      replace (in_bounds (length buf) 0 (4 ^ no_qubits s * 8)) with true
        by (symmetry; apply (in_bounds_intro (length buf) 0); lia).
      cbn [andb Py.bind]. zero_offsets.
      rewrite E1, E3.
      set (b1 := firstn (3 * N) buf ++ firstn N buf ++ skipn (3 * N + N) buf).
      assert (Hb1 : length b1 = length buf).
      { subst b1. rewrite !length_app, !length_firstn, length_skipn. lia. }
      unfold memset_d8. rewrite Hb1.
      replace (in_bounds (length buf) 0 (3 * (4 ^ no_qubits s * 8))) with true
        by (symmetry;
            replace (3 * (4 ^ no_qubits s * 8)) with (3 * 4 ^ no_qubits s * 8)
              by lia;
            apply (in_bounds_intro (length buf) 0); lia).
      cbn [Py.bind]. rewrite set_no_qubits_ok by (simpl; lia).
      eexists. split; [reflexivity |].
      cbn [data gpudata set_data set_buf].
      zero_offsets. rewrite E3.
      subst b1. rewrite skipn_app, length_firstn.
      replace (Nat.min (3 * N) (length buf)) with (3 * N)%nat by lia.
      rewrite Nat.sub_diag, skipn_O.
      rewrite skipn_firstn_comm, Nat.sub_diag, firstn_O. cbn [app].
      rewrite <- app_assoc. repeat f_equal; lia.
Qed.

Lemma firstn_exact {A : Type} (l r : list A) : firstn (length l) (l ++ r) = l.
Proof.
  rewrite firstn_app, Nat.sub_diag, firstn_all, firstn_O. apply app_nil_r.
Qed.

Lemma skipn_exact {A : Type} (l r : list A) : skipn (length l) (l ++ r) = r.
Proof. rewrite skipn_app, Nat.sub_diag, skipn_all, skipn_O. reflexivity. Qed.

Lemma length_with_ancilla (a : Z) (st : list float64) :
  length (with_ancilla a st) = (4 * length st)%nat.
Proof.
  unfold with_ancilla. destruct (a =? 0);
    rewrite length_app, repeat_length; lia.
Qed.

Lemma add_ancilla_spec (s : Density) (a : Z) :
  wf s -> a = 0 \/ a = 1 ->
  exists s1,
    add_ancilla s a = Ok s1
    /\ no_qubits s1 = no_qubits s + 1
    /\ allocated_qubits s1 = Z.max (allocated_qubits s) (no_qubits s + 1)
    /\ state_of s1 = with_ancilla a (state_of s)
    /\ size (data s1)
       = (if allocated_qubits s =? no_qubits s then 4 ^ (no_qubits s + 1)
          else size (data s)).
Proof.
  intros Hwf Ha.
  destruct (add_ancilla_layout s a Hwf Ha) as (s1 & Hadd & Hdata).
  destruct (add_ancilla_wf s s1 a Hwf Hadd) as (_ & Hn1 & Ha1).
  pose proof (length_state_of s Hwf) as Hlen.
  pose proof (length_with_ancilla a (state_of s)) as Hlen4.
  destruct Hwf as (Hn & Hs & Hc).
  assert (Hpos : 0 < 4 ^ no_qubits s) by (apply pow4_pos; lia).
  exists s1. split; [exact Hadd |]. split; [exact Hn1 |].
  split; [now rewrite Ha1, Hn1 |]. split.
  - unfold state_of at 1. rewrite Hn1, Hdata, pow4_succ by lia.
    replace (Z.to_nat (4 * 4 ^ no_qubits s))
      with (length (with_ancilla a (state_of s)))
      by (rewrite Hlen4, Hlen; lia).
    apply firstn_exact.
  - unfold size. rewrite Hdata, length_app, Hlen4, Hlen.
    destruct (Z.eqb_spec (allocated_qubits s) (no_qubits s)) as [Heq | Hne].
    + cbn [length]. rewrite pow4_succ by lia. lia.
    + rewrite length_skipn.
      assert (4 * 4 ^ no_qubits s <= 4 ^ allocated_qubits s).
      { rewrite <- pow4_succ by lia. apply pow4_mono; lia. }
      unfold size in Hc. lia.
Qed.

Lemma project_measurement_spec (dev : device) (s : Density) (bit state : Z) :
  wf s -> 0 <= bit < no_qubits s ->
  exists s1,
    project_measurement dev s bit state = Ok s1
    /\ no_qubits s1 = no_qubits s - 1
    /\ allocated_qubits s1 = allocated_qubits s
    /\ size (data s1) = size (data s)
    /\ (bit = no_qubits s - 1 -> state_of s1 = quarter state (state_of s)).
Proof.
  intros Hwf Hbit. pose proof (length_state_of s Hwf) as Hlen.
  pose proof Hwf as (Hn & Hs & Hc).
  assert (Hq : 4 ^ no_qubits s = 4 * 4 ^ (no_qubits s - 1)).
  { rewrite <- pow4_succ by lia. f_equal. lia. }
  assert (Hpos : 0 < 4 ^ (no_qubits s - 1)) by (apply pow4_pos; lia).
  assert (Hmono : 4 ^ no_qubits s <= 4 ^ allocated_qubits s)
    by (apply pow4_mono; lia).
  set (q := Z.to_nat (4 ^ (no_qubits s - 1))).
  assert (HN : Z.to_nat (4 ^ no_qubits s) = (4 * q)%nat) by (subst q; lia).
  assert (Hex : exists s1, project_measurement dev s bit state = Ok s1).
  { unfold project_measurement. rewrite validate_bit_ok by assumption.
    cbn [Py.bind].
    set (s' := if negb (bit =? no_qubits s - 1) then _ else s).
    assert (Hs' : no_qubits s' = no_qubits s
                  /\ length (gpudata (data s')) = length (gpudata (data s))).
    { subst s'. destruct (negb _); [| auto].
      split; [reflexivity |]. apply length_launch. }
    clearbody s'. destruct Hs' as [En El]. rewrite En.
    destruct (state =? 1).
    - replace (2 * no_qubits s - 2) with (2 * (no_qubits s - 1)) by lia.
      rewrite pow2_double by lia.
      destruct (memcpy_ok (gpudata (data s')) (gpudata (data s'))
                  0 (3 * 4 ^ (no_qubits s - 1)) (4 ^ (no_qubits s - 1)))
        as [b Hb]; try lia; try (unfold size in Hc; lia).
      replace (3 * 4 ^ (no_qubits s - 1) * 8)
        with (3 * (4 ^ (no_qubits s - 1) * 8)) in Hb by lia.
      change (0 * 8) with 0 in Hb. rewrite Hb. cbn [Py.bind].
      rewrite set_no_qubits_ok by (simpl; lia). eauto.
    - cbn [Py.bind]. rewrite set_no_qubits_ok by lia. eauto. }
  destruct Hex as [s1 Hproj]. exists s1. split; [exact Hproj |].
  destruct (project_measurement_wf dev s s1 bit state Hwf Hproj)
    as (_ & Hn1 & Ha1).
  split; [exact Hn1 |]. split; [exact Ha1 |]. clear Hn1 Ha1.
  unfold size in *. set (buf := gpudata (data s)) in *.
  revert Hproj. unfold project_measurement.
  rewrite validate_bit_ok by assumption. cbn [Py.bind].
  destruct (Z.eqb_spec bit (no_qubits s - 1)) as [Hlast | Hnl]; cbn [negb].
  - destruct (Z.eqb_spec state 1) as [-> | Hst].
    + replace (2 * no_qubits s - 2) with (2 * (no_qubits s - 1)) by lia.
      rewrite pow2_double by lia. unfold memcpy_dtod.
      destruct (in_bounds _ 0 _ && in_bounds _ _ _); [| discriminate].
      cbn [Py.bind]. rewrite set_no_qubits_ok by (simpl; lia).
      intros [= <-]. cbn [set_buf set_data data gpudata no_qubits].
      zero_offsets. rewrite elems_bytes, elems_3 by lia. fold q. fold buf.
      assert (Hlq : length (firstn q (skipn (3 * q) buf)) = q)
        by (rewrite length_firstn, length_skipn; lia).
      split.
      * cbn [gpudata]. rewrite length_app, Hlq, length_skipn. lia.
      * intros _. unfold state_of, quarter. cbn [data gpudata no_qubits].
        fold q. fold buf. rewrite length_firstn, HN.
        replace (Nat.min (4 * q) (length buf)) with (4 * q)%nat by lia.
        replace (4 * q / 4)%nat with q
          by (rewrite Nat.mul_comm, Nat.div_mul; lia).
        cbn [Z.eqb Pos.eqb].
        rewrite <- Hlq at 1. rewrite firstn_exact.
        rewrite skipn_firstn_comm.
        replace (4 * q - 3 * q)%nat with q by lia.
        rewrite firstn_firstn. now rewrite Nat.min_id.
    + destruct (Z.eqb_spec state 1) as [| _]; [contradiction |].
      cbn [Py.bind]. rewrite set_no_qubits_ok by lia.
      intros [= <-]. cbn [data]. split; [reflexivity |].
      intros _. unfold state_of, quarter. cbn [data gpudata no_qubits].
      fold q. fold buf. rewrite length_firstn, HN.
      replace (Nat.min (4 * q) (length buf)) with (4 * q)%nat by lia.
      replace (4 * q / 4)%nat with q
        by (rewrite Nat.mul_comm, Nat.div_mul; lia).
      destruct (Z.eqb_spec state 1) as [| _]; [contradiction |].
      fold q. rewrite firstn_firstn. f_equal. lia.
  - intros Hproj. split; [| intros; contradiction].
    revert Hproj. subst buf.
    set (s' := set_buf s _).
    assert (El : length (gpudata (data s')) = length (gpudata (data s)))
      by apply length_launch.
    clearbody s'.
    destruct (state =? 1).
    + destruct (memcpy_dtod _ _ _ _ _) as [b |] eqn:Hcp; [| discriminate].
      cbn [Py.bind]. apply length_memcpy in Hcp.
      unfold _set_no_qubits. destruct (shl1 _); [| discriminate].
      cbn [Py.bind]. intros [= <-]. cbn [data set_buf set_data gpudata].
      congruence.
    + cbn [Py.bind]. unfold _set_no_qubits. destruct (shl1 _); [| discriminate].
      cbn [Py.bind]. intros [= <-]. cbn [data]. congruence.
Qed.

Lemma quarter_with_ancilla (a b : Z) (st : list float64) :
  a = 0 \/ a = 1 -> b = 0 \/ b = 1 ->
  quarter b (with_ancilla a st)
  = if a =? b then st else repeat f0 (length st).
Proof.
  intros Ha Hb. unfold quarter. rewrite length_with_ancilla.
  replace (4 * length st / 4)%nat with (length st)
    by (rewrite Nat.mul_comm, Nat.div_mul; lia).
  unfold with_ancilla.
  destruct Ha as [-> | ->], Hb as [-> | ->]; cbn [Z.eqb Pos.eqb].
  - apply firstn_exact.
  - rewrite skipn_app, skipn_all2, skipn_repeat by lia. cbn [app].
    replace (3 * length st - (3 * length st - length st))%nat
      with (length st) by lia.
    apply firstn_repeat. lia.
  - rewrite firstn_app, firstn_repeat, repeat_length by lia.
    replace (length st - 3 * length st)%nat with 0%nat by lia.
    rewrite firstn_O. apply app_nil_r.
  - rewrite <- (repeat_length f0 (3 * length st)) at 1.
    rewrite skipn_exact. apply firstn_all.
Qed.

(** X19.  [add_ancilla] on an object in any state it can be in, for an
    ancilla state 0 or 1: the call returns (there is no limit on the
    number of qubits here), [no_qubits] grows by one, the new state is
    the old one in the first quarter (0) or in the last quarter (1) with
    zeros in the other three, and the buffer is replaced by one of
    [4 ^ (no_qubits + 1)] entries exactly when it was full
    ([allocated_qubits = no_qubits]); otherwise it is reused. *)
Theorem add_ancilla_contract (dev : device) (s : Density) (anc_st : Z) :
  reachable dev s -> anc_st = 0 \/ anc_st = 1 ->
  exists s1,
    add_ancilla s anc_st = Ok s1
    /\ no_qubits s1 = no_qubits s + 1
    /\ allocated_qubits s1 = Z.max (allocated_qubits s) (no_qubits s + 1)
    /\ state_of s1 = with_ancilla anc_st (state_of s)
    /\ size (data s1)
       = (if allocated_qubits s =? no_qubits s then 4 ^ (no_qubits s + 1)
          else size (data s)).
Proof.
  intros Hr Ha. exact (add_ancilla_spec s anc_st (reachable_wf dev s Hr) Ha).
Qed.

Lemma add_ancilla_contract_witness :
  reachable idle_device ground1 /\ (1 = 0 \/ 1 = 1)
  /\ exists s1,
       add_ancilla ground1 1 = Ok s1
       /\ no_qubits s1 = no_qubits ground1 + 1
       /\ allocated_qubits s1
          = Z.max (allocated_qubits ground1) (no_qubits ground1 + 1)
       /\ state_of s1 = with_ancilla 1 (state_of ground1)
       /\ size (data s1)
          = (if allocated_qubits ground1 =? no_qubits ground1
             then 4 ^ (no_qubits ground1 + 1)
             else size (data ground1)).
Proof.
  split; [exact (ground1_reachable idle_device) |].
  split; [right; reflexivity |].
  exact (add_ancilla_contract idle_device ground1 1
           (ground1_reachable idle_device) (or_intror eq_refl)).
Defined.

(** X20.  [project_measurement] on an object in any state it can be in: it
    raises ValueError exactly when the index is out of range; otherwise
    it returns (no device copy leaves the buffer), [no_qubits] shrinks
    by one, [allocated_qubits] and the size of the buffer stay, and,
    when the projected subsystem is the highest one, the new state is
    the last quarter of the old state for outcome 1 and its first
    quarter for every other value of [state]. *)
Theorem project_measurement_contract (dev : device) (s : Density)
    (bit state : Z) :
  reachable dev s ->
  (0 <= bit < no_qubits s ->
     exists s1,
       project_measurement dev s bit state = Ok s1
       /\ no_qubits s1 = no_qubits s - 1
       /\ allocated_qubits s1 = allocated_qubits s
       /\ size (data s1) = size (data s)
       /\ (bit = no_qubits s - 1 -> state_of s1 = quarter state (state_of s)))
  /\ (~ 0 <= bit < no_qubits s ->
        project_measurement dev s bit state = Raise ValueError).
Proof.
  intros Hr. split.
  - intros Hbit.
    exact (project_measurement_spec dev s bit state (reachable_wf dev s Hr) Hbit).
  - intros Hbit. unfold project_measurement.
    now rewrite validate_bit_raises.
Qed.

Lemma project_measurement_contract_witness :
  reachable idle_device ground1
  /\ (0 <= 0 < no_qubits ground1 ->
        exists s1,
          project_measurement idle_device ground1 0 1 = Ok s1
          /\ no_qubits s1 = no_qubits ground1 - 1
          /\ allocated_qubits s1 = allocated_qubits ground1
          /\ size (data s1) = size (data ground1)
          /\ (0 = no_qubits ground1 - 1 ->
              state_of s1 = quarter 1 (state_of ground1)))
  /\ (~ 0 <= 0 < no_qubits ground1 ->
        project_measurement idle_device ground1 0 1 = Raise ValueError).
Proof.
  split; [exact (ground1_reachable idle_device) |].
  exact (project_measurement_contract idle_device ground1 0 1
           (ground1_reachable idle_device)).
Defined.

(** X21.  An ancilla added in state [a] and projected out again on outcome
    [b] (both 0 or 1), on an object in any state it can be in: both
    calls return, [no_qubits] is back, and the state is the old one
    when [a = b] and all zeros when [a <> b]. *)
Theorem ancilla_round_trip (dev : device) (s : Density) (a b : Z) :
  reachable dev s -> a = 0 \/ a = 1 -> b = 0 \/ b = 1 ->
  exists s1 s2,
    add_ancilla s a = Ok s1
    /\ project_measurement dev s1 (no_qubits s1 - 1) b = Ok s2
    /\ no_qubits s2 = no_qubits s
    /\ state_of s2
       = if a =? b then state_of s else repeat f0 (Z.to_nat (4 ^ no_qubits s)).
Proof.
  intros Hr Ha Hb. pose proof (reachable_wf dev s Hr) as Hwf.
  destruct (add_ancilla_spec s a Hwf Ha) as (s1 & Hadd & Hn1 & _ & Hst1 & _).
  destruct (add_ancilla_wf s s1 a Hwf Hadd) as (Hwf1 & _).
  destruct (project_measurement_spec dev s1 (no_qubits s1 - 1) b Hwf1)
    as (s2 & Hproj & Hn2 & _ & _ & Hst2).
  { destruct Hwf as (Hn & _). lia. }
  exists s1, s2. split; [exact Hadd |]. split; [exact Hproj |].
  split; [lia |].
  rewrite (Hst2 eq_refl), Hst1, (quarter_with_ancilla a b _ Ha Hb).
  now rewrite (length_state_of s Hwf).
Qed.

Lemma ancilla_round_trip_witness :
  reachable idle_device ground1 /\ (1 = 0 \/ 1 = 1) /\ (1 = 0 \/ 1 = 1)
  /\ exists s1 s2,
       add_ancilla ground1 1 = Ok s1
       /\ project_measurement idle_device s1 (no_qubits s1 - 1) 1 = Ok s2
       /\ no_qubits s2 = no_qubits ground1
       /\ state_of s2
          = if 1 =? 1 then state_of ground1
            else repeat f0 (Z.to_nat (4 ^ no_qubits ground1)).
Proof.
  split; [exact (ground1_reachable idle_device) |].
  split; [right; reflexivity |]. split; [right; reflexivity |].
  exact (ancilla_round_trip idle_device ground1 1 1
           (ground1_reachable idle_device) (or_intror eq_refl) (or_intror eq_refl)).
Defined.

(** ** The constructor *)

Lemma shape_eqb_eq (a b : list Z) : shape_eqb a b = true <-> a = b.
Proof.
  revert b. induction a as [| x a IH]; intros [| y b]; simpl;
    split; try discriminate; try reflexivity.
  - intros H. apply andb_prop in H as [Hx Hr].
    apply Z.eqb_eq in Hx. apply IH in Hr. congruence.
  - intros [= -> ->]. rewrite Z.eqb_refl. now apply IH.
Qed.

Lemma dtype_eqb_eq (a b : dtype) : dtype_eqb a b = true <-> a = b.
Proof. destruct a, b; simpl; split; congruence. Qed.

(** X22.  The constructor returns exactly on the arguments it accepts:
    [0 <= no_qubits <= 15] and [data] either [None], or a host array of
    shape [(2^n, 2^n)], or a device array of [4^n] float64 entries.  On
    every other argument it raises ValueError, and nothing else.  The
    new object has [no_qubits = allocated_qubits = n] and a buffer of
    exactly [4^n] entries: [1, 0, ..., 0] for [None], the device array
    itself (not a copy) when one is given. *)
Theorem init_contract (dev : device) (n : Z) (arg : data_arg) :
  (accepted n arg ->
     exists s,
       __init__ dev n arg = Ok s
       /\ no_qubits s = n /\ allocated_qubits s = n
       /\ size (data s) = 4 ^ n
       /\ match arg with
          | DataNone => gpudata (data s) = f1 :: repeat f0 (Z.to_nat (4 ^ n) - 1)
          | DataGPUArray g => data s = g
          | _ => True
          end)
  /\ (~ accepted n arg -> __init__ dev n arg = Raise ValueError).
Proof.
  split.
  - intros ((Hn0 & Hn15) & Harg).
    assert (Hpos : 0 < 4 ^ n) by (apply pow4_pos; lia).
    unfold __init__. rewrite set_no_qubits_ok by lia. cbn [Py.bind].
    destruct (Z.ltb_spec 15 n); [lia |]. cbn [negb].
    destruct arg as [| a | g |].
    + eexists. split; [reflexivity |].
      unfold size. cbn. rewrite repeat_length. repeat split; lia.
    + rewrite Z.shiftl_1_l.
      replace (shape_eqb (shape a) [2 ^ n; 2 ^ n]) with true
        by (symmetry; now apply shape_eqb_eq).
      eexists. split; [reflexivity |].
      unfold size. cbn [set_data no_qubits allocated_qubits data gpudata].
      rewrite length_launch. unfold ga_empty. cbn [gpudata _size].
      rewrite length_map, length_seq. repeat split; lia.
    + destruct Harg as [Hsz Hdt]. cbn [_size].
      rewrite Hsz, Z.eqb_refl, Hdt. cbn [dtype_eqb].
      eexists. split; [reflexivity |]. cbn. repeat split; try lia; exact Hsz.
    + contradiction.
  - intros Hna. unfold __init__, _set_no_qubits, shl1.
    destruct (Z.ltb_spec (2 * n) 0) as [| Hn0]; [reflexivity |].
    cbn [Py.bind]. destruct (Z.ltb_spec 15 n) as [| Hn15]; [reflexivity |].
    cbn [negb]. rewrite !Z.shiftl_1_l, pow2_double by lia.
    destruct arg as [| a | g |].
    + exfalso. apply Hna. split; [lia | exact I].
    + destruct (shape_eqb _ _) eqn:E; [| reflexivity].
      exfalso. apply Hna. split; [lia |]. now apply shape_eqb_eq.
    + cbn [_size].
      destruct (Z.eqb_spec (size g) (4 ^ n)) as [Hsz |]; [| reflexivity].
      destruct (dtype_eqb (ga_dtype g) Float64) eqn:E; [| reflexivity].
      exfalso. apply Hna. split; [lia |]. split; [exact Hsz |].
      now apply dtype_eqb_eq.
    + reflexivity.
Qed.

(** ** [apply_ptm], [apply_two_ptm] and the cache *)

Lemma validate_ptm_ok (ptm : ndarray) (target : list Z) :
  valid_ptm ptm target -> _validate_ptm ptm target = Ok tt.
Proof.
  intros [Hs Hd]. unfold _validate_ptm.
  replace (shape_eqb (shape ptm) target) with true
    by (symmetry; now apply shape_eqb_eq).
  now rewrite Hd.
Qed.

Lemma validate_ptm_inv (ptm : ndarray) (target : list Z) (u : unit) :
  _validate_ptm ptm target = Ok u -> valid_ptm ptm target.
Proof.
  unfold _validate_ptm.
  destruct (shape_eqb _ _) eqn:Es; [| discriminate].
  destruct (dtype_eqb _ _) eqn:Ed; [| discriminate].
  intros _. split; [now apply shape_eqb_eq | now apply dtype_eqb_eq].
Qed.

Lemma cached_ptm_ok (dev : device) (cache : ptm_cache) (ptm : ndarray)
    (target : list Z) :
  ptm_accepted dev cache ptm target ->
  exists p, cached_ptm dev cache ptm target = Ok (cache_after dev cache ptm, p).
Proof.
  unfold ptm_accepted, cached_ptm, cache_after.
  destruct (cache !! hash dev (tobytes ptm)) as [p |] eqn:E.
  - eauto.
  - intros [[p Hp] | Hv]; [discriminate |].
    rewrite validate_ptm_ok by assumption. cbn [Py.bind]. eauto.
Qed.

Lemma cached_ptm_raises (dev : device) (cache : ptm_cache) (ptm : ndarray)
    (target : list Z) :
  ~ ptm_accepted dev cache ptm target ->
  cached_ptm dev cache ptm target = Raise ValueError.
Proof.
  unfold ptm_accepted, cached_ptm. intros Hna.
  destruct (cache !! hash dev (tobytes ptm)) as [p |] eqn:E.
  - exfalso. apply Hna. left. eauto.
  - destruct (_validate_ptm ptm target) as [u | e] eqn:Ev.
    + exfalso. apply Hna. right. eapply validate_ptm_inv; eauto.
    + revert Ev. unfold _validate_ptm.
      destruct (shape_eqb _ _); [| now intros [= <-]].
      destruct (dtype_eqb _ _); [discriminate | now intros [= <-]].
Qed.

(** X23.  [apply_ptm] and [apply_two_ptm] return exactly when every index is
    in range and the ptm is taken, that is, its bytes are already in
    the cache or it has the shape of the method and dtype float64;
    otherwise they raise ValueError, and nothing else.  [apply_two_ptm]
    does not ask for two different indices.  A call that returns
    leaves [no_qubits] and the size of the buffer as they are and
    stores the ptm in the cache unless its bytes were cached. *)
Theorem apply_ptm_contract (dev : device) (cache : ptm_cache) (s : Density) :
  (forall bit ptm,
     (0 <= bit < no_qubits s /\ ptm_accepted dev cache ptm [4; 4] ->
        exists s1,
          apply_ptm dev cache s bit ptm = Ok (cache_after dev cache ptm, s1)
          /\ no_qubits s1 = no_qubits s /\ size (data s1) = size (data s))
     /\ (~ (0 <= bit < no_qubits s /\ ptm_accepted dev cache ptm [4; 4]) ->
           apply_ptm dev cache s bit ptm = Raise ValueError))
  /\ (forall bit0 bit1 ptm,
        (0 <= bit0 < no_qubits s /\ 0 <= bit1 < no_qubits s
         /\ ptm_accepted dev cache ptm [16; 16] ->
           exists s1,
             apply_two_ptm dev cache s bit0 bit1 ptm
             = Ok (cache_after dev cache ptm, s1)
             /\ no_qubits s1 = no_qubits s /\ size (data s1) = size (data s))
        /\ (~ (0 <= bit0 < no_qubits s /\ 0 <= bit1 < no_qubits s
               /\ ptm_accepted dev cache ptm [16; 16]) ->
              apply_two_ptm dev cache s bit0 bit1 ptm = Raise ValueError)).
Proof.
  split.
  - intros bit ptm. split.
    + intros [Hbit Hacc]. unfold apply_ptm.
      rewrite validate_bit_ok by assumption. cbn [Py.bind].
      destruct (cached_ptm_ok dev cache ptm [4; 4] Hacc) as [p ->].
      cbn [Py.bind fst snd]. eexists. split; [reflexivity |].
      split; [reflexivity |].
      unfold size. cbn [set_buf set_data data gpudata].
      now rewrite length_launch.
    + intros Hna. unfold apply_ptm.
      destruct (_validate_bit s bit) as [[] | e] eqn:Hv; cbn [Py.bind].
      * apply validate_bit_inv in Hv.
        rewrite cached_ptm_raises by tauto. reflexivity.
      * now rewrite (validate_bit_exn s bit e Hv).
  - intros bit0 bit1 ptm. split.
    + intros (Hbit0 & Hbit1 & Hacc). unfold apply_two_ptm.
      rewrite !validate_bit_ok by assumption. cbn [Py.bind].
      destruct (cached_ptm_ok dev cache ptm [16; 16] Hacc) as [p ->].
      cbn [Py.bind fst snd]. eexists. split; [reflexivity |].
      split; [reflexivity |].
      unfold size. cbn [set_buf set_data data gpudata].
      now rewrite length_launch.
    + intros Hna. unfold apply_two_ptm.
      destruct (_validate_bit s bit0) as [[] | e] eqn:Hv0; cbn [Py.bind].
      * destruct (_validate_bit s bit1) as [[] | e] eqn:Hv1; cbn [Py.bind].
        -- apply validate_bit_inv in Hv0, Hv1.
           rewrite cached_ptm_raises by tauto. reflexivity.
        -- now rewrite (validate_bit_exn s bit1 e Hv1).
      * now rewrite (validate_bit_exn s bit0 e Hv0).
Qed.

Lemma cached_ptm_grows (dev : device) (cache c' : ptm_cache)
    (ptm p : ndarray) (target : list Z) :
  target = [4; 4] \/ target = [16; 16] ->
  cached_ptm dev cache ptm target = Ok (c', p) ->
  cache ⊆ c' /\ (cache_ok dev cache -> cache_ok dev c').
Proof.
  intros Ht. unfold cached_ptm.
  destruct (cache !! hash dev (tobytes ptm)) as [p0 |] eqn:E.
  - intros [= <- _]. split; [reflexivity | auto].
  - destruct (_validate_ptm ptm target) as [u |] eqn:Ev; [| discriminate].
    cbn [Py.bind]. intros [= <- _].
    apply validate_ptm_inv in Ev.
    split; [now apply insert_subseteq |].
    intros Hok key p1 Hl. apply lookup_insert_Some in Hl as [[<- <-] | [_ Hl]].
    + split; [reflexivity |]. destruct Ht as [-> | ->]; auto.
    + now apply Hok.
Qed.

Lemma call_cache (dev : device) (w w' : world) (o : op) :
  call dev w o = Ok w' ->
  fst w ⊆ fst w' /\ (cache_ok dev (fst w) -> cache_ok dev (fst w')).
Proof.
  destruct w as [cache s].
  destruct o as [bit p | b0 b1 p | a | bit st | | | bit |]; cbn [call fst snd].
  - unfold apply_ptm.
    destruct (_validate_bit s bit); [| discriminate]. cbn [Py.bind].
    destruct (cached_ptm _ _ _ _) as [[c1 p1] |] eqn:Ec; [| discriminate].
    cbn [Py.bind fst snd]. intros [= <-]. cbn [fst].
    eapply cached_ptm_grows; [| exact Ec]. now left.
  - unfold apply_two_ptm.
    destruct (_validate_bit s b0); [| discriminate]. cbn [Py.bind].
    destruct (_validate_bit s b1); [| discriminate]. cbn [Py.bind].
    destruct (cached_ptm _ _ _ _) as [[c1 p1] |] eqn:Ec; [| discriminate].
    cbn [Py.bind fst snd]. intros [= <-]. cbn [fst].
    eapply cached_ptm_grows; [| exact Ec]. now right.
  - destruct (add_ancilla s a); [| discriminate]. cbn [Py.bind].
    intros [= <-]. split; [reflexivity | auto].
  - destruct (project_measurement dev s bit st); [| discriminate].
    cbn [Py.bind]. intros [= <-]. split; [reflexivity | auto].
  - destruct (trace dev s); [| discriminate]. cbn [Py.bind].
    intros [= <-]. split; [reflexivity | auto].
  - destruct (renormalize dev s); [| discriminate]. cbn [Py.bind].
    intros [= <-]. split; [reflexivity | auto].
  - destruct (partial_trace dev s bit); [| discriminate]. cbn [Py.bind].
    intros [= <-]. split; [reflexivity | auto].
  - intros [= <-]. split; [reflexivity | auto].
Qed.

Lemma final_cache (dev : device) (ops : list op) :
  forall w : world,
    fst w ⊆ fst (final dev w ops)
    /\ (cache_ok dev (fst w) -> cache_ok dev (fst (final dev w ops))).
Proof.
  induction ops as [| o ops IH]; intros w.
  - split; [reflexivity | auto].
  - change (final dev w (o :: ops)) with (final dev (step dev w o) ops).
    destruct (IH (step dev w o)) as [Hsub Hok].
    assert (Hstep : fst w ⊆ fst (step dev w o)
                    /\ (cache_ok dev (fst w) -> cache_ok dev (fst (step dev w o)))).
    { unfold step. destruct (call dev w o) as [w' |] eqn:Hc.
      - now apply (call_cache dev w w' o).
      - split; [reflexivity | auto]. }
    destruct Hstep as [Hsub1 Hok1].
    split; [etransitivity; eassumption | auto].
Qed.

(** X24.  The class-level cache over any sequence of calls on an object: an
    entry, once stored, is never removed or replaced; and starting from
    the empty cache, every entry sits under the hash of its own bytes
    and is a float64 array of shape (4, 4) or (16, 16) (of either
    shape, whichever method stored it). *)
Theorem ptm_cache_laws (dev : device) (w : world) (ops : list op) :
  (forall key p,
     fst w !! key = Some p -> fst (final dev w ops) !! key = Some p)
  /\ cache_ok dev (fst (final dev (∅, snd w) ops)).
Proof.
  split.
  - destruct (final_cache dev ops w) as [Hsub _].
    intros key p Hl. eapply lookup_weaken; eassumption.
  - destruct (final_cache dev ops (∅, snd w)) as [_ Hok].
    apply Hok. intros key p Hl. cbn [fst] in Hl.
    now rewrite lookup_empty in Hl.
Qed.

End Dm10Laws.
